(** * distributeddolt: the p2p RPC / pubsub runtime and the gRPC ping server

    A shallow embedding of the Go sources: the gRPC [Server] of
    [p2p/server/server.go] and the libp2p manager (framer, dispatcher,
    request tracker, pubsub processor, per-peer message processors). *)

From stdpp Require Import gmap strings list.
From Stdlib.Strings Require Import Byte.

Local Open Scope string_scope.
Local Open Scope nat_scope.
Local Open Scope list_scope.
Local Open Scope stdpp_scope.

(** ** Shared vocabulary *)

(** [peer.ID] is a Go string type. *)
Definition PeerID := string.

(** A Go [error] value, identified with the text of [err.Error()]. *)
Definition error := string.

(** [[]byte] and [json.RawMessage]. *)
Definition bytes := list byte.

(** [strings.Contains s sub]. *)
Fixpoint Contains (s sub : string) : bool :=
  String.prefix sub s ||
  match s with
  | EmptyString => false
  | String _ s' => Contains s' sub
  end.

(** The framing delimiter, byte [0x0A]. *)
Definition newline : byte := x0a.

(** What a Go call yields: a value paired with an [error], the error
    winning when it is not nil. *)
Inductive result (A : Type) :=
| Ok (a : A)
| Err (e : error).
Arguments Ok {A}.
Arguments Err {A}.

(** A Go call that may also panic with a value, rendered as text. *)
Inductive call (A : Type) :=
| Return (a : A)
| Panic (r : string).
Arguments Return {A}.
Arguments Panic {A}.

(** ** The gRPC server ([p2p/server/server.go]) *)

Module Server.

(** [doltswarm.Commit], of which the server reads the hash only. *)
Record Commit := { Hash : string }.

(** The methods of the [ExternalDB] interface, as the calls a server
    method may issue. *)
Inductive DBCall :=
| AddPeer (peerID : string)
| RemovePeer (peerID : string)
| GetAllCommits
| ExecAndCommit (query commitMsg : string)
| GetLastCommit (branch : string).

(** An implementation of [ExternalDB] over a store [D]. *)
Record ExternalDB (D : Type) := {
  db_GetAllCommits : D → (list Commit + error) * D;
  db_ExecAndCommit : string → string → D → (string + error) * D;
  db_GetLastCommit : string → D → (Commit + error) * D;
}.
Arguments db_GetAllCommits {D}.
Arguments db_ExecAndCommit {D}.
Arguments db_GetLastCommit {D}.

(** [type Server struct { DB ExternalDB }]; the interface value may be nil. *)
Record Server (D : Type) := { DB : option (ExternalDB D) }.
Arguments DB {D}.

Record PingRequest := { Ping_ : string }.
Record PingResponse := { Pong : string }.
Record ExecSQLRequest := { Statement : string; Msg : string }.
Record ExecSQLResponse := { Result : string; Commit_ : string }.
Record GetAllCommitsResponse := { Commits : list string }.
Record GetHeadResponse := { HeadCommit : string }.

(** The world a method runs in: the store behind the DB and the log of
    the interface calls issued so far (latest last). *)
Record world (D : Type) := { store : D; calls : list DBCall }.
Arguments store {D}.
Arguments calls {D}.

(** What a method does: it returns Go's pair [(response, error)], or
    panics (a method call on a nil interface value). *)
Inductive outcome (A : Type) :=
| Returns (resp : option A) (err : option error)
| Panics.
Arguments Returns {A}.
Arguments Panics {A}.

Section Methods.
(** [context.Context] and [p2pgrpc.RemotePeerFromContext], which
    belong to the transport; the second result of the Go function is
    [true] exactly when the option is [Some]. *)
Context {Ctx : Type} (RemotePeerFromContext : Ctx → option PeerID).
Context {D : Type}.

Definition Ping (s : Server D) (ctx : Ctx) (req : PingRequest)
    (w : world D) : outcome PingResponse * world D :=
  match RemotePeerFromContext ctx with
  | None => (Returns None (Some "no AuthInfo in context"), w)
  | Some _ =>
      let res := {| Pong := "Ping: " +:+ Ping_ req +:+ "!" |} in
      (Returns (Some res) None, w)
  end.

Definition ExecSQL (s : Server D) (ctx : Ctx) (req : ExecSQLRequest)
    (w : world D) : outcome ExecSQLResponse * world D :=
  match DB s with
  | None => (Panics, w)
  | Some db =>
      let '(r, d) := db_ExecAndCommit db (Statement req) (Msg req) (store w) in
      let w' := {| store := d;
                   calls := calls w ++ [ExecAndCommit (Statement req) (Msg req)] |} in
      match r with
      | inr err => (Returns None (Some err), w')
      | inl commit =>
          (Returns (Some {| Result := ""; Commit_ := commit |}) None, w')
      end
  end.

Definition GetAllCommits_ (s : Server D) (ctx : Ctx)
    (w : world D) : outcome GetAllCommitsResponse * world D :=
  match DB s with
  | None => (Panics, w)
  | Some db =>
      let '(r, d) := db_GetAllCommits db (store w) in
      let w' := {| store := d; calls := calls w ++ [GetAllCommits] |} in
      match r with
      | inr err => (Returns None (Some err), w')
      | inl commits =>
          (Returns (Some {| Commits := Hash <$> commits |}) None, w')
      end
  end.

Definition GetHead (s : Server D) (ctx : Ctx)
    (w : world D) : outcome GetHeadResponse * world D :=
  match DB s with
  | None => (Panics, w)
  | Some db =>
      let '(r, d) := db_GetLastCommit db "main" (store w) in
      let w' := {| store := d; calls := calls w ++ [GetLastCommit "main"] |} in
      match r with
      | inr err => (Returns None (Some err), w')
      | inl commit =>
          (Returns (Some {| HeadCommit := Hash commit |}) None, w')
      end
  end.
End Methods.

(** A transport for closed examples: the context is the optional
    remote peer itself. *)
Definition plainCtx := option PeerID.
Definition plainRemotePeer (ctx : plainCtx) : option PeerID := ctx.

(** A one-cell store whose every commit is the executed query. *)
Definition cellDB : ExternalDB (list string) := {|
  db_GetAllCommits := λ d, (inl ((λ h, {| Hash := h |}) <$> d), d);
  db_ExecAndCommit := λ q _ d, (inl q, q :: d);
  db_GetLastCommit := λ _ d,
    match d with
    | [] => (inr "no commits", d)
    | h :: _ => (inl {| Hash := h |}, d)
    end;
|}.

(** The world of the closed examples: an empty store, no call made. *)
Definition quiet : world (list string) := {| store := []; calls := [] |}.

End Server.

(** ** The framer ([delimReader]) and the reader's intake loop *)

Module Framer.

(** [bufio.Reader.ReadBytes(delim)] over the bytes the stream still
    holds before it ends: the data up to and including the first
    [delim], or, when the stream ends first, the data read so far with
    an error. The triple is (data, err != nil, remaining stream). *)
Fixpoint ReadBytes (delim : byte) (r : list byte) : bytes * bool * list byte :=
  match r with
  | [] => ([], true, [])
  | b :: r' =>
      if Byte.eqb b delim then ([b], false, r')
      else let '(bs, err, rest) := ReadBytes delim r' in (b :: bs, err, rest)
  end.

(** The loop of the goroutine in [delimReader]: the values sent on
    [ch] before it is closed. [fuel] bounds the number of iterations. *)
Fixpoint readLoop (fuel : nat) (r : list byte) : list bytes :=
  match fuel with
  | O => []
  | S fuel' =>
      let '(bs, err, rest) := ReadBytes newline r in
      (if Nat.eqb (length bs) 0 then [] else [bs]) ++
      (if err then [] else readLoop fuel' rest)
  end.

(** [delimReader(r, delim)]: the frames the channel carries. The Go
    function reads up to ['\n'] whatever [delim] is. Every iteration
    that does not end the loop consumes a byte, so [S (length r)]
    iterations are enough. *)
Definition delimReader (r : list byte) (delim : byte) : list bytes :=
  readLoop (S (length r)) r.

(** The intake of [rpcMsgReader]: of the values received from
    [readerChan], those of length 0 are passed over and every other
    one is handed to a [msgProcessor] goroutine. *)
Definition dispatched (s : list byte) : list bytes :=
  filter (λ bs, length bs ≠ 0) (delimReader s newline).

(** A frame as the specification words it: the content before a
    delimiter; it is complete when the delimiter follows it. *)
Definition terminated (f : bytes) : Prop := ∃ content, f = content ++ [newline].

(** The specification's framer: the complete frames only (an
    unterminated tail is not a frame), the empty ones skipped. *)
Definition spec_delivers (f : bytes) : Prop :=
  terminated f ∧ f ≠ [newline].

(** A frame that ends at a delimiter and holds no other. *)
Definition complete (f : bytes) : Prop :=
  ∃ content, f = content ++ [newline] ∧ newline ∉ content.

(** What is left when the stream ends off a delimiter. *)
Definition partial (f : bytes) : Prop := f ≠ [] ∧ newline ∉ f.

(** [frames] cut the stream [r] at its delimiters: complete frames,
    then at most one partial one, and nothing lost. *)
Definition framing (frames : list bytes) (r : list byte) : Prop :=
  concat frames = r ∧
  ∃ whole tail, frames = whole ++ tail ∧ Forall complete whole ∧
                (tail = [] ∨ ∃ f, tail = [f] ∧ partial f).

(** The stream [a], newline, newline, [b]. *)
Definition gappy : list byte := [x61; x0a; x0a; x62].

End Framer.

(** ** The wire records *)

(** [rpcMsgType]; the two values the dispatcher knows. *)
Definition rpcRequest : string := "request".
Definition rpcResponse : string := "response".

(** [type rpcMsg struct { ID; Type; Payload }] *)
Record rpcMsg := { msgID : string; msgType : string; msgPayload : bytes }.

(** [type rpcPayloadRequest struct { Type; Data }] *)
Record rpcPayloadRequest := { reqType : string; reqData : bytes }.

(** [type rpcPayloadResponse struct { Error; Data }] *)
Record rpcPayloadResponse := { respError : string; respData : bytes }.

(** [type pubsubMsg struct { ID; Type; Payload }] *)
Record pubsubMsg := { psID : string; psType : string; psPayload : bytes }.

(** [peer.ID.String()]; the model names a peer by this text. *)
Definition PeerID_String (p : PeerID) : string := p.

(** ** The request tracker: [sendRequest], its timeout goroutine and
    [responseHandler], one Go statement per step *)

Module Tracker.

(** What the [select] at the end of [sendRequest] hands to the
    caller: bytes from [resp], or a value from [err] ([None] is the
    nil error a closed channel yields). *)
Inductive delivery :=
| FromResp (data : bytes)
| FromErr (e : option error).

(** What [sendRequest] returns: the delivery of its tracker, or the
    error of one of its early returns. *)
Inductive returned :=
| Early (e : error)
| Late (d : delivery).

(** Where the goroutine running [sendRequest] stands. *)
Inductive callerPC :=
| CStart                  (* the encoding, then [p2p.reqs.Set] *)
| CLookup                 (* [p2p.rpcMsgProcessors.Get] *)
| CEnqueue                (* [msgProcessor.WriteQueue <- msg] *)
| CSpawn                  (* [go func() {...}()], then the [defer] *)
| CSelect                 (* [select] on [resp] and [err] *)
| CDefer (d : delivery)   (* the deferred [p2p.reqs.Remove] *)
| CReturned (r : returned).

(** Where the timeout goroutine stands. *)
Inductive timerPC :=
| TIdle                   (* not started *)
| TSleep                  (* [time.Sleep(time.Second * 5)] *)
| TCheck                  (* [select] on [closeSig] with [default] *)
| TClose                  (* [close(reqTracker.closeSig)] *)
| TSend                   (* [reqTracker.err <- ...] *)
| TCloseResp              (* [close(reqTracker.resp)] *)
| TCloseErr               (* [close(reqTracker.err)] *)
| TDone                   (* ran to its end *)
| TExit.                  (* returned at the check: latch seen closed *)

(** Where the goroutine running [responseHandler] stands. *)
Inductive responderPC :=
| RGet                    (* [p2p.reqs.Get(id)] *)
| RCheck                  (* [select] on [closeSig] with [default] *)
| RClose                  (* [close(req.closeSig)] *)
| RSend                   (* [req.err <- ...] or [req.resp <- ...] *)
| RCloseResp              (* [close(req.resp)] *)
| RCloseErr               (* [close(req.err)] *)
| RDone                   (* ran to its end *)
| RExit                   (* returned at the check: latch seen closed *)
| RNotFound               (* returned: request not found *)
| RRecovered.             (* panicked; [msgProcessor]'s recover logged it *)

(** One call of [sendRequest] and the response on its way to it. *)
Record request := {
  id : string;                     (* [ksuid.New().String()] *)
  peerID : PeerID;                 (* the peer the request goes to *)
  method : string;                 (* [msgType] *)
  encoded : result rpcMsg;         (* what the two [json.Marshal] calls gave *)
  tracker : nat;                   (* the [*requestTracker] *)
  response : rpcPayloadResponse;   (* the response [responseHandler] is called with *)
  responder : PeerID;              (* the peer whose stream carried it *)
}.

(** The shared state: the two concurrent maps (of [rpcMsgProcessors],
    the write queue of the target peer, if it has a processor), the
    three channels of the tracker ([true] = closed), the three
    goroutines, the clock in milliseconds. *)
Record state := {
  now : N;
  reqs : gmap string nat;
  writeQueue : option (list rpcMsg);
  closeSig : bool;
  resp : bool;
  err : bool;
  cpc : callerPC;
  tpc : timerPC;
  rpc : responderPC;
  armed : N;                       (* when the timer began to sleep *)
  crashed : option string;         (* a panic nothing recovers *)
  recovered : list string;         (* panics [msgProcessor] recovered *)
}.

Definition set_now v s := {| now := v; reqs := reqs s; writeQueue := writeQueue s;
  closeSig := closeSig s; resp := resp s; err := err s; cpc := cpc s; tpc := tpc s;
  rpc := rpc s; armed := armed s; crashed := crashed s; recovered := recovered s |}.
Definition set_reqs v s := {| now := now s; reqs := v; writeQueue := writeQueue s;
  closeSig := closeSig s; resp := resp s; err := err s; cpc := cpc s; tpc := tpc s;
  rpc := rpc s; armed := armed s; crashed := crashed s; recovered := recovered s |}.
Definition set_writeQueue v s := {| now := now s; reqs := reqs s; writeQueue := v;
  closeSig := closeSig s; resp := resp s; err := err s; cpc := cpc s; tpc := tpc s;
  rpc := rpc s; armed := armed s; crashed := crashed s; recovered := recovered s |}.
Definition set_closeSig v s := {| now := now s; reqs := reqs s; writeQueue := writeQueue s;
  closeSig := v; resp := resp s; err := err s; cpc := cpc s; tpc := tpc s;
  rpc := rpc s; armed := armed s; crashed := crashed s; recovered := recovered s |}.
Definition set_resp v s := {| now := now s; reqs := reqs s; writeQueue := writeQueue s;
  closeSig := closeSig s; resp := v; err := err s; cpc := cpc s; tpc := tpc s;
  rpc := rpc s; armed := armed s; crashed := crashed s; recovered := recovered s |}.
Definition set_err v s := {| now := now s; reqs := reqs s; writeQueue := writeQueue s;
  closeSig := closeSig s; resp := resp s; err := v; cpc := cpc s; tpc := tpc s;
  rpc := rpc s; armed := armed s; crashed := crashed s; recovered := recovered s |}.
Definition set_cpc v s := {| now := now s; reqs := reqs s; writeQueue := writeQueue s;
  closeSig := closeSig s; resp := resp s; err := err s; cpc := v; tpc := tpc s;
  rpc := rpc s; armed := armed s; crashed := crashed s; recovered := recovered s |}.
Definition set_tpc v s := {| now := now s; reqs := reqs s; writeQueue := writeQueue s;
  closeSig := closeSig s; resp := resp s; err := err s; cpc := cpc s; tpc := v;
  rpc := rpc s; armed := armed s; crashed := crashed s; recovered := recovered s |}.
Definition set_rpc v s := {| now := now s; reqs := reqs s; writeQueue := writeQueue s;
  closeSig := closeSig s; resp := resp s; err := err s; cpc := cpc s; tpc := tpc s;
  rpc := v; armed := armed s; crashed := crashed s; recovered := recovered s |}.
Definition set_armed v s := {| now := now s; reqs := reqs s; writeQueue := writeQueue s;
  closeSig := closeSig s; resp := resp s; err := err s; cpc := cpc s; tpc := tpc s;
  rpc := rpc s; armed := v; crashed := crashed s; recovered := recovered s |}.
Definition set_crashed v s := {| now := now s; reqs := reqs s; writeQueue := writeQueue s;
  closeSig := closeSig s; resp := resp s; err := err s; cpc := cpc s; tpc := tpc s;
  rpc := rpc s; armed := armed s; crashed := v; recovered := recovered s |}.
Definition set_recovered v s := {| now := now s; reqs := reqs s; writeQueue := writeQueue s;
  closeSig := closeSig s; resp := resp s; err := err s; cpc := cpc s; tpc := tpc s;
  rpc := rpc s; armed := armed s; crashed := crashed s; recovered := v |}.

(** The capacity of a write queue, [make(chan rpcMsg, 200)]. *)
Definition queueCap : nat := 200.

(** The timeout, [time.Second * 5], in milliseconds. *)
Definition timeout : N := 5000.

(** The error of the [!found] return of [sendRequest]. *)
Definition writerNotFound (q : request) : error :=
  "failed to send request '" +:+ id q +:+ "' for peer '" +:+
  PeerID_String (peerID q) +:+ "': peer writer not found".

(** The error the timeout goroutine sends. *)
Definition timeoutError (q : request) : error :=
  "timeout waiting for request '" +:+ id q +:+ "'(" +:+ method q +:+
  ") to peer '" +:+ PeerID_String (peerID q) +:+ "'".

(** What [responseHandler] sends, and on which channel: the remote
    error on [err] when [response.Error] is not empty, else the data
    on [resp]. *)
Definition answer (q : request) : delivery :=
  if decide (respError (response q) = "") then FromResp (respData (response q))
  else FromErr (Some ("error returned by '" +:+ PeerID_String (responder q) +:+
                      "': " +:+ respError (response q))).

(** The runtime's texts for the two channel panics. *)
Definition closeOfClosed : string := "close of closed channel".
Definition sendOnClosed : string := "send on closed channel".

(** [sendRequest], from the encoding to its return. The id is freshly
    minted, so an entry of [reqs] under it is this call's tracker. *)
Definition stepCaller (q : request) (s : state) : option state :=
  match cpc s with
  | CStart =>
      match encoded q with
      | Err e => Some (set_cpc (CReturned (Early e)) s)
      | Ok _ => Some (set_cpc CLookup (set_reqs (<[id q := tracker q]> (reqs s)) s))
      end
  | CLookup =>
      match writeQueue s with
      | None => Some (set_cpc (CReturned (Early (writerNotFound q))) s)
      | Some _ => Some (set_cpc CEnqueue s)
      end
  | CEnqueue =>
      match writeQueue s, encoded q with
      | Some queue, Ok msg =>
          (* a send on a full buffered channel blocks *)
          if decide (length queue < queueCap)
          then Some (set_cpc CSpawn (set_writeQueue (Some (queue ++ [msg])) s))
          else None
      | _, _ => None
      end
  | CSpawn => Some (set_cpc CSelect (set_tpc TSleep (set_armed (now s) s)))
  | CSelect =>
      (* without a sender, only a closed channel lets the select go on *)
      if resp s then Some (set_cpc (CDefer (FromResp [])) s)
      else if err s then Some (set_cpc (CDefer (FromErr None)) s)
      else None
  | CDefer d =>
      Some (set_cpc (CReturned (Late d)) (set_reqs (delete (id q) (reqs s)) s))
  | CReturned _ => None
  end.

(** The goroutine started by [sendRequest]. A panic in it is recovered
    by nothing and ends the process. A send on an unbuffered channel
    goes through when the caller stands at its [select]. *)
Definition stepTimer (q : request) (s : state) : option state :=
  match tpc s with
  | TIdle => None
  | TSleep =>
      if decide (armed s + timeout ≤ now s)%N then Some (set_tpc TCheck s) else None
  | TCheck => Some (set_tpc (if closeSig s then TExit else TClose) s)
  | TClose =>
      if closeSig s then Some (set_crashed (Some closeOfClosed) s)
      else Some (set_tpc TSend (set_closeSig true s))
  | TSend =>
      if err s then Some (set_crashed (Some sendOnClosed) s)
      else match cpc s with
           | CSelect =>
               Some (set_tpc TCloseResp
                       (set_cpc (CDefer (FromErr (Some (timeoutError q)))) s))
           | _ => None
           end
  | TCloseResp =>
      if resp s then Some (set_crashed (Some closeOfClosed) s)
      else Some (set_tpc TCloseErr (set_resp true s))
  | TCloseErr =>
      if err s then Some (set_crashed (Some closeOfClosed) s)
      else Some (set_tpc TDone (set_err true s))
  | TDone | TExit => None
  end.

(** A panic inside [responseHandler] unwinds to the deferred recover
    of [msgProcessor], which logs it; the goroutine ends. *)
Definition recover (r : string) (s : state) : state :=
  set_rpc RRecovered (set_recovered (recovered s ++ [r]) s).

(** [responseHandler] for the response on its way. *)
Definition stepResponder (q : request) (s : state) : option state :=
  match rpc s with
  | RGet =>
      Some (set_rpc (if reqs s !! id q is Some _ then RCheck else RNotFound) s)
  | RCheck => Some (set_rpc (if closeSig s then RExit else RClose) s)
  | RClose =>
      if closeSig s then Some (recover closeOfClosed s)
      else Some (set_rpc RSend (set_closeSig true s))
  | RSend =>
      if (match answer q with FromErr _ => err s | FromResp _ => resp s end)
      then Some (recover sendOnClosed s)
      else match cpc s with
           | CSelect => Some (set_rpc RCloseResp (set_cpc (CDefer (answer q)) s))
           | _ => None
           end
  | RCloseResp =>
      if resp s then Some (recover closeOfClosed s)
      else Some (set_rpc RCloseErr (set_resp true s))
  | RCloseErr =>
      if err s then Some (recover closeOfClosed s)
      else Some (set_rpc RDone (set_err true s))
  | RDone | RExit | RNotFound | RRecovered => None
  end.

(** Who moves: time ([d] milliseconds pass), the writer of the target
    peer (it takes the head of the queue), or one of the three
    goroutines. *)
Inductive label :=
| Tick (d : N)
| Drain
| Caller
| Timer
| Responder.

(** One step; [None] when the mover is blocked or has finished, or
    the process has crashed. *)
Definition step (q : request) (l : label) (s : state) : option state :=
  match crashed s with
  | Some _ => None
  | None =>
      match l with
      | Tick d => Some (set_now (now s + d)%N s)
      | Drain =>
          match writeQueue s with
          | Some (_ :: queue) => Some (set_writeQueue (Some queue) s)
          | _ => None
          end
      | Caller => stepCaller q s
      | Timer => stepTimer q s
      | Responder => stepResponder q s
      end
  end.

(** A schedule, run from a state. *)
Fixpoint run (q : request) (ls : list label) (s : state) : option state :=
  match ls with
  | [] => Some s
  | l :: ls' =>
      match step q l s with
      | Some s' => run q ls' s'
      | None => None
      end
  end.

(** [sendRequest] is called at time [t0] with the tables as given;
    the tracker's channels are fresh, the response is still to be
    handled. *)
Definition init (t0 : N) (table : gmap string nat)
    (queue : option (list rpcMsg)) : state :=
  {| now := t0; reqs := table; writeQueue := queue;
     closeSig := false; resp := false; err := false;
     cpc := CStart; tpc := TIdle; rpc := RGet;
     armed := 0; crashed := None; recovered := [] |}.

(** The timeout goroutine closed the latch itself. *)
Definition tWon (p : timerPC) : bool :=
  match p with TSend | TCloseResp | TCloseErr | TDone => true | _ => false end.

(** It handed its error to the caller; it closed [resp]; it closed [err]. *)
Definition tSent (p : timerPC) : bool :=
  match p with TCloseResp | TCloseErr | TDone => true | _ => false end.
Definition tClosedResp (p : timerPC) : bool :=
  match p with TCloseErr | TDone => true | _ => false end.
Definition tClosedErr (p : timerPC) : bool :=
  match p with TDone => true | _ => false end.

(** It was started; its sleep is over. *)
Definition tStarted (p : timerPC) : bool :=
  match p with TIdle => false | _ => true end.
Definition tAwake (p : timerPC) : bool :=
  match p with TIdle | TSleep => false | _ => true end.

(** [responseHandler] closed the latch itself. *)
Definition rWon (p : responderPC) : bool :=
  match p with RSend | RCloseResp | RCloseErr | RDone => true | _ => false end.

(** It handed its answer to the caller; it closed [resp]; it closed [err]. *)
Definition rSent (p : responderPC) : bool :=
  match p with RCloseResp | RCloseErr | RDone => true | _ => false end.
Definition rClosedResp (p : responderPC) : bool :=
  match p with RCloseErr | RDone => true | _ => false end.
Definition rClosedErr (p : responderPC) : bool :=
  match p with RDone => true | _ => false end.

(** What the caller's [select] received, if it has. *)
Definition cGot (p : callerPC) : option delivery :=
  match p with
  | CDefer d | CReturned (Late d) => Some d
  | _ => None
  end.

(** The caller is past its [go] statement. *)
Definition cSpawned (p : callerPC) : bool :=
  match p with
  | CSelect | CDefer _ | CReturned (Late _) => true
  | _ => false
  end.

(** The caller is between its [reqs.Set] and its [reqs.Remove]. *)
Definition cTracked (p : callerPC) : bool :=
  match p with
  | CLookup | CEnqueue | CSpawn | CSelect | CDefer _ => true
  | _ => false
  end.

(** What every schedule keeps true of a call started by [init]. *)
Record inv (q : request) (s : state) : Prop := {
  inv_latch : closeSig s = tWon (tpc s) || rWon (rpc s);
  inv_single : tWon (tpc s) && rWon (rpc s) = false;
  inv_resp : resp s = tClosedResp (tpc s) || rClosedResp (rpc s);
  inv_err : err s = tClosedErr (tpc s) || rClosedErr (rpc s);
  inv_got : cGot (cpc s) =
            if tSent (tpc s) then Some (FromErr (Some (timeoutError q)))
            else if rSent (rpc s) then Some (answer q)
            else None;
  inv_spawned : tStarted (tpc s) = cSpawned (cpc s);
  inv_slept : tAwake (tpc s) = true → (armed s + timeout ≤ now s)%N;
  inv_crashed : is_Some (crashed s) → tpc s = TClose;
  inv_tracked : cTracked (cpc s) = true → reqs s !! id q = Some (tracker q);
  inv_removed : ∀ d, cpc s = CReturned (Late d) → reqs s !! id q = None;
  inv_early : ∀ e, cpc s = CReturned (Early e) →
              encoded q = Err e ∨
              (e = writerNotFound q ∧ reqs s !! id q = Some (tracker q));
  inv_panics : ∀ r, crashed s = Some r ∨ r ∈ recovered s → r = closeOfClosed;
}.

End Tracker.

(** ** The manager: dispatcher, writer, [sendRequest], pubsub processor *)

(** [encoding/json] for the wire records: [json.Marshal(v)] and
    [json.Unmarshal(data, &v)] into a zero value. *)
Class JSON (A : Type) := {
  Marshal : A → result bytes;
  Unmarshal : bytes → result A;
}.

(** [encoding/json] and [reflect] for the values behind [interface{}]:
    [json.Marshal(v)], [json.Unmarshal(data, &v)] into the value the
    target already holds, and [reflect.New] of the type behind a
    prototype pointer. *)
Class GoValue (V : Type) := {
  MarshalAny : V → result bytes;
  UnmarshalInto : bytes → V → result V;
  reflectNew : V → V;
}.

Module P2P.

(** [type rpcHandler struct { Func; RequestStruct }] *)
Record rpcHandler (V : Type) := {
  Func : PeerID → V → call (V * option error);
  RequestStruct : V;
}.
Arguments Func {V}.
Arguments RequestStruct {V}.

(** [type pubsubHandler struct { Func; PayloadStruct }] *)
Record pubsubHandler (V : Type) := {
  psFunc : PeerID → V → call (option error);
  PayloadStruct : V;
}.
Arguments psFunc {V}.
Arguments PayloadStruct {V}.

(** [pubsub.Message], of which the processor reads two fields. *)
Record Message := { ReceivedFrom : PeerID; Data : bytes }.

(** What a dispatching goroutine does to the rest of the program, in
    order: an error line of the log ([Tracef] and [Debugf] lines are
    left out), a message sent on the write queue, a handler entered,
    [responseHandler] called. *)
Inductive action (V : Type) :=
| Log (text : string)
| Enqueue (m : rpcMsg)
| Invoke (name : string) (peer : PeerID) (arg : V)
| Respond (id : string) (peer : PeerID) (r : rpcPayloadResponse).
Arguments Log {V}.
Arguments Enqueue {V}.
Arguments Invoke {V}.
Arguments Respond {V}.

(** A goroutine body: the actions done so far, and how it went on. *)
Definition M (V A : Type) : Type := list (action V) * call A.

Definition ret {V A} (a : A) : M V A := ([], Return a).

Definition bind {V A B} (m : M V A) (k : A → M V B) : M V B :=
  match m with
  | (l, Panic r) => (l, Panic r)
  | (l, Return a) => let '(l', c) := k a in (l ++ l', c)
  end.

Definition emit {V} (a : action V) : M V unit := ([a], Return tt).

Definition invoke {V A} (c : call A) : M V A := ([], c).

(** [defer func() { if r := recover(); r != nil { log.Errorf(...) } }()] *)
Definition recovering {V} (line : string → string) (m : M V unit) : list (action V) :=
  match m with
  | (l, Return _) => l
  | (l, Panic r) => l ++ [Log (line r)]
  end.

Notation "'let*' x ':=' m 'in' k" := (bind m (λ x, k))
  (at level 10, x name, m at level 100, k at level 200).

Section Manager.
Context {V : Type} `{GoValue V}.
Context `{JSON rpcMsg, JSON rpcPayloadRequest, JSON rpcPayloadResponse,
          JSON pubsubMsg}.

(** The fields of [P2P] the dispatchers read. *)
Variable hostID : PeerID.
Variable rpcHandlers : gmap string (rpcHandler V).
Variable pubsubHandlers : gmap string (pubsubHandler V).

Definition getRPCHandler (msgType : string) : result (rpcHandler V) :=
  match rpcHandlers !! msgType with
  | Some handler => Ok handler
  | None => Err ("RPC handler for method '" +:+ msgType +:+ "' not found")
  end.

Definition getPubSubHandler (msgType : string) : result (pubsubHandler V) :=
  match pubsubHandlers !! msgType with
  | Some handler => Ok handler
  | None => Err ("PubSub handler for msg type '" +:+ msgType +:+ "' not found")
  end.

(** The tail the three exits of [requestHandler] share: encode the
    response, set it as payload, send the message on the write
    queue. *)
Definition sendResponse (id : string) (peerID : PeerID)
    (response : rpcPayloadResponse) : M V unit :=
  match Marshal response with
  | Err e =>
      emit (Log ("Failed to encode response for request '" +:+ id +:+
                 "' from '" +:+ PeerID_String peerID +:+ "': " +:+ e))
  | Ok jsonResp =>
      emit (Enqueue {| msgID := id; msgType := rpcResponse; msgPayload := jsonResp |})
  end.

Definition requestHandler (id : string) (peerID : PeerID)
    (request : rpcPayloadRequest) : M V unit :=
  match getRPCHandler (reqType request) with
  | Err e =>
      let* _ := emit (Log ("Failed to process request '" +:+ id +:+ "' from '" +:+
                           PeerID_String peerID +:+ "': " +:+ e)) in
      sendResponse id peerID {| respError := e; respData := [] |}
  | Ok handler =>
      let data := reflectNew (RequestStruct handler) in
      match UnmarshalInto (reqData request) data with
      | Err e =>
          sendResponse id peerID
            {| respError := "failed to decode data struct: " +:+ e; respData := [] |}
      | Ok data =>
          let* _ := emit (Invoke (reqType request) peerID data) in
          let* returned := invoke (Func handler peerID data) in
          let '(handlerResponse, err) := returned in
          let* encoded :=
            match err with
            | Some e =>
                let* _ := emit (Log ("Failed to process request '" +:+ id +:+
                                     "' from '" +:+ PeerID_String peerID +:+
                                     "': " +:+ e)) in
                ret ([], Some e)
            | None =>
                match MarshalAny handlerResponse with
                | Err e =>
                    let* _ := emit (Log ("Failed to encode response for request '"
                                         +:+ id +:+ "' from '" +:+
                                         PeerID_String peerID +:+ "': " +:+ e)) in
                    ret ([], Some e)
                | Ok j => ret (j, None)
                end
            end in
          let '(jsonHandlerResponse, err) := encoded in
          sendResponse id peerID
            match err with
            | Some e => {| respError := "Internal error: " +:+ e; respData := [] |}
            | None => {| respError := ""; respData := jsonHandlerResponse |}
            end
      end
  end.

(** The closure [msgProcessor] of [rpcMsgReader], run in a goroutine
    of its own for every frame; [peer] is [s.Conn().RemotePeer()]. *)
Definition msgProcessor (peer : PeerID) (msgBytes : bytes) : list (action V) :=
  recovering
    (λ r, "Exception whie processing incoming p2p RPC msg from '" +:+
          PeerID_String peer +:+ "': " +:+ r)
    match Unmarshal msgBytes with
    | Err e =>
        emit (Log ("Failed to decode RPC message from '" +:+
                   PeerID_String peer +:+ "': " +:+ e))
    | Ok msg =>
        if decide (msgType msg = rpcRequest) then
          match Unmarshal (msgPayload msg) with
          | Err e =>
              emit (Log ("Failed to decode request from '" +:+
                         PeerID_String peer +:+ "': " +:+ e))
          | Ok reqMsg => requestHandler (msgID msg) peer reqMsg
          end
        else if decide (msgType msg = rpcResponse) then
          match Unmarshal (msgPayload msg) with
          | Err e =>
              emit (Log ("Failed to decode response from '" +:+
                         PeerID_String peer +:+ "': " +:+ e))
          | Ok respMsg => emit (Respond (msgID msg) peer respMsg)
          end
        else
          emit (Log ("Wrong RPC message type from '" +:+ PeerID_String peer +:+
                     "': '" +:+ msgType msg +:+ "'"))
    end.

(** [rpcMsgReader] over the bytes of the stream: what each of the
    goroutines it starts does, in the order of the frames. *)
Definition rpcMsgReader (peer : PeerID) (s : list byte) : list (list (action V)) :=
  msgProcessor peer <$> Framer.dispatched s.

(** [rpcMsgWriter] over the messages taken from the write queue: the
    bytes it hands to [s.Write] (the stream takes them) and the lines
    it logs. *)
Fixpoint rpcMsgWriter (peer : PeerID) (queue : list rpcMsg) : list byte * list (action V) :=
  match queue with
  | [] => ([], [])
  | msg :: queue' =>
      let '(out, logs) := rpcMsgWriter peer queue' in
      match Marshal msg with
      | Err e =>
          (out, Log ("Failed to encode msg '" +:+ msgID msg +:+ "'(" +:+
                     msgType msg +:+ ") for '" +:+ PeerID_String peer +:+
                     "': " +:+ e) :: logs)
      | Ok jsonMsg => ((jsonMsg ++ [newline]) ++ out, logs)
      end
  end.

(** [sendRequest] up to the creation of the tracker: the message to
    send, or the error of an early return. *)
Definition sendRequest_encode (id : string) (peerID : PeerID) (msgType : string)
    (requestData : V) : result rpcMsg :=
  match MarshalAny requestData with
  | Err e =>
      Err ("failed to encode data for request '" +:+ id +:+ "' for peer '" +:+
           PeerID_String peerID +:+ "': " +:+ e)
  | Ok jsonReqData =>
      match Marshal {| reqType := msgType; reqData := jsonReqData |} with
      | Err e =>
          Err ("failed to encode request '" +:+ id +:+ "' for peer '" +:+
               PeerID_String peerID +:+ "': " +:+ e)
      | Ok jsonReq =>
          Ok {| msgID := id; msgType := rpcRequest; msgPayload := jsonReq |}
      end
  end.

(** What [sendRequest] returns, and what [responseData] points to
    then (left as it was when the decoding fails). *)
Definition sendRequest_return (r : Tracker.returned) (responseData : V)
    : option error * V :=
  match r with
  | Tracker.Early e => (Some e, responseData)
  | Tracker.Late (Tracker.FromErr e) => (e, responseData)
  | Tracker.Late (Tracker.FromResp resp) =>
      match UnmarshalInto resp responseData with
      | Err e => (Some ("failed to decode response payload: " +:+ e), responseData)
      | Ok v => (None, v)
      end
  end.

(** The goroutine the pubsub loop starts for a message it accepts. *)
Definition pubsubDispatch (msg : Message) : list (action V) :=
  let peerID := PeerID_String (ReceivedFrom msg) in
  recovering
    (λ r, "Exception whie processing incoming p2p message from peer '" +:+
          peerID +:+ "': " +:+ r)
    match Unmarshal (Data msg) with
    | Err e =>
        emit (Log ("Failed to decode pub sub message from '" +:+ peerID +:+
                   "': " +:+ e))
    | Ok pubsubMsg =>
        match getPubSubHandler (psType pubsubMsg) with
        | Err e =>
            emit (Log ("Failed to process message from '" +:+ peerID +:+
                       "': " +:+ e))
        | Ok handler =>
            let payload := reflectNew (PayloadStruct handler) in
            match UnmarshalInto (psPayload pubsubMsg) payload with
            | Err e =>
                emit (Log ("Failed to process message from '" +:+ peerID +:+
                           "': " +:+ e))
            | Ok payload =>
                let* _ := emit (Invoke (psType pubsubMsg) (ReceivedFrom msg) payload) in
                let* err := invoke (psFunc handler (ReceivedFrom msg) payload) in
                match err with
                | Some e =>
                    emit (Log ("Failed calling pubsub handler for message '" +:+
                               psType pubsubMsg +:+ "' from '" +:+ peerID +:+
                               "': " +:+ e))
                | None => ret tt
                end
            end
        end
    end.

(** The loop of [pubsubMsgProcessor] over the messages
    [subscription.Next] returns before the context is cancelled:
    for each, what the goroutine started for it does; none is
    started for a message received from the host itself. *)
Definition pubsubMsgProcessor (msgs : list Message) : list (list (action V)) :=
  (λ msg, if decide (ReceivedFrom msg = hostID) then [] else pubsubDispatch msg)
    <$> msgs.

End Manager.

End P2P.

(** ** The per-peer message processors ([newRPCStreamHandler],
    [closeConnectionHandler]) *)

Module Workers.

(** [network.Stream]: the peer at its other end, and which stream it is. *)
Record Stream := { RemotePeer : PeerID; streamNo : nat }.

(** [type rpcMsgProcessor struct { WriteQueue; Stop }]: the channel,
    and the context [Stop] cancels, each named by the number it was
    made under. *)
Record rpcMsgProcessor := { WriteQueue : nat; Stop : nat }.

(** The two goroutines of a worker. *)
Inductive task :=
| rpcMsgReader (s : Stream) (writeQueue ctx : nat)
| rpcMsgWriter (s : Stream) (writeQueue ctx : nat).

Record state := {
  rpcMsgProcessors : gmap string rpcMsgProcessor;
  started : list task;        (* every goroutine started, in order *)
  cancelled : gset nat;       (* the contexts cancelled so far *)
  made : nat;                 (* channels and contexts made so far *)
  closing : list (string * rpcMsgProcessor);
                              (* the close handlers that stand between their
                                 [Pop] and their [Stop]: the key and the
                                 processor each has popped *)
}.

(** [cmap.ConcurrentMap.SetIfAbsent], one atomic operation. *)
Definition SetIfAbsent (key : string) (value : rpcMsgProcessor)
    (m : gmap string rpcMsgProcessor) : bool * gmap string rpcMsgProcessor :=
  match m !! key with
  | Some _ => (false, m)
  | None => (true, <[key := value]> m)
  end.

(** [cmap.ConcurrentMap.Pop], one atomic operation. *)
Definition Pop (key : string) (m : gmap string rpcMsgProcessor)
    : option rpcMsgProcessor * gmap string rpcMsgProcessor :=
  (m !! key, delete key m).

(** [newRPCStreamHandler] after its [Get] found nothing: make the
    queue and the context, insert if absent, start the two goroutines
    if the insertion took place. Another goroutine may have inserted
    in between. *)
Definition insertWorker (s : Stream) (st : state) : state :=
  let writeQueue := made st in
  let ctx := S (made st) in
  let '(inserted, m) :=
    SetIfAbsent (PeerID_String (RemotePeer s))
      {| WriteQueue := writeQueue; Stop := ctx |} (rpcMsgProcessors st) in
  {| rpcMsgProcessors := m;
     started := started st ++
       (if inserted then [rpcMsgReader s writeQueue ctx; rpcMsgWriter s writeQueue ctx]
        else []);
     cancelled := cancelled st;
     made := S (S (made st));
     closing := closing st |}.

(** [newRPCStreamHandler] with no other handler between its [Get] and
    its [SetIfAbsent]. *)
Definition newRPCStreamHandler (s : Stream) (st : state) : state :=
  match rpcMsgProcessors st !! PeerID_String (RemotePeer s) with
  | Some _ => st
  | None => insertWorker s st
  end.

(** [closeConnectionHandler] for a connection to [peer], up to its
    send on [peerListChan]: the [Pop]. A handler that has found a
    processor then waits for its send to go through, the processor in
    its hands and not yet stopped. *)
Definition closeConnectionHandler_Pop (peer : PeerID) (st : state) : state :=
  match Pop (PeerID_String peer) (rpcMsgProcessors st) with
  | (Some msgProcessor, m) =>
      {| rpcMsgProcessors := m; started := started st;
         cancelled := cancelled st; made := made st;
         closing := closing st ++ [(PeerID_String peer, msgProcessor)] |}
  | (None, _) => st
  end.

(** The rest of [closeConnectionHandler] for the [i]-th of the
    handlers that wait: its send on [peerListChan] has gone through,
    [msgProcessor.Stop()]. *)
Definition closeConnectionHandler_Stop (i : nat) (st : state) : state :=
  match closing st !! i with
  | Some (_, msgProcessor) =>
      {| rpcMsgProcessors := rpcMsgProcessors st; started := started st;
         cancelled := {[Stop msgProcessor]} ∪ cancelled st; made := made st;
         closing := delete i (closing st) |}
  | None => st
  end.

(** [closeConnectionHandler] run from its [Pop] to its [Stop] with no
    other handler in between: the handler that waits last is the one
    that has just popped. *)
Definition closeConnectionHandler (peer : PeerID) (st : state) : state :=
  closeConnectionHandler_Stop (length (closing st)) (closeConnectionHandler_Pop peer st).

(** [NewManager]: [rpcMsgProcessors: cmap.New()]. *)
Definition NewManager : state :=
  {| rpcMsgProcessors := ∅; started := []; cancelled := ∅; made := 0; closing := [] |}.

(** What happens to the manager, one atomic part of a handler at a
    time: a stream handler that runs from its [Get] to its
    [SetIfAbsent]; the [SetIfAbsent] and what follows of a stream
    handler whose [Get] found nothing before other handlers ran; a
    close handler up to its send on [peerListChan]; the send of the
    [i]-th close handler that waits going through, and its [Stop]. *)
Inductive event :=
| StreamOpened (s : Stream)
| StreamInserted (s : Stream)
| Disconnected (peer : PeerID)
| PeersSent (i : nat).

Definition handle (st : state) (e : event) : state :=
  match e with
  | StreamOpened s => newRPCStreamHandler s st
  | StreamInserted s => insertWorker s st
  | Disconnected peer => closeConnectionHandler_Pop peer st
  | PeersSent i => closeConnectionHandler_Stop i st
  end.

(** The context a goroutine selects on, and the peer it serves. *)
Definition taskCtx (t : task) : nat :=
  match t with rpcMsgReader _ _ ctx | rpcMsgWriter _ _ ctx => ctx end.
Definition taskPeer (t : task) : PeerID :=
  match t with rpcMsgReader s _ _ | rpcMsgWriter s _ _ => RemotePeer s end.
Definition isReader (t : task) : bool :=
  match t with rpcMsgReader _ _ _ => true | rpcMsgWriter _ _ _ => false end.

(** The readers of [peer] whose context has not been cancelled. *)
Definition liveReaders (peer : PeerID) (st : state) : list task :=
  filter (λ t, isReader t = true ∧ taskPeer t = peer ∧ taskCtx t ∉ cancelled st)
         (started st).

(** The writers of [peer] whose context has not been cancelled. *)
Definition liveWriters (peer : PeerID) (st : state) : list task :=
  filter (λ t, isReader t = false ∧ taskPeer t = peer ∧ taskCtx t ∉ cancelled st)
         (started st).

(** The processors of [peer] that have not been stopped: the one
    registered, if any, and those in the hands of close handlers that
    wait. *)
Definition waiting (peer : PeerID) (st : state) : list rpcMsgProcessor :=
  snd <$> filter (λ c, c.1 = PeerID_String peer) (closing st).
Definition unstopped (peer : PeerID) (st : state) : list rpcMsgProcessor :=
  option_list (rpcMsgProcessors st !! PeerID_String peer) ++ waiting peer st.

(** What the events keep true: a goroutine whose context is not
    cancelled serves the peer whose processor, registered or in the
    hands of a close handler that waits, holds that context; contexts
    are numbered below [made]; no two readers and no two writers share
    a context. *)
Record inv (st : state) : Prop := {
  inv_live : ∀ t, t ∈ started st → taskCtx t ∉ cancelled st →
             ∃ w, w ∈ unstopped (taskPeer t) st ∧ Stop w = taskCtx t;
  inv_made : ∀ t, t ∈ started st → taskCtx t < made st;
  inv_readers : NoDup (taskCtx <$> filter (λ t, isReader t = true) (started st));
  inv_writers : NoDup (taskCtx <$> filter (λ t, isReader t = false) (started st));
}.

(** Two streams of peer [B]. *)
Definition stream1 : Stream := {| RemotePeer := "B"; streamNo := 1 |}.
Definition stream2 : Stream := {| RemotePeer := "B"; streamNo := 2 |}.

(** A stream of [B], the connection closed, a second stream of [B]
    handled while the close handler waits for its send. *)
Definition reopened : list event :=
  [StreamOpened stream1; Disconnected "B"; StreamOpened stream2].

End Workers.

(** ** Two peers and one RPC between them *)

Module Network.
Import P2P.

Section Exchange.
Context {V : Type} `{GoValue V}.
Context `{JSON rpcMsg, JSON rpcPayloadRequest, JSON rpcPayloadResponse}.

(** Peer [A] calls [sendRequest] for peer [B]; each runs a worker
    for the other on the one stream between them. *)
Variables (A B : PeerID).
Variables (handlersA handlersB : gmap string (rpcHandler V)).

(** The messages a goroutine sent on the write queue. *)
Definition enqueued (acts : list (action V)) : list rpcMsg :=
  omap (λ a, match a with Enqueue m => Some m | _ => None end) acts.

(** The responses a goroutine passed to [responseHandler] for [id]. *)
Definition responded (id : string) (acts : list (action V))
    : list (PeerID * rpcPayloadResponse) :=
  omap (λ a, match a with
             | Respond id' peer r => if decide (id' = id) then Some (peer, r) else None
             | _ => None
             end) acts.

(** The schedule of an answer in time: [sendRequest] runs up to its
    [select], [responseHandler] runs to its end, [sendRequest]
    returns; the timer sleeps throughout. *)
Definition inTime : list Tracker.label :=
  [Tracker.Caller; Tracker.Caller; Tracker.Caller; Tracker.Caller;
   Tracker.Responder; Tracker.Responder; Tracker.Responder; Tracker.Responder;
   Tracker.Responder; Tracker.Responder; Tracker.Caller].

(** The way back: what [B]'s goroutines did, [atB], goes through [B]'s
    writer and [A]'s reader to [responseHandler], which finds
    [sendRequest] at its [select]. [None] when no response comes back. *)
Definition replyPath (enc : result rpcMsg) (atB : list (action V))
    (id method : string) (y : V) : option (option error * V) :=
  let toA := (rpcMsgWriter (V := V) A (enqueued atB)).1 in
  let atA := concat (rpcMsgReader handlersA B toA) in
  match responded id atA with
  | [] => None
  | (peer, r) :: _ =>
      let q := {| Tracker.id := id; Tracker.peerID := B; Tracker.method := method;
                  Tracker.encoded := enc; Tracker.tracker := 0;
                  Tracker.response := r; Tracker.responder := peer |} in
      match Tracker.run q inTime (Tracker.init 0 ∅ (Some [])) with
      | Some s =>
          match Tracker.cpc s with
          | Tracker.CReturned r => Some (sendRequest_return r y)
          | _ => None
          end
      | None => None
      end
  end.

(** [A]'s [sendRequest(B, method, x, y)] with the id it minted,
    followed through [A]'s writer and [B]'s reader to the handler, and
    back: what it returns and what [y] holds then. *)
Definition exchange (id method : string) (x y : V) : option (option error * V) :=
  let enc := sendRequest_encode id B method x in
  let toB := match enc with
             | Ok msg => (rpcMsgWriter (V := V) B [msg]).1
             | Err _ => []
             end in
  replyPath enc (concat (rpcMsgReader handlersB A toB)) id method y.

(** What the theorem on [exchange] asks of [encoding/json], for the id
    and the method of the call: a request or a successful response
    whose data was encoded by [json.Marshal] decodes to itself; an
    error response decodes to an error response; and the encoding of an
    envelope that carries such a payload holds no newline and, the
    delimiter appended, decodes to the envelope. *)
Record CodecLaws (id method : string) : Prop := {
  request_round_trip : ∀ (v : V) data b,
    MarshalAny v = Ok data →
    Marshal {| reqType := method; reqData := data |} = Ok b →
    Unmarshal b = Ok {| reqType := method; reqData := data |};
  response_round_trip : ∀ (v : V) data b,
    MarshalAny v = Ok data →
    Marshal {| respError := ""; respData := data |} = Ok b →
    Unmarshal b = Ok {| respError := ""; respData := data |};
  failure_round_trip : ∀ e b,
    e ≠ "" →
    Marshal {| respError := e; respData := [] |} = Ok b →
    ∃ r : rpcPayloadResponse, Unmarshal b = Ok r ∧ respError r ≠ "";
  request_frame : ∀ (r : rpcPayloadRequest) p b,
    Marshal r = Ok p →
    Marshal {| msgID := id; msgType := rpcRequest; msgPayload := p |} = Ok b →
    (newline ∉ b) ∧
    (Unmarshal (b ++ [newline])
     = Ok {| msgID := id; msgType := rpcRequest; msgPayload := p |});
  response_frame : ∀ (r : rpcPayloadResponse) p b,
    Marshal r = Ok p →
    Marshal {| msgID := id; msgType := rpcResponse; msgPayload := p |} = Ok b →
    (newline ∉ b) ∧
    (Unmarshal (b ++ [newline])
     = Ok {| msgID := id; msgType := rpcResponse; msgPayload := p |});
}.

(** What [requestHandler] at [B] can have put on the write queue for
    the request [req] of [A] under [id], its handler being [h]:
    nothing, an error response, or the encoded result of the handler. *)
Inductive replied (id : string) (h : rpcHandler V) (req : rpcPayloadRequest)
    : list rpcMsg → Prop :=
| replied_nothing : replied id h req []
| replied_failure (e : string) (p : bytes) :
    e ≠ "" →
    Marshal {| respError := e; respData := [] |} = Ok p →
    replied id h req [{| msgID := id; msgType := rpcResponse; msgPayload := p |}]
| replied_result (x' r : V) (br p : bytes) :
    UnmarshalInto (reqData req) (reflectNew (RequestStruct h)) = Ok x' →
    Func h A x' = Return (r, None) →
    MarshalAny r = Ok br →
    Marshal {| respError := ""; respData := br |} = Ok p →
    replied id h req [{| msgID := id; msgType := rpcResponse; msgPayload := p |}].

End Exchange.

End Network.

(** ** A line codec and handlers for closed examples *)

Module Plain.
Import P2P.

(** The byte between two fields of a record. *)
Definition sep : byte := x1f.

Definition toBytes (s : string) : bytes := String.list_byte_of_string s.
Definition ofBytes (b : bytes) : string := String.string_of_list_byte b.

(** No byte of [b] is [c]. *)
Definition free (c : byte) (b : bytes) : bool :=
  forallb (λ x, negb (Byte.eqb x c)) b.

Definition clean (s : string) : bool :=
  free sep (toBytes s) && free newline (toBytes s).

(** Cut at the first separator. *)
Fixpoint cut (b : bytes) : option (bytes * bytes) :=
  match b with
  | [] => None
  | x :: b' =>
      if Byte.eqb x sep then Some ([], b')
      else match cut b' with
           | Some (l, r) => Some (x :: l, r)
           | None => None
           end
  end.

(** Drop one newline at the end. *)
Fixpoint chomp (b : bytes) : bytes :=
  match b with
  | [] => []
  | x :: b' =>
      match b' with
      | [] => if Byte.eqb x newline then [] else [x]
      | _ :: _ => x :: chomp b'
      end
  end.

Definition join (a : string) (p : bytes) : result bytes :=
  if clean a && free newline p then Ok (toBytes a ++ sep :: p)
  else Err "plain: field cannot be encoded".

Definition split (b : bytes) : result (string * bytes) :=
  match cut b with
  | Some (l, r) => Ok (ofBytes l, r)
  | None => Err "plain: separator missing"
  end.

Definition join3 (a t : string) (p : bytes) : result bytes :=
  match join t p with
  | Ok inner => join a inner
  | Err e => Err e
  end.

Definition split3 (b : bytes) : result (string * string * bytes) :=
  match split (chomp b) with
  | Ok (a, inner) =>
      match split inner with
      | Ok (t, p) => Ok (a, t, p)
      | Err e => Err e
      end
  | Err e => Err e
  end.

#[export] Instance request_json : JSON rpcPayloadRequest := {|
  Marshal r := join (reqType r) (reqData r);
  Unmarshal b := match split b with
                 | Ok (t, d) => Ok {| reqType := t; reqData := d |}
                 | Err e => Err e
                 end;
|}.

#[export] Instance response_json : JSON rpcPayloadResponse := {|
  Marshal r := join (respError r) (respData r);
  Unmarshal b := match split b with
                 | Ok (e, d) => Ok {| respError := e; respData := d |}
                 | Err e => Err e
                 end;
|}.

#[export] Instance msg_json : JSON rpcMsg := {|
  Marshal m := join3 (msgID m) (msgType m) (msgPayload m);
  Unmarshal b := match split3 b with
                 | Ok (a, t, p) => Ok {| msgID := a; msgType := t; msgPayload := p |}
                 | Err e => Err e
                 end;
|}.

#[export] Instance pubsub_json : JSON pubsubMsg := {|
  Marshal m := join3 (psID m) (psType m) (psPayload m);
  Unmarshal b := match split3 b with
                 | Ok (a, t, p) => Ok {| psID := a; psType := t; psPayload := p |}
                 | Err e => Err e
                 end;
|}.

(** The values of the examples are Go strings, encoded as their bytes. *)
#[export] Instance text_value : GoValue string := {|
  MarshalAny s := if free newline (toBytes s) then Ok (toBytes s)
                  else Err "plain: text cannot be encoded";
  UnmarshalInto b _ := Ok (ofBytes b);
  reflectNew _ := "";
|}.

(** The handler of the first end-to-end scenario. *)
Definition ping : rpcHandler string := {|
  Func _ msg := Return ("Ping: " +:+ msg +:+ "!", None);
  RequestStruct := "";
|}.

(** A handler that fails unexpectedly. *)
Definition faulty : rpcHandler string := {|
  Func _ _ := Panic "runtime error: invalid memory address or nil pointer dereference";
  RequestStruct := "";
|}.

(** A pubsub handler that takes every payload. *)
Definition echo : pubsubHandler string := {|
  psFunc _ _ := Return None;
  PayloadStruct := "";
|}.

Definition handlers : gmap string (rpcHandler string) :=
  <["ping" := ping]> (<["faulty" := faulty]> ∅).

Definition topics : gmap string (pubsubHandler string) := <["echo" := echo]> ∅.

(** The id of the examples, a KSUID. *)
Definition anID : string := "2QnJeDZkWbE3XGIqrW1mbUkZRke".

(** The frame the writer puts on the stream for a request. *)
Definition requestFrame (method arg : string) : bytes :=
  match Marshal {| reqType := method; reqData := toBytes arg |} with
  | Ok p =>
      match Marshal {| msgID := anID; msgType := rpcRequest; msgPayload := p |} with
      | Ok b => b ++ [newline]
      | Err _ => []
      end
  | Err _ => []
  end.

(** [sendRequest(B, ping, hello, &y)] under [anID], and the response
    of [B]'s ping handler on its way back. *)
Definition pingCall : Tracker.request :=
  {| Tracker.id := anID; Tracker.peerID := "B"; Tracker.method := "ping";
     Tracker.encoded := sendRequest_encode anID "B" "ping" "hello";
     Tracker.tracker := 0;
     Tracker.response := {| respError := ""; respData := toBytes "Ping: hello!" |};
     Tracker.responder := "B" |}.

(** The response is handled as the sleep of the timer ends: both
    goroutines pass their check of the latch, then both close it,
    [responseHandler] first. *)
Definition race : list Tracker.label :=
  [Tracker.Caller; Tracker.Caller; Tracker.Caller; Tracker.Caller;
   Tracker.Tick 5000;
   Tracker.Timer;        (* the sleep ends *)
   Tracker.Responder;    (* [reqs.Get]: found *)
   Tracker.Timer;        (* check: the latch is open *)
   Tracker.Responder;    (* check: the latch is open *)
   Tracker.Responder;    (* [close(req.closeSig)] *)
   Tracker.Timer].       (* [close(reqTracker.closeSig)] *)

(** The same, the timer closing first. *)
Definition race' : list Tracker.label :=
  [Tracker.Caller; Tracker.Caller; Tracker.Caller; Tracker.Caller;
   Tracker.Tick 5000;
   Tracker.Timer; Tracker.Responder; Tracker.Timer; Tracker.Responder;
   Tracker.Timer;        (* [close(reqTracker.closeSig)] *)
   Tracker.Responder].   (* [close(req.closeSig)] *)

(** No response within five seconds: the timer runs to its end,
    [sendRequest] returns, then the response is handled. *)
Definition late : list Tracker.label :=
  [Tracker.Caller; Tracker.Caller; Tracker.Caller; Tracker.Caller;
   Tracker.Tick 5000;
   Tracker.Timer; Tracker.Timer; Tracker.Timer; Tracker.Timer;
   Tracker.Caller;
   Tracker.Timer; Tracker.Timer;
   Tracker.Responder].

(** A write queue at its capacity. *)
Definition fullQueue : list rpcMsg :=
  replicate 200 {| msgID := anID; msgType := rpcResponse; msgPayload := [] |}.

(** An echo broadcast as the subscription returns it. *)
Definition broadcast (sender : PeerID) (text : string) : Message :=
  {| ReceivedFrom := sender;
     Data := match Marshal {| psID := anID; psType := "echo";
                              psPayload := toBytes text |} with
             | Ok b => b
             | Err _ => []
             end |}.

End Plain.

(** ** The handler tables ([addRPCHandler], [addPubSubHandler]) *)

Module Registry.
Import P2P.

Section Tables.
Context {V : Type}.

(** [p2p.rpcHandlers[methodName] = handler] *)
Definition addRPCHandler (methodName : string) (handler : rpcHandler V)
    (rpcHandlers : gmap string (rpcHandler V)) : gmap string (rpcHandler V) :=
  <[methodName := handler]> rpcHandlers.

(** [p2p.pubsubHandlers[msgType] = handler] *)
Definition addPubSubHandler (kind : string) (handler : pubsubHandler V)
    (pubsubHandlers : gmap string (pubsubHandler V)) : gmap string (pubsubHandler V) :=
  <[kind := handler]> pubsubHandlers.

End Tables.

End Registry.

(** ** [BroadcastMsg] *)

Module Broadcast.
Import P2P.

Section Publish.
Context {V : Type} `{GoValue V} `{JSON pubsubMsg}.

(** [p2p.topic.Publish(context.Background(), msgBytes)], the host's
    pubsub: the error it returns, nil or not. *)
Variable Publish : bytes → option error.

(** [BroadcastMsg(msgType, data)] with the id [ksuid.New().String()]
    gave it: the byte strings handed to [Publish], and the error
    returned. *)
Definition BroadcastMsg (id kind : string) (data : V) : list bytes * option error :=
  match MarshalAny data with
  | Err e => ([], Some e)
  | Ok dataBytes =>
      match Marshal {| psID := id; psType := kind; psPayload := dataBytes |} with
      | Err e => ([], Some e)
      | Ok msgBytes => ([msgBytes], Publish msgBytes)
      end
  end.

End Publish.

End Broadcast.

(** ** [createClientForPeer] *)

Module Client.

(** [type rpcClient struct { peer; p2p }], of which the model keeps the
    peer. *)
Record rpcClient := { peer : PeerID }.

(** How the loop of [createClientForPeer] is left. *)
Inductive exit :=
| Break                     (* a ping returned no error *)
| ReturnErr (e : error)     (* [return nil, err] *)
| Panics (r : string).      (* a ping panicked *)

(** What [createClientForPeer] returns, the number of calls of
    [client.Ping] it made and the milliseconds it slept. *)
Record built := {
  client : option rpcClient;
  err : option error;
  pings : nat;
  slept : N;
}.

(** How a call of [client.Ping] leaves the loop when it is the last. *)
Definition leaves (c : call (option error)) : exit :=
  match c with
  | Panic r => Panics r
  | Return None => Break
  | Return (Some e) => ReturnErr e
  end.

(** The number of retries, the [19] of [tries < 19]. *)
Definition retries : nat := 19.

(** The pause between two attempts, [200 * time.Millisecond]. *)
Definition pause : N := 200.

Section Build.

(** [client.Ping()], whose code is in another file: what its call
    number [k] (counted from 0) does, the error it returns, nil or
    not, or the panic that leaves it. *)
Variable Ping : nat → call (option error).

(** The [for] loop, [tries] being the local variable: how it is left
    and the value of [tries] then. The first [tries] calls failed, and
    the call in progress is call number [tries]. *)
Fixpoint pingLoop (fuel tries : nat) : option (exit * nat) :=
  match fuel with
  | O => None
  | S fuel' =>
      match Ping tries with
      | Panic r => Some (Panics r, tries)
      | Return None => Some (Break, tries)
      | Return (Some e) =>
          if tries <? retries then pingLoop fuel' (S tries)
          else Some (ReturnErr e, tries)
      end
  end.

(** The deferred function: the error a recovered panic is turned
    into. *)
Definition recovered (r : string) : error :=
  let err := "exception whie building p2p client: " +:+ r in
  if Contains err "timeout waiting for request"
  then "timeout waiting for p2p client"
  else err.

(** [createClientForPeer(peerID)]. The named result [client] is set
    before the loop, so that it is what a recovered panic returns; the
    sleeps are one after each failed attempt but the last. [None] is
    for a loop that outlasts the fuel. *)
Definition createClientForPeer (peerID : PeerID) : option built :=
  match pingLoop (S retries) 0 with
  | None => None
  | Some (Break, tries) =>
      Some {| client := Some {| peer := peerID |}; err := None;
              pings := S tries; slept := pause * N.of_nat tries |}
  | Some (ReturnErr e, tries) =>
      Some {| client := None; err := Some e;
              pings := S tries; slept := pause * N.of_nat tries |}
  | Some (Panics r, tries) =>
      Some {| client := Some {| peer := peerID |}; err := Some (recovered r);
              pings := S tries; slept := pause * N.of_nat tries |}
  end.

End Build.

(** A peer that answers from its call number [k] on and fails with
    [e] before. *)
Definition readyAt (k : nat) (e : error) (n : nat) : call (option error) :=
  if n <? k then Return (Some e) else Return None.

(** A peer whose ping panics at call number [k], with the error
    [sendRequest] returns on a timeout, and fails with [e] before. *)
Definition timesOutAt (k : nat) (e : error) (n : nat) : call (option error) :=
  if n <? k then Return (Some e)
  else Panic "timeout waiting for request 'x'(ping) to peer 'B'".

End Client.

(** ** A worker is a reader and a writer on one stream *)

Module Pairs.
Import Workers.

(** What the events keep true besides [inv]: the processor of a peer
    holds a context that is not cancelled, and its reader and its
    writer were started on one stream of that peer with the
    processor's queue and context; no processor in the hands of a
    close handler shares its context with a registered one; contexts
    in use or cancelled are numbered below [made]. *)
Record paired (st : state) : Prop := {
  pair_tasks : ∀ key w, rpcMsgProcessors st !! key = Some w →
               (Stop w ∉ cancelled st) ∧
               ∃ s, PeerID_String (RemotePeer s) = key ∧
                    rpcMsgReader s (WriteQueue w) (Stop w) ∈ started st ∧
                    rpcMsgWriter s (WriteQueue w) (Stop w) ∈ started st;
  pair_made : ∀ key w, rpcMsgProcessors st !! key = Some w → Stop w < made st;
  pair_cancelled : ∀ c, c ∈ cancelled st → c < made st;
  pair_closing : ∀ c, c ∈ closing st → Stop c.2 < made st;
  pair_apart : ∀ key w c, rpcMsgProcessors st !! key = Some w → c ∈ closing st →
               Stop w ≠ Stop c.2;
}.

(** The state the manager is in after the events. *)
Definition after (events : list event) : state := foldl handle NewManager events.

(** No close handler of [peer] waits for its send. *)
Definition settled (peer : PeerID) (st : state) : Prop := waiting peer st = [].

End Pairs.

(** ** What a dispatching goroutine did, by kind *)

Module Trace.
Import P2P.

Section Kinds.
Context {V : Type}.

(** The handlers a goroutine entered: name, peer and argument. *)
Definition invoked (acts : list (action V)) : list (string * PeerID * V) :=
  omap (λ a, match a with Invoke name peer arg => Some (name, peer, arg) | _ => None end)
       acts.

(** The error lines it logged. *)
Definition logged (acts : list (action V)) : list string :=
  omap (λ a, match a with Log text => Some text | _ => None end) acts.

(** The responses it passed to [responseHandler], under any id. *)
Definition answers (acts : list (action V)) : list (string * PeerID * rpcPayloadResponse) :=
  omap (λ a, match a with Respond id peer r => Some (id, peer, r) | _ => None end) acts.

End Kinds.

End Trace.

(** ** More handlers for closed examples *)

Module Samples.
Import P2P Plain.

(** A handler that refuses every request. *)
Definition refusing : rpcHandler string := {|
  Func _ _ := Return ("", Some "not allowed");
  RequestStruct := "";
|}.

(** A handler that answers every request with the empty value. *)
Definition blank : rpcHandler string := {|
  Func _ _ := Return ("", None);
  RequestStruct := "";
|}.

(** The table of [Plain] with [refusing] added under [refuse] and
    [blank] under [blank]. *)
Definition handlers' : gmap string (rpcHandler string) :=
  Registry.addRPCHandler "blank" blank
    (Registry.addRPCHandler "refuse" refusing handlers).

(** The schedule [late] up to the return of [sendRequest]: no response
    is handled. *)
Definition unanswered : list Tracker.label :=
  [Tracker.Caller; Tracker.Caller; Tracker.Caller; Tracker.Caller;
   Tracker.Tick 5000;
   Tracker.Timer; Tracker.Timer; Tracker.Timer; Tracker.Timer;
   Tracker.Caller].

(** Values as in [Plain], with a decoder that refuses an empty input,
    as [json.Unmarshal] does. *)
Definition strict : GoValue string := {|
  MarshalAny := MarshalAny (GoValue := text_value);
  UnmarshalInto b _ :=
    match b with
    | [] => Err "unexpected end of JSON input"
    | _ :: _ => Ok (ofBytes b)
    end;
  reflectNew _ := "";
|}.

(** A request value the line codec cannot encode: it holds a newline. *)
Definition twoLines : string := String (Ascii.ascii_of_byte newline) EmptyString.

(** [sendRequest(B, ping, twoLines, &y)] under [anID]. *)
Definition badCall : Tracker.request :=
  {| Tracker.id := anID; Tracker.peerID := "B"; Tracker.method := "ping";
     Tracker.encoded := sendRequest_encode anID "B" "ping" twoLines;
     Tracker.tracker := 0;
     Tracker.response := {| respError := ""; respData := [] |};
     Tracker.responder := "B" |}.

(** A queue of two messages of which the first cannot be encoded by
    the line codec: its id holds a newline. *)
Definition mixedQueue : list rpcMsg :=
  [ {| msgID := String (Ascii.ascii_of_byte newline) EmptyString; msgType := rpcResponse;
       msgPayload := [] |};
    {| msgID := anID; msgType := rpcResponse; msgPayload := toBytes "ok" |} ].

End Samples.

(** ** [peerDiscoveryProcessor] *)

Module Discovery.
Import Workers.

(** [peer.AddrInfo], of which the processor reads the id. *)
Record AddrInfo := { ID : PeerID }.

(** The state of the loop: the workers, the number of peer lists sent
    on [peerListChan] (a send is taken to go through), and the error
    lines logged. *)
Record loop := { workers : state; sent : nat; logs : list string }.

Section Host.
(** The host, at the [n]-th peer the loop receives: [p2p.host.Connect]
    and [p2p.host.NewStream]. *)
Variable Connect : nat → AddrInfo → option error.
Variable NewStream : nat → PeerID → result Stream.

(** The [case peer := <-p2p.PeerChan] of the [select]. *)
Definition found (n : nat) (peer : AddrInfo) (l : loop) : loop :=
  match Connect n peer with
  | Some e =>
      {| workers := workers l; sent := sent l;
         logs := logs l ++ ["Connection failed: " +:+ e] |}
  | None =>
      match NewStream n (ID peer) with
      | Err e =>
          {| workers := workers l; sent := sent l;
             logs := logs l ++ ["Stream open failed: " +:+ e] |}
      | Ok stream =>
          {| workers := newRPCStreamHandler stream (workers l); sent := S (sent l);
             logs := logs l |}
      end
  end.

(** The loop over the peers received on [PeerChan] before the stop
    signal, [n] peers having been received before them. *)
Fixpoint peerDiscoveryProcessor (n : nat) (peers : list AddrInfo) (l : loop) : loop :=
  match peers with
  | [] => l
  | peer :: rest => peerDiscoveryProcessor (S n) rest (found n peer l)
  end.

End Host.

(** A host for closed examples: the peer [C] cannot be reached, a
    stream to any other peer opens. *)
Definition plainConnect (n : nat) (peer : AddrInfo) : option error :=
  if decide (ID peer = "C") then Some "dial backoff" else None.
Definition plainNewStream (n : nat) (p : PeerID) : result Stream :=
  Ok {| RemotePeer := p; streamNo := n |}.

End Discovery.

(** ** Go's pair of a response and an error *)

Module Outcomes.
Import Server.

(** The method returned, and exactly one of the response and the
    error is nil. *)
Definition oneOf {A : Type} (o : outcome A) : Prop :=
  match o with
  | Returns resp err => is_Some resp ↔ err = None
  | Panics => False
  end.

End Outcomes.

(** ** The send on the write queue *)

Module Sent.
Import Tracker.

(** The caller is past its send on the write queue. *)
Definition cEnqueued (p : callerPC) : bool :=
  match p with
  | CSpawn | CSelect | CDefer _ | CReturned (Late _) => true
  | _ => false
  end.

(** What has been put on a write queue that held [queue] when
    [sendRequest] was called with a request encoded as [msg]. *)
Definition offered (queue : list rpcMsg) (msg : rpcMsg) (p : callerPC) : list rpcMsg :=
  if cEnqueued p then queue ++ [msg] else queue.

End Sent.

(** * Properties *)

Lemma Contains_prefix (s sub : string) :
  String.prefix sub s = true → Contains s sub = true.
Proof. intros Hp. destruct s; simpl in *; rewrite Hp; reflexivity. Qed.

Lemma prefix_append (p s : string) : String.prefix p (p +:+ s) = true.
Proof.
  induction p as [|a p IH]; simpl.
  - destruct s; reflexivity.
  - destruct (Ascii.ascii_dec a a) as [_|Hne]; [exact IH|congruence].
Qed.

(** ** The gRPC server *)

Module ServerFacts.
Import Server.

Section Ping.
Context {Ctx D : Type} (RemotePeerFromContext : Ctx → option PeerID).
Implicit Types (s : Server D) (ctx : Ctx) (req : PingRequest) (w : world D).

(** C9, as amended: for every ping request carrying message [msg]
    whose context carries a remote-peer identity, [Ping] returns the
    reply ["Ping: " + msg + "!"] and no error. *)
Theorem Ping_reply s ctx req w (p : PeerID) :
  RemotePeerFromContext ctx = Some p →
  Ping RemotePeerFromContext s ctx req w
  = (Returns (Some {| Pong := "Ping: " +:+ Ping_ req +:+ "!" |}) None, w).
Proof. intros Hp. unfold Ping. rewrite Hp. reflexivity. Qed.

(** C10: without a remote-peer identity in the context [Ping]
    returns a nil response and the error "no AuthInfo in context";
    a response is returned only when the identity is present; and in
    either case the DB is left alone: the store and the log of DB
    calls are as before, and the [DB] field, nil or not, has no part
    in the result. *)
Theorem Ping_needs_identity s ctx req w :
  (RemotePeerFromContext ctx = None →
     (Ping RemotePeerFromContext s ctx req w).1
     = Returns None (Some "no AuthInfo in context"))
  ∧ (∀ res e, (Ping RemotePeerFromContext s ctx req w).1 = Returns (Some res) e →
       is_Some (RemotePeerFromContext ctx))
  ∧ (Ping RemotePeerFromContext s ctx req w).2 = w
  ∧ (∀ s', Ping RemotePeerFromContext s' ctx req w
           = Ping RemotePeerFromContext s ctx req w).
Proof.
  unfold Ping. destruct (RemotePeerFromContext ctx) as [p|] eqn:Hp; simpl.
  - repeat split; [discriminate | eauto].
  - repeat split; [discriminate].
Qed.
End Ping.

(** C9 at the request of the first end-to-end scenario. *)
Lemma Ping_reply_hello :
  Ping plainRemotePeer {| DB := Some cellDB |} (Some "peerA") {| Ping_ := "hello" |} quiet
  = (Returns (Some {| Pong := "Ping: hello!" |}) None, quiet).
Proof.
  exact (Ping_reply plainRemotePeer {| DB := Some cellDB |} (Some "peerA")
           {| Ping_ := "hello" |} quiet "peerA" eq_refl).
Defined.

(** C9 as the specification words it fails: a request whose context
    carries no identity gets an error and no reply. *)
Lemma Ping_reply_not_for_every_request :
  ¬ (∀ (ctx : plainCtx) (req : PingRequest),
       Ping plainRemotePeer {| DB := Some cellDB |} ctx req quiet
       = (Returns (Some {| Pong := "Ping: " +:+ Ping_ req +:+ "!" |}) None, quiet)).
Proof. intros Hall. specialize (Hall None {| Ping_ := "hello" |}). discriminate Hall. Qed.

(** C10 at a request without identity, on a server whose DB is nil. *)
Lemma Ping_needs_identity_hello :
  (Ping plainRemotePeer {| DB := None |} None {| Ping_ := "hello" |} quiet).1
  = Returns None (Some "no AuthInfo in context").
Proof.
  exact (proj1 (Ping_needs_identity plainRemotePeer {| DB := None |} None
                  {| Ping_ := "hello" |} quiet) eq_refl).
Defined.

(** The other methods do reach the DB: [ExecSQL] logs a call. *)
Example ExecSQL_calls_DB :
  calls (ExecSQL (Ctx := plainCtx) {| DB := Some cellDB |} None
           {| Statement := "insert"; Msg := "m" |} quiet).2
  = [ExecAndCommit "insert" "m"].
Proof. reflexivity. Qed.

End ServerFacts.

(** ** The framer *)

Module FramerFacts.
Import Framer.

Lemma byte_eqb_eq (a b : byte) : Byte.eqb a b = true ↔ a = b.
Proof.
  split.
  - apply Byte.byte_dec_bl.
  - apply Byte.byte_dec_lb.
Qed.

Lemma ReadBytes_spec (d : byte) (r bs rest : list byte) (e : bool) :
  ReadBytes d r = (bs, e, rest) →
  r = bs ++ rest ∧
  (e = false → (∃ c, bs = c ++ [d] ∧ d ∉ c) ∧ length rest < length r) ∧
  (e = true → rest = [] ∧ d ∉ bs).
Proof.
  revert bs rest e. induction r as [|b r IH]; intros bs rest e; simpl.
  - intros [= <- <- <-]. repeat split; try discriminate. apply not_elem_of_nil.
  - destruct (Byte.eqb b d) eqn:Hbd.
    + intros [= <- <- <-]. apply byte_eqb_eq in Hbd as ->.
      repeat split; try discriminate; [|simpl; lia].
      exists []. split; [reflexivity | apply not_elem_of_nil].
    + destruct (ReadBytes d r) as [[bs' e'] rest'] eqn:Hr.
      intros [= <- <- <-]. destruct (IH _ _ _ eq_refl) as (-> & Hf & Ht).
      assert (b ≠ d) as Hne.
      { intros ->. rewrite (proj2 (byte_eqb_eq d d) eq_refl) in Hbd. discriminate. }
      repeat split.
      * destruct (Hf H) as [(c & -> & Hc) _]. exists (b :: c). split; [reflexivity|].
        rewrite not_elem_of_cons. split; [congruence | assumption].
      * destruct (Hf H) as [_ Hlen]. simpl. lia.
      * apply Ht, H.
      * rewrite not_elem_of_cons. split; [congruence | apply Ht, H].
Qed.

Lemma readLoop_framing (fuel : nat) (r : list byte) :
  length r < fuel → framing (readLoop fuel r) r.
Proof.
  revert r. induction fuel as [|fuel IH]; intros r Hlen; [lia|].
  simpl. destruct (ReadBytes newline r) as [[bs e] rest] eqn:Hr.
  destruct (ReadBytes_spec _ _ _ _ _ Hr) as (-> & Hf & Ht).
  destruct e.
  - destruct (Ht eq_refl) as [-> Hnl]. rewrite !app_nil_r.
    destruct bs as [|b bs]; simpl.
    + split; [reflexivity|]. exists [], []. repeat split; [constructor | by left].
    + split; [simpl; by rewrite app_nil_r|]. exists [], [b :: bs].
      repeat split; [constructor|]. right. exists (b :: bs). repeat split; done.
  - destruct (Hf eq_refl) as [(c & -> & Hc) Hlt].
    rewrite length_app in Hlen, Hlt. rewrite length_app. simpl in *.
    replace (length c + 1 =? 0) with false by (symmetry; apply Nat.eqb_neq; lia).
    destruct (IH rest ltac:(lia)) as (Hcat & whole & tail & Heq & Hwhole & Htail).
    split; [simpl; by rewrite Hcat|].
    exists ((c ++ [newline]) :: whole), tail. rewrite Heq. repeat split; [|done].
    constructor; [|done]. by exists c.
Qed.

(** Fuel beyond the length of the stream changes nothing. *)
Lemma readLoop_enough (n m : nat) (r : list byte) :
  length r < n → length r < m → readLoop n r = readLoop m r.
Proof.
  revert m r. induction n as [|n IH]; intros m r Hn Hm; [lia|].
  destruct m as [|m]; [lia|]. simpl.
  destruct (ReadBytes newline r) as [[bs e] rest] eqn:Hr.
  destruct (ReadBytes_spec _ _ _ _ _ Hr) as (_ & Hf & _).
  destruct e; [done|]. destruct (Hf eq_refl) as [_ Hlt].
  f_equal. apply IH; lia.
Qed.

Lemma framing_nonempty (frames : list bytes) (r : list byte) :
  framing frames r → Forall (λ f, length f ≠ 0) frames.
Proof.
  intros (_ & whole & tail & -> & Hwhole & Htail). apply Forall_app. split.
  - eapply Forall_impl; [exact Hwhole|]. intros f (c & -> & _).
    rewrite length_app. simpl. lia.
  - destruct Htail as [->|(f & -> & Hne & _)]; [constructor|].
    constructor; [|constructor]. destruct f; [done | simpl; lia].
Qed.

(** The reader's test of the length passes every frame on. *)
Lemma dispatched_all (s : list byte) : dispatched s = delimReader s newline.
Proof.
  unfold dispatched.
  assert (Forall (λ f, length f ≠ 0) (delimReader s newline)) as Hne.
  { eapply framing_nonempty, readLoop_framing. lia. }
  generalize dependent (delimReader s newline). intros frames Hne.
  induction Hne as [|f fs Hf _ IH]; [reflexivity|].
  rewrite filter_cons_True by exact Hf. f_equal. exact IH.
Qed.

(** C6, as amended: for every input byte stream the framer yields,
    in order, every newline-terminated segment with its 0x0A
    included, and after them the unterminated rest of the stream when
    it is not empty, so that the frames put together are the stream;
    the reader passes over values of length zero only, so that every
    one of these frames, a lone delimiter too, is handed to a message
    processor. *)
Theorem delimReader_frames (s : list byte) (delim : byte) :
  framing (delimReader s delim) s ∧ dispatched s = delimReader s delim.
Proof.
  split; [|apply dispatched_all]. apply readLoop_framing. lia.
Qed.

(** C6 as the specification words it fails on the stream [a], newline,
    newline, [b]: the lone delimiter and the unterminated [b] are both
    dispatched, and neither is a frame the specification delivers. *)
Lemma dispatched_not_spec_frames :
  dispatched gappy = [[x61; x0a]; [x0a]; [x62]] ∧
  ¬ spec_delivers [x0a] ∧ ¬ spec_delivers [x62] ∧
  ¬ (∀ f, f ∈ dispatched gappy → spec_delivers f).
Proof.
  assert (¬ spec_delivers [x0a]) as Hlone by (intros [_ Hne]; by apply Hne).
  split; [reflexivity|]. split; [exact Hlone|]. split.
  - intros [[content Hc] _]. destruct content as [|c [|c' content]]; discriminate.
  - intros Hall. apply Hlone, Hall.
    change (dispatched gappy) with [[x61; x0a]; [x0a]; [x62]].
    apply list_elem_of_In. simpl. tauto.
Qed.

End FramerFacts.

(** ** The per-peer message processors *)

Module WorkersFacts.
Import Workers.

Lemma inv_NewManager : inv NewManager.
Proof.
  split; simpl.
  - intros t Ht. by apply elem_of_nil in Ht.
  - intros t Ht. by apply elem_of_nil in Ht.
  - constructor.
  - constructor.
Qed.

Lemma fresh_ctx (st : state) (p : task → Prop) `{∀ t, Decision (p t)} (c : nat) :
  (∀ t, t ∈ started st → taskCtx t < made st) → made st ≤ c →
  c ∉ taskCtx <$> filter p (started st).
Proof.
  intros Hmade Hc Hin. apply list_elem_of_fmap in Hin as (t & -> & Ht).
  apply list_elem_of_filter in Ht as [_ Ht]. specialize (Hmade t Ht). lia.
Qed.

(** A processor of a peer that is not stopped is the one registered
    or one that a close handler of the peer holds. *)
Lemma elem_of_unstopped (peer : PeerID) (st : state) (w : rpcMsgProcessor) :
  w ∈ unstopped peer st ↔
  rpcMsgProcessors st !! PeerID_String peer = Some w ∨
  (PeerID_String peer, w) ∈ closing st.
Proof.
  unfold unstopped, waiting. rewrite elem_of_app, list_elem_of_fmap. split.
  - intros [Hw|([k w'] & -> & Hc)].
    + left. destruct (rpcMsgProcessors st !! PeerID_String peer); simpl in Hw.
      * by apply list_elem_of_singleton in Hw as ->.
      * by apply elem_of_nil in Hw.
    + right. apply list_elem_of_filter in Hc as [Hk Hc]. simpl in *. by subst.
  - intros [Hw|Hc].
    + left. rewrite Hw. simpl. by left.
    + right. exists (PeerID_String peer, w). split; [done|].
      by apply list_elem_of_filter.
Qed.

(** What is left of a list when one element is deleted. *)
Lemma elem_of_delete_other {A : Type} (l : list A) (i : nat) (x y : A) :
  l !! i = Some y → x ∈ l → x ≠ y → x ∈ delete i l.
Proof.
  intros Hi Hx Hne. rewrite delete_take_drop.
  rewrite <- (take_drop_middle l i y Hi) in Hx.
  apply elem_of_app in Hx as [Hx|Hx]; [apply elem_of_app; by left|].
  apply elem_of_cons in Hx as [->|Hx]; [done|]. apply elem_of_app. by right.
Qed.

Lemma inv_insertWorker (s : Stream) (st : state) : inv st → inv (insertWorker s st).
Proof.
  intros [Hlive Hmade Hrd Hwr]. unfold insertWorker, SetIfAbsent.
  destruct (rpcMsgProcessors st !! PeerID_String (RemotePeer s)) as [w0|] eqn:Hs.
  { (* the insertion fails: nothing but the numbering moves *)
    split; simpl; rewrite ?app_nil_r; try done.
    intros t Ht. specialize (Hmade t Ht). lia. }
  split; simpl.
  - intros t Ht Hc. apply elem_of_app in Ht as [Ht|Ht].
    + destruct (Hlive t Ht Hc) as (w & Hw & Hstop). exists w. split; [|done].
      apply elem_of_unstopped. apply elem_of_unstopped in Hw as [Hw|Hw]; [|by right].
      left. simpl. rewrite lookup_insert_ne; [done|]. intros Heq.
      rewrite <- Heq in Hw. congruence.
    + exists {| WriteQueue := made st; Stop := S (made st) |}.
      apply elem_of_cons in Ht as [->|Ht]; [|apply list_elem_of_singleton in Ht as ->];
        (split; [|done]); apply elem_of_unstopped; left; simpl;
        by rewrite lookup_insert_eq.
  - intros t Ht. apply elem_of_app in Ht as [Ht|Ht].
    + specialize (Hmade t Ht). lia.
    + apply elem_of_cons in Ht as [->|Ht]; [|apply list_elem_of_singleton in Ht as ->];
        simpl; lia.
  - rewrite filter_app, fmap_app. simpl.
    apply NoDup_app. repeat split; [done| |apply NoDup_singleton].
    intros c Hc Hin. apply list_elem_of_singleton in Hin as ->.
    by eapply (fresh_ctx st), Hc; [|lia].
  - rewrite filter_app, fmap_app. simpl.
    apply NoDup_app. repeat split; [done| |apply NoDup_singleton].
    intros c Hc Hin. apply list_elem_of_singleton in Hin as ->.
    by eapply (fresh_ctx st), Hc; [|lia].
Qed.

Lemma inv_Pop (peer : PeerID) (st : state) :
  inv st → inv (closeConnectionHandler_Pop peer st).
Proof.
  intros Hinv. unfold closeConnectionHandler_Pop, Pop.
  destruct (rpcMsgProcessors st !! PeerID_String peer) as [w0|] eqn:Hp; [|done].
  destruct Hinv as [Hlive Hmade Hrd Hwr]. split; simpl; try done.
  intros t Ht Hc. destruct (Hlive t Ht Hc) as (w & Hw & Hstop). exists w.
  split; [|done]. apply elem_of_unstopped. simpl.
  apply elem_of_unstopped in Hw as [Hw|Hw].
  - destruct (decide (PeerID_String peer = PeerID_String (taskPeer t))) as [Heq|Hne].
    + right. rewrite <- Heq in Hw. rewrite Hp in Hw. injection Hw as ->.
      rewrite <- Heq. apply elem_of_app. right. by left.
    + left. by rewrite lookup_delete_ne.
  - right. apply elem_of_app. by left.
Qed.

Lemma inv_Stop (i : nat) (st : state) :
  inv st → inv (closeConnectionHandler_Stop i st).
Proof.
  intros Hinv. unfold closeConnectionHandler_Stop.
  destruct (closing st !! i) as [[k w0]|] eqn:Hi; [|done].
  destruct Hinv as [Hlive Hmade Hrd Hwr]. split; simpl; try done.
  intros t Ht Hc. apply not_elem_of_union in Hc as [Hw0 Hc].
  destruct (Hlive t Ht Hc) as (w & Hw & Hstop). exists w.
  split; [|done]. apply elem_of_unstopped. simpl.
  apply elem_of_unstopped in Hw as [Hw|Hw]; [by left|]. right.
  eapply elem_of_delete_other; [exact Hi|exact Hw|].
  intros [= _ ->]. apply Hw0. rewrite Hstop. by apply elem_of_singleton.
Qed.

Lemma inv_handle (st : state) (e : event) : inv st → inv (handle st e).
Proof.
  intros Hinv. destruct e as [s|s|peer|i]; simpl.
  - unfold newRPCStreamHandler.
    destruct (rpcMsgProcessors st !! PeerID_String (RemotePeer s)) eqn:Hs; [done|].
    by apply inv_insertWorker.
  - by apply inv_insertWorker.
  - by apply inv_Pop.
  - by apply inv_Stop.
Qed.

Lemma inv_reachable (events : list event) : inv (foldl handle NewManager events).
Proof.
  assert (∀ st, inv st → inv (foldl handle st events)) as Hgen.
  { induction events as [|e events IH]; intros st Hst; [done|].
    simpl. by apply IH, inv_handle. }
  apply Hgen, inv_NewManager.
Qed.

(** The goroutines of one kind that serve a peer and are not
    cancelled are no more than the processors of the peer that are not
    stopped: they hold different contexts, each the context of one of
    these processors. *)
Lemma live_bound (b : bool) (peer : PeerID) (st : state) :
  inv st →
  length (filter (λ t, isReader t = b ∧ taskPeer t = peer ∧ taskCtx t ∉ cancelled st)
                 (started st))
  ≤ length (unstopped peer st).
Proof.
  intros [Hlive _ Hrd Hwr].
  set (live := filter _ (started st)).
  assert (NoDup (taskCtx <$> live)) as Hnd.
  { assert (live `sublist_of` filter (λ t, isReader t = b) (started st)) as Hsub.
    { unfold live. clear. induction (started st) as [|t l IH]; [done|].
      rewrite !filter_cons.
      destruct (decide (isReader t = b ∧ taskPeer t = peer ∧ taskCtx t ∉ cancelled st))
        as [[Hb _]|Hn].
      - rewrite decide_True by done. by constructor.
      - destruct (decide (isReader t = b)); [by constructor|done]. }
    eapply sublist_NoDup; [|by apply fmap_sublist].
    by destruct b. }
  rewrite <- (length_fmap taskCtx live), <- (length_fmap Stop (unstopped peer st)).
  apply submseteq_length, NoDup_submseteq; [exact Hnd|].
  intros c Hc. apply list_elem_of_fmap in Hc as (t & -> & Ht).
  apply list_elem_of_filter in Ht as [(_ & Hp & Hc) Ht].
  destruct (Hlive t Ht Hc) as (w & Hw & Hstop). rewrite Hp in Hw.
  apply list_elem_of_fmap. by exists w.
Qed.

(** C8, as amended: when a worker exists for the peer of a stream,
    handling the stream changes nothing: [newRPCStreamHandler] returns
    at once, and even past the [Get] (another goroutine having
    inserted meanwhile) no worker is inserted, no goroutine is started
    and the entry stays as it is. From [NewManager] on, however the
    stream handlers and the close handlers interleave, the readers of
    a peer whose context is not cancelled are no more than the
    processors of the peer that are not stopped, and so are its
    writers; these processors are the one registered, if any, and those
    in the hands of close handlers that wait between their [Pop] and
    their [Stop]; with no such handler waiting, the peer has at most
    one reader and at most one writer. *)
Theorem one_worker_per_peer :
  (∀ (s : Stream) (st : state),
      is_Some (rpcMsgProcessors st !! PeerID_String (RemotePeer s)) →
      newRPCStreamHandler s st = st ∧
      rpcMsgProcessors (insertWorker s st) = rpcMsgProcessors st ∧
      started (insertWorker s st) = started st ∧
      cancelled (insertWorker s st) = cancelled st) ∧
  (∀ (events : list event) (peer : PeerID),
      let st := foldl handle NewManager events in
      length (liveReaders peer st) ≤ length (unstopped peer st) ∧
      length (liveWriters peer st) ≤ length (unstopped peer st) ∧
      length (unstopped peer st) ≤ 1 + length (waiting peer st) ∧
      (waiting peer st = [] →
         length (liveReaders peer st) ≤ 1 ∧ length (liveWriters peer st) ≤ 1)).
Proof.
  split.
  - intros s st [w Hw]. unfold newRPCStreamHandler, insertWorker, SetIfAbsent.
    rewrite Hw. simpl. by rewrite app_nil_r.
  - intros events peer st. pose proof (inv_reachable events) as Hinv. fold st in Hinv.
    pose proof (live_bound true peer st Hinv) as Hr.
    pose proof (live_bound false peer st Hinv) as Hw.
    assert (length (unstopped peer st) ≤ 1 + length (waiting peer st)) as Hu.
    { unfold unstopped. rewrite length_app.
      destruct (rpcMsgProcessors st !! PeerID_String peer); simpl; lia. }
    split; [exact Hr|]. split; [exact Hw|]. split; [exact Hu|].
    intros Hnone. rewrite Hnone in Hu. simpl in Hu.
    unfold liveReaders, liveWriters. lia.
Qed.

(** Two streams of peer [B], the second while the first has its
    worker. *)
Lemma one_worker_per_peer_twice :
  let st := newRPCStreamHandler stream1 NewManager in
  newRPCStreamHandler stream2 st = st ∧
  started st = [rpcMsgReader stream1 0 1; rpcMsgWriter stream1 0 1].
Proof.
  split; [|reflexivity].
  refine (proj1 (proj1 one_worker_per_peer stream2
                   (newRPCStreamHandler stream1 NewManager) _)).
  vm_compute. eauto.
Defined.

(** C8 as the specification words it fails between the [Pop] and the
    [Stop] of a close handler: a stream of the peer handled while the
    handler waits for its send on [peerListChan] finds no entry and
    gets a worker of its own, the goroutines of the worker popped
    still running. Peer [B] then has two processors that are not
    stopped, two readers and two writers. *)
Lemma two_workers_while_closing :
  liveReaders "B" (foldl handle NewManager reopened)
  = [rpcMsgReader stream1 0 1; rpcMsgReader stream2 2 3] ∧
  liveWriters "B" (foldl handle NewManager reopened)
  = [rpcMsgWriter stream1 0 1; rpcMsgWriter stream2 2 3] ∧
  unstopped "B" (foldl handle NewManager reopened)
  = [{| WriteQueue := 2; Stop := 3 |}; {| WriteQueue := 0; Stop := 1 |}] ∧
  ¬ (∀ (events : list event) (peer : PeerID),
       length (liveReaders peer (foldl handle NewManager events)) ≤ 1 ∧
       length (liveWriters peer (foldl handle NewManager events)) ≤ 1).
Proof.
  assert (liveReaders "B" (foldl handle NewManager reopened)
          = [rpcMsgReader stream1 0 1; rpcMsgReader stream2 2 3]) as Hr
    by (vm_compute; reflexivity).
  split; [exact Hr|]. split; [vm_compute; reflexivity|].
  split; [vm_compute; reflexivity|].
  intros Hall. destruct (Hall reopened "B") as [Hone _].
  rewrite Hr in Hone. simpl in Hone. lia.
Qed.

End WorkersFacts.

(** ** The dispatchers *)

Module P2PFacts.
Import P2P.

Section Dispatch.
Context {V : Type} `{GoValue V}.
Context `{JSON rpcMsg, JSON rpcPayloadRequest, JSON rpcPayloadResponse,
          JSON pubsubMsg}.
Variable hostID : PeerID.
Variable rpcHandlers : gmap string (rpcHandler V).
Variable pubsubHandlers : gmap string (pubsubHandler V).

(** C7: of the messages the subscription returns, one received from
    the host's own peer id starts no goroutine, so that no pubsub
    handler is invoked for it; one received from any other peer is
    decoded and dispatched, and when it decodes and its type has a
    handler, that handler is invoked with the sender and the decoded
    payload. *)
Theorem self_echo_filter (msgs : list Message) (i : nat) (msg : Message) :
  msgs !! i = Some msg →
  (ReceivedFrom msg = hostID →
     pubsubMsgProcessor hostID pubsubHandlers msgs !! i = Some []) ∧
  (ReceivedFrom msg ≠ hostID →
     pubsubMsgProcessor hostID pubsubHandlers msgs !! i
     = Some (pubsubDispatch pubsubHandlers msg) ∧
     ∀ m handler payload,
       Unmarshal (Data msg) = Ok m →
       pubsubHandlers !! psType m = Some handler →
       UnmarshalInto (psPayload m) (reflectNew (PayloadStruct handler)) = Ok payload →
       Invoke (psType m) (ReceivedFrom msg) payload
       ∈ pubsubDispatch pubsubHandlers msg).
Proof.
  intros Hi. unfold pubsubMsgProcessor. rewrite list_lookup_fmap, Hi. simpl.
  split; intros Hfrom.
  - by rewrite decide_True.
  - rewrite decide_False by done. split; [done|].
    intros m handler payload Hm Hh Hp. unfold pubsubDispatch, getPubSubHandler.
    rewrite Hm, Hh, Hp. unfold recovering, bind, emit, invoke.
    destruct (psFunc handler (ReceivedFrom msg) payload) as [[e|]|r]; simpl;
      apply list_elem_of_here.
Qed.

(** C5, as amended: when the handler of an inbound request panics,
    the deferred recover of the frame's goroutine logs the panic and
    no message is enqueued for the request; the reader goes on: the
    frames before and after are each processed by a goroutine of
    their own, as they would be without the panic. *)
Theorem handler_panic_is_logged (peer : PeerID) (s : list byte)
    (before after : list bytes) (frame : bytes)
    (msg : rpcMsg) (req : rpcPayloadRequest) (handler : rpcHandler V)
    (data : V) (r : string) :
  Framer.dispatched s = before ++ frame :: after →
  Unmarshal frame = Ok msg →
  msgType msg = rpcRequest →
  Unmarshal (msgPayload msg) = Ok req →
  rpcHandlers !! reqType req = Some handler →
  UnmarshalInto (reqData req) (reflectNew (RequestStruct handler)) = Ok data →
  Func handler peer data = Panic r →
  msgProcessor rpcHandlers peer frame
  = [Invoke (reqType req) peer data;
     Log ("Exception whie processing incoming p2p RPC msg from '" +:+
          PeerID_String peer +:+ "': " +:+ r)] ∧
  Network.enqueued (msgProcessor rpcHandlers peer frame) = [] ∧
  rpcMsgReader rpcHandlers peer s
  = (msgProcessor rpcHandlers peer <$> before) ++
    msgProcessor rpcHandlers peer frame ::
    (msgProcessor rpcHandlers peer <$> after).
Proof.
  intros Hs Hmsg Hty Hreq Hh Hdata Hpanic.
  assert (msgProcessor rpcHandlers peer frame
          = [Invoke (reqType req) peer data;
             Log ("Exception whie processing incoming p2p RPC msg from '" +:+
                  PeerID_String peer +:+ "': " +:+ r)]) as Hrun.
  { unfold msgProcessor. rewrite Hmsg. rewrite decide_True by done.
    rewrite Hreq. unfold requestHandler, getRPCHandler. rewrite Hh, Hdata.
    unfold bind, emit, invoke. rewrite Hpanic. reflexivity. }
  split; [exact Hrun|]. split; [by rewrite Hrun|].
  unfold rpcMsgReader. rewrite Hs, fmap_app. reflexivity.
Qed.

End Dispatch.

Import Plain.

(** C7 at a broadcast the host receives from itself. *)
Lemma self_echo_filter_own :
  pubsubMsgProcessor "A" topics [broadcast "A" "hi"; broadcast "B" "hi"] !! 0 = Some [].
Proof.
  exact (proj1 (self_echo_filter "A" topics [broadcast "A" "hi"; broadcast "B" "hi"] 0
                  (broadcast "A" "hi") eq_refl) eq_refl).
Defined.

(** The same broadcast received from another peer reaches the handler. *)
Example echo_from_other_peer :
  pubsubMsgProcessor "A" topics [broadcast "A" "hi"; broadcast "B" "hi"] !! 1
  = Some [Invoke "echo" "B" "hi"].
Proof. vm_compute. reflexivity. Qed.

(** C5 as the specification words it fails: for the request of a
    handler that panics, no response, with an error or without, is
    enqueued under the request's id or any other. *)
Lemma handler_panic_sends_no_response :
  msgProcessor handlers "A" (requestFrame "faulty" "x")
  = [Invoke "faulty" "A" "x";
     Log ("Exception whie processing incoming p2p RPC msg from 'A': " +:+
          "runtime error: invalid memory address or nil pointer dereference")] ∧
  ¬ (∃ m, Enqueue m ∈ msgProcessor handlers "A" (requestFrame "faulty" "x")).
Proof.
  assert (msgProcessor handlers "A" (requestFrame "faulty" "x")
          = [Invoke "faulty" "A" "x";
             Log ("Exception whie processing incoming p2p RPC msg from 'A': " +:+
                  "runtime error: invalid memory address or nil pointer dereference")])
    as Hrun by (vm_compute; reflexivity).
  split; [exact Hrun|]. rewrite Hrun. intros [m Hm].
  apply elem_of_cons in Hm as [Hm|Hm]; [discriminate|].
  apply list_elem_of_singleton in Hm. discriminate.
Qed.

(** C5 as amended, at the request of the faulty handler followed by a
    ping. *)
Lemma handler_panic_is_logged_then_ping :
  rpcMsgReader handlers "A" (requestFrame "faulty" "x" ++ requestFrame "ping" "hello")
  = [] ++ msgProcessor handlers "A" (requestFrame "faulty" "x") ::
    (msgProcessor handlers "A" <$> [requestFrame "ping" "hello"]).
Proof.
  refine (proj2 (proj2 (handler_panic_is_logged handlers "A"
    (requestFrame "faulty" "x" ++ requestFrame "ping" "hello")
    [] [requestFrame "ping" "hello"] (requestFrame "faulty" "x")
    {| msgID := anID; msgType := rpcRequest;
       msgPayload := toBytes "faulty" ++ sep :: toBytes "x" |}
    {| reqType := "faulty"; reqData := toBytes "x" |} faulty "x"
    "runtime error: invalid memory address or nil pointer dereference"
    _ _ _ _ _ _ _))); vm_compute; reflexivity.
Defined.

End P2PFacts.

(** ** The request tracker *)

Module TrackerFacts.
Import Tracker.

Lemma inv_init q t0 table queue : inv q (init t0 table queue).
Proof.
  split; simpl; try reflexivity; try discriminate.
  - intros [? ?]. discriminate.
  - intros r [Hr|Hr]; [discriminate | by apply elem_of_nil in Hr].
Qed.

(** Bring what is known of the tables, of the program counters and of
    a crash into the goal. *)
Ltac known :=
  repeat match goal with
         | H : reqs ?s !! ?k = _ |- context [reqs ?s !! ?k] => rewrite H
         | H : tpc ?s = _ |- context [tpc ?s] => rewrite H
         | H : rpc ?s = _ |- context [rpc ?s] => rewrite H
         | H : cpc ?s = _ |- context [cpc ?s] => rewrite H
         | H : crashed ?s = _ |- context [crashed ?s] => rewrite H
         end.

(** The clause on panics: the one that occurred is the double close. *)
Ltac panics :=
  match goal with
  | Hpa : ∀ r, _ ∨ r ∈ _ → r = closeOfClosed
    |- ∀ r, _ ∨ _ → _ = closeOfClosed =>
      let r := fresh "r" in
      let Hr := fresh "Hr" in
      intros r [Hr|Hr];
      [ first [ by simplify_eq/= | apply Hpa; by left ]
      | first [ apply Hpa; by right
              | apply elem_of_app in Hr as [Hr|Hr];
                [ apply Hpa; by right
                | apply list_elem_of_singleton in Hr; by subst ] ] ]
  end.

Ltac finish :=
  simpl in *; known; try done; try (panics; fail); intros; simplify_eq/=;
  rewrite ?lookup_insert_eq, ?lookup_delete_eq;
  try done; try congruence; try lia; try (by eauto 3); try (by left);
  try (right; split; by eauto 3);
  try match goal with
      | Hc : crashed ?s = None, H : is_Some (crashed ?s) |- _ =>
          rewrite Hc in H; by destruct H
      end.

(** A clause of the invariant after a step of one goroutine, by the
    places [a] and [b] where the two others stand. *)
Ltac others a b :=
  split; simpl in *;
  try (finish; fail);
  destruct a eqn:?; try (finish; fail);
  destruct b eqn:?; finish.

Lemma inv_step q l s s' : inv q s → step q l s = Some s' → inv q s'.
Proof.
  intros [Hl Hs Hr He Hg Hsp Hsl Hcr Htr Hrm Hea Hpa] Hstep. unfold step in Hstep.
  destruct (crashed s) eqn:Hcrash; [done|]. destruct l; simpl in Hstep.
  - (* time passes *)
    simplify_eq. split; simpl; try done.
    + intros Ha. specialize (Hsl Ha). lia.
    + rewrite Hcrash. by intros [? ?].
    + by rewrite Hcrash.
  - (* the writer takes a message *)
    destruct (writeQueue s) as [[|? ?]|]; simplify_eq. split; simpl; try done.
    + rewrite Hcrash. by intros [? ?].
    + by rewrite Hcrash.
  - unfold stepCaller in Hstep.
    destruct (cpc s) as [| | | | | d |r] eqn:Hc; repeat case_match; simplify_eq;
      others (tpc s) (rpc s).
  - unfold stepTimer in Hstep.
    destruct (tpc s) eqn:Ht; repeat case_match; simplify_eq;
      others (rpc s) (cpc s).
  - unfold stepResponder, recover in Hstep.
    destruct (rpc s) eqn:Hrp; repeat case_match; simplify_eq;
      others (tpc s) (cpc s).
Qed.

Lemma inv_run q ls s s' : inv q s → run q ls s = Some s' → inv q s'.
Proof.
  revert s. induction ls as [|l ls IH]; intros s Hinv; simpl.
  - by intros [= <-].
  - destruct (step q l s) as [s1|] eqn:Hstep; [|done].
    apply IH. by eapply inv_step.
Qed.

Lemma run_app q ls1 ls2 s :
  run q (ls1 ++ ls2) s = match run q ls1 s with
                         | Some s1 => run q ls2 s1
                         | None => None
                         end.
Proof.
  revert s. induction ls1 as [|l ls1 IH]; intros s; simpl; [done|].
  destruct (step q l s); [apply IH | done].
Qed.

(** The timer never gives the latch back. *)
Lemma tWon_step q l s s' :
  tWon (tpc s) = true → inv q s → step q l s = Some s' → tWon (tpc s') = true.
Proof.
  intros Hw Hinv Hstep. pose proof (inv_crashed _ _ Hinv) as Hcr.
  unfold step in Hstep. destruct (crashed s) eqn:Hcrash.
  { done. }
  destruct l; simpl in Hstep.
  - by simplify_eq.
  - destruct (writeQueue s) as [[|? ?]|]; by simplify_eq.
  - unfold stepCaller in Hstep. repeat case_match; simplify_eq; try done.
    (* the [go] statement: no timer was running before it *)
    pose proof (inv_spawned _ _ Hinv) as Hsp.
    match goal with Hc : cpc s = _ |- _ => rewrite Hc in Hsp end.
    destruct (tpc s); simpl in *; congruence.
  - unfold stepTimer in Hstep.
    destruct (tpc s) eqn:Ht; try done; repeat case_match; simplify_eq/=; try done.
    all: destruct Hinv as [_ Hs Hr He _ _ _ _ _ _ _ _]; rewrite Ht in Hs, Hr, He;
      simpl in *; destruct (rpc s); simpl in *; congruence.
  - unfold stepResponder, recover in Hstep. repeat case_match; by simplify_eq.
Qed.

Lemma tWon_run q ls s s' :
  tWon (tpc s) = true → inv q s → run q ls s = Some s' → tWon (tpc s') = true.
Proof.
  revert s. induction ls as [|l ls IH]; intros s Hw Hinv; simpl.
  - by intros [= <-].
  - destruct (step q l s) as [s1|] eqn:Hstep; [|done].
    apply IH; [by eapply tWon_step | by eapply inv_step].
Qed.

(** Once [sendRequest] has returned, no step touches [reqs]. *)
Lemma returned_step q l s s' r :
  cpc s = CReturned r → step q l s = Some s' →
  cpc s' = CReturned r ∧ reqs s' = reqs s.
Proof.
  intros Hc Hstep. unfold step in Hstep. destruct (crashed s); [done|].
  destruct l; simpl in Hstep.
  - by simplify_eq.
  - destruct (writeQueue s) as [[|? ?]|]; by simplify_eq.
  - unfold stepCaller in Hstep. rewrite Hc in Hstep. done.
  - unfold stepTimer in Hstep. rewrite Hc in Hstep.
    repeat case_match; by simplify_eq.
  - unfold stepResponder, recover in Hstep. rewrite Hc in Hstep.
    repeat case_match; by simplify_eq.
Qed.

Lemma returned_run q ls s s' r :
  cpc s = CReturned r → run q ls s = Some s' →
  cpc s' = CReturned r ∧ reqs s' = reqs s.
Proof.
  revert s. induction ls as [|l ls IH]; intros s Hc; simpl.
  - by intros [= <-].
  - destruct (step q l s) as [s1|] eqn:Hstep; [|done].
    destruct (returned_step _ _ _ _ _ Hc Hstep) as [Hc1 <-]. by apply IH.
Qed.

(** A caller blocked on a full queue stays so until the writer takes
    a message; no timer has been started for it. *)
Lemma blocked_step q l s s' :
  cpc s = CEnqueue → tpc s = TIdle →
  (∃ queue, writeQueue s = Some queue ∧ length queue = queueCap) →
  l ≠ Drain → step q l s = Some s' →
  cpc s' = CEnqueue ∧ tpc s' = TIdle ∧ writeQueue s' = writeQueue s.
Proof.
  intros Hc Ht (queue & Hq & Hlen) Hl Hstep. unfold step in Hstep.
  destruct (crashed s); [done|]. destruct l; simpl in Hstep; try done.
  - by simplify_eq.
  - unfold stepCaller in Hstep. rewrite Hc, Hq in Hstep.
    destruct (encoded q); [|done]. rewrite decide_False in Hstep by lia. done.
  - unfold stepTimer in Hstep. rewrite Ht in Hstep. done.
  - unfold stepResponder, recover in Hstep. rewrite Hc in Hstep.
    repeat case_match; by simplify_eq.
Qed.

Lemma blocked_run q ls s s' :
  cpc s = CEnqueue → tpc s = TIdle →
  (∃ queue, writeQueue s = Some queue ∧ length queue = queueCap) →
  Drain ∉ ls → run q ls s = Some s' →
  cpc s' = CEnqueue ∧ tpc s' = TIdle.
Proof.
  revert s. induction ls as [|l ls IH]; intros s Hc Ht Hq Hls; simpl.
  - by intros [= <-].
  - apply not_elem_of_cons in Hls as [Hl Hls].
    destruct (step q l s) as [s1|] eqn:Hstep; [|done].
    destruct (blocked_step _ _ _ _ Hc Ht Hq (not_eq_sym Hl) Hstep) as (Hc1 & Ht1 & Hq1).
    apply IH; try done. by rewrite Hq1.
Qed.

(** C4, as amended: the timer is started after the request has been
    enqueued and sleeps five seconds; in every schedule, once the
    timer goroutine has closed the latch, at least five seconds have
    passed since it was started, [sendRequest] returns nothing but
    the error that begins "timeout waiting for request", it can go on
    to return it with its tracker entry removed, and the response,
    whenever it is handled from then on, is dropped: [responseHandler]
    never hands it to the caller. *)
Theorem timeout_after_enqueue (q : request) (t0 : N) (table : gmap string nat)
    (queue : option (list rpcMsg)) (ls : list label) (s : state) :
  run q ls (init t0 table queue) = Some s →
  tWon (tpc s) = true →
  (armed s + timeout ≤ now s)%N ∧
  (∀ r, cpc s = CReturned r → r = Late (FromErr (Some (timeoutError q)))) ∧
  Contains (timeoutError q) "timeout waiting for request" = true ∧
  (∃ ls' s', run q ls' s = Some s' ∧
             cpc s' = CReturned (Late (FromErr (Some (timeoutError q)))) ∧
             reqs s' !! id q = None) ∧
  (∀ ls' s', run q ls' s = Some s' → rSent (rpc s') = false).
Proof.
  intros Hrun Hw. pose proof (inv_run _ _ _ _ (inv_init q t0 table queue) Hrun) as Hinv.
  split; [|split; [|split; [|split]]].
  - apply (inv_slept _ _ Hinv). by destruct (tpc s).
  - intros r Hr. destruct Hinv as [_ Hs _ _ Hg Hsp _ _ _ _ _ _].
    rewrite Hr in Hg, Hsp.
    destruct (tpc s), (rpc s), r as [e|d]; simpl in *; congruence.
  - apply Contains_prefix. reflexivity.
  - assert (crashed s = None) as Hcrash.
    { destruct (crashed s) eqn:Hc; [|done].
      rewrite (inv_crashed _ _ Hinv) in Hw; [done|]. rewrite Hc. eauto. }
    destruct (tSent (tpc s)) eqn:Hsent.
    + (* the error has been handed over *)
      pose proof (inv_got _ _ Hinv) as Hg. rewrite Hsent in Hg.
      destruct (cpc s) as [| | | | | d |[e|d]] eqn:Hc; simplify_eq/=.
      * exists [Caller]. eexists. simpl. unfold step, stepCaller.
        rewrite Hcrash, Hc. split; [reflexivity|]. simpl.
        by rewrite lookup_delete_eq.
      * exists []. eexists. split; [reflexivity|]. split; [done|].
        by eapply inv_removed.
    + (* the timer stands at its send, the caller at its [select] *)
      assert (tpc s = TSend) as Ht by (destruct (tpc s); simpl in *; congruence).
      destruct Hinv as [_ Hs _ He Hg Hsp _ _ _ _ _ _]. rewrite Ht in Hs, He, Hg, Hsp.
      assert (err s = false ∧ cpc s = CSelect) as [Herr Hc].
      { destruct (rpc s), (cpc s) as [| | | | | d |[e|d]]; simpl in *;
          split; congruence. }
      exists [Timer; Caller]. eexists. simpl. unfold step at 1, stepTimer.
      rewrite Hcrash, Ht, Herr, Hc. simpl. unfold step, stepCaller. simpl.
      rewrite Hcrash. split; [reflexivity|]. simpl. by rewrite lookup_delete_eq.
  - intros ls' s' Hrun'. pose proof (inv_run _ _ _ _ Hinv Hrun') as Hinv'.
    pose proof (tWon_run _ _ _ _ Hw Hinv Hrun') as Hw'.
    pose proof (inv_single _ _ Hinv') as Hs. rewrite Hw' in Hs.
    destruct (rpc s'); simpl in *; congruence.
Qed.

Import Plain.

(** C4 at the schedule [late], stopped where the timer has closed the
    latch: whatever follows, the response is not delivered. *)
Lemma timeout_after_enqueue_late :
  ∃ s, run pingCall (take 8 late) (init 0 ∅ (Some [])) = Some s ∧
       ∀ ls' s', run pingCall ls' s = Some s' → rSent (rpc s') = false.
Proof.
  eexists. split; [vm_compute; reflexivity|].
  refine (proj2 (proj2 (proj2 (proj2
    (timeout_after_enqueue pingCall 0 ∅ (Some []) (take 8 late) _ _ _))))).
  - vm_compute. reflexivity.
  - vm_compute. reflexivity.
Defined.

(** The schedule [late] in full: the timeout error is returned, the
    entry is removed, the late response finds no request. *)
Example late_response_dropped :
  ∃ s, run pingCall late (init 0 ∅ (Some [])) = Some s ∧
       cpc s = CReturned (Late (FromErr (Some (timeoutError pingCall)))) ∧
       rpc s = RNotFound ∧ reqs s !! anID = None.
Proof. eexists. split; [vm_compute; reflexivity|]. by vm_compute. Qed.

(** C4 as the specification words it fails when the write queue is
    full: six seconds after the call [sendRequest] still stands at its
    enqueue, no timer has been started, and as long as the writer
    takes nothing from the queue no schedule brings a timeout error or
    any other outcome. *)
Lemma full_queue_outlasts_timeout :
  ∃ s, run pingCall [Caller; Caller; Tick 6000] (init 0 ∅ (Some fullQueue)) = Some s ∧
       now s = 6000%N ∧ cpc s = CEnqueue ∧ tpc s = TIdle ∧
       ∀ ls s', Drain ∉ ls → run pingCall ls s = Some s' →
                cpc s' = CEnqueue ∧ tpc s' = TIdle.
Proof.
  eexists. split; [vm_compute; reflexivity|].
  split; [by vm_compute|]. split; [reflexivity|]. split; [reflexivity|].
  intros ls s'. apply blocked_run; [reflexivity | reflexivity |].
  exists fullQueue. split; reflexivity.
Qed.

(** C1 fails on the code. In the schedule [race] the response is
    handled as the timer wakes: both goroutines find the latch open,
    [responseHandler] closes it, and the timer's own [close] panics
    with "close of closed channel"; nothing recovers a panic of that
    goroutine, the process ends, and the caller has received neither
    response nor error. In [race'], the timer closing first, the
    second close panics inside [responseHandler]. *)
Theorem latch_closed_twice :
  (∃ s, run pingCall race (init 0 ∅ (Some [])) = Some s ∧
        crashed s = Some closeOfClosed ∧ cpc s = CSelect ∧
        ∀ l, step pingCall l s = None) ∧
  (∃ s, run pingCall race' (init 0 ∅ (Some [])) = Some s ∧
        recovered s = [closeOfClosed] ∧ rpc s = RRecovered).
Proof.
  split.
  - eexists. split; [vm_compute; reflexivity|]. by repeat split.
  - eexists. split; [vm_compute; reflexivity|]. by split.
Qed.

(** C2 fails on the code. With no processor for the peer,
    [sendRequest] returns "peer writer not found" after [reqs.Set] and
    before its [defer]: the entry under the minted id stays in [reqs],
    and no later step of any goroutine removes it. *)
Theorem writer_not_found_keeps_tracker :
  ∃ s, run pingCall [Caller; Caller] (init 0 ∅ None) = Some s ∧
       cpc s = CReturned (Early (writerNotFound pingCall)) ∧
       reqs s !! anID = Some 0 ∧
       ∀ ls s', run pingCall ls s = Some s' → reqs s' !! anID = Some 0.
Proof.
  eexists. split; [reflexivity|].
  split; [reflexivity|]. split; [by vm_compute|].
  intros ls s' Hrun.
  eapply returned_run in Hrun; [|reflexivity]. destruct Hrun as [_ ->].
  by vm_compute.
Qed.

(** X19: what does hold of the latch in every schedule: the two goroutines
    never both get past it, so at most one of them hands a value to the
    caller; the only panic is the second close of [closeSig], never a
    send on, or a close of, a closed [resp] or [err]. *)
Lemma latch_in_every_schedule (q : request) (t0 : N) (table : gmap string nat)
    (queue : option (list rpcMsg)) (ls : list label) (s : state) :
  run q ls (init t0 table queue) = Some s →
  tWon (tpc s) && rWon (rpc s) = false ∧
  tSent (tpc s) && rSent (rpc s) = false ∧
  (∀ r, crashed s = Some r → r = closeOfClosed ∧ tpc s = TClose) ∧
  (∀ r, r ∈ recovered s → r = closeOfClosed).
Proof.
  intros Hrun. pose proof (inv_run _ _ _ _ (inv_init q t0 table queue) Hrun) as Hinv.
  pose proof (inv_single _ _ Hinv) as Hs.
  split; [exact Hs|]. split; [|split].
  - destruct (tpc s), (rpc s); simpl in *; congruence.
  - intros r Hr. split.
    + apply (inv_panics _ _ Hinv). by left.
    + apply (inv_crashed _ _ Hinv). rewrite Hr. eauto.
  - intros r Hr. apply (inv_panics _ _ Hinv). by right.
Qed.


End TrackerFacts.


(** ** One RPC between two peers *)

Module NetworkFacts.
Import P2P Network.

Lemma ReadBytes_line (d : byte) (b rest : list byte) :
  d ∉ b → Framer.ReadBytes d (b ++ d :: rest) = (b ++ [d], false, rest).
Proof.
  induction b as [|x b IH]; intros Hd; simpl.
  - by rewrite (proj2 (FramerFacts.byte_eqb_eq d d) eq_refl).
  - apply not_elem_of_cons in Hd as [Hx Hd].
    destruct (Byte.eqb x d) eqn:Hxd.
    + apply FramerFacts.byte_eqb_eq in Hxd. congruence.
    + by rewrite IH.
Qed.

(** A stream that is one terminated line is one frame. *)
Lemma dispatched_line (b : bytes) :
  newline ∉ b → Framer.dispatched (b ++ [newline]) = [b ++ [newline]].
Proof.
  intros Hb. rewrite FramerFacts.dispatched_all.
  unfold Framer.delimReader. rewrite length_app. simpl.
  rewrite (ReadBytes_line _ _ [] Hb). rewrite length_app. simpl.
  replace (length b + 1 =? 0) with false by (symmetry; apply Nat.eqb_neq; lia).
  replace (length b + 1) with (S (length b)) by lia. reflexivity.
Qed.

(** Reduce a step of the tracker on a state given field by field. *)
Ltac tr :=
  cbn [Tracker.run Tracker.step Tracker.stepCaller Tracker.stepTimer
       Tracker.stepResponder Tracker.recover Tracker.init
       Tracker.now Tracker.reqs Tracker.writeQueue Tracker.closeSig Tracker.resp
       Tracker.err Tracker.cpc Tracker.tpc Tracker.rpc Tracker.armed
       Tracker.crashed Tracker.recovered
       Tracker.set_now Tracker.set_reqs Tracker.set_writeQueue Tracker.set_closeSig
       Tracker.set_resp Tracker.set_err Tracker.set_cpc Tracker.set_tpc
       Tracker.set_rpc Tracker.set_armed Tracker.set_crashed Tracker.set_recovered].

Lemma run_cons q l ls s s1 :
  Tracker.step q l s = Some s1 → Tracker.run q (l :: ls) s = Tracker.run q ls s1.
Proof. intros Hs. simpl. by rewrite Hs. Qed.

Lemma both_open (a : Tracker.delivery) :
  match a with Tracker.FromResp _ => false | Tracker.FromErr _ => false end = false.
Proof. by destruct a. Qed.

(** With the response handled before the timer wakes, [sendRequest]
    returns what [responseHandler] sends. *)
Lemma run_inTime (q : Tracker.request) (msg : rpcMsg) :
  Tracker.encoded q = Ok msg →
  ∃ s, Tracker.run q inTime (Tracker.init 0 ∅ (Some [])) = Some s ∧
       Tracker.cpc s = Tracker.CReturned (Tracker.Late (Tracker.answer q)).
Proof.
  intros Henc. unfold inTime.
  erewrite run_cons; [|by unfold Tracker.step, Tracker.stepCaller; tr; rewrite Henc].
  erewrite run_cons; [|by unfold Tracker.step, Tracker.stepCaller; tr].
  erewrite run_cons;
    [|unfold Tracker.step, Tracker.stepCaller; tr; rewrite Henc;
      by rewrite decide_True by (unfold Tracker.queueCap; simpl; lia)].
  erewrite run_cons; [|by unfold Tracker.step, Tracker.stepCaller; tr].
  erewrite run_cons;
    [|unfold Tracker.step, Tracker.stepResponder; tr; by rewrite lookup_insert_eq].
  erewrite run_cons; [|by unfold Tracker.step, Tracker.stepResponder; tr].
  erewrite run_cons; [|by unfold Tracker.step, Tracker.stepResponder; tr].
  erewrite run_cons;
    [|unfold Tracker.step, Tracker.stepResponder; tr; by rewrite both_open].
  erewrite run_cons; [|by unfold Tracker.step, Tracker.stepResponder; tr].
  erewrite run_cons; [|by unfold Tracker.step, Tracker.stepResponder; tr].
  erewrite run_cons; [|by unfold Tracker.step, Tracker.stepCaller; tr].
  eexists. split; reflexivity.
Qed.

Section Exchange.
Context {V : Type} `{GoValue V}.
Context `{JSON rpcMsg, JSON rpcPayloadRequest, JSON rpcPayloadResponse}.
Variables (A B : PeerID).
Variables (handlersA handlersB : gmap string (rpcHandler V)).
Variables (id method : string).
Hypothesis laws : CodecLaws (V := V) id method.

Lemma requestHandler_replied (h : rpcHandler V) (req : rpcPayloadRequest) :
  handlersB !! reqType req = Some h →
  replied A id h req
    (enqueued
       (recovering
          (λ r, "Exception whie processing incoming p2p RPC msg from '" +:+
                PeerID_String A +:+ "': " +:+ r)
          (requestHandler handlersB id A req))).
Proof.
  intros Hh. unfold requestHandler, getRPCHandler, sendResponse. rewrite Hh.
  destruct (UnmarshalInto (reqData req) (reflectNew (RequestStruct h)))
    as [x'|e] eqn:Hdec.
  - unfold bind, emit, invoke, ret.
    destruct (Func h A x') as [[r [e|]]|panic] eqn:Hf; simpl.
    + destruct (Marshal _) as [p|e'] eqn:Hp; simpl; [|constructor].
      eapply replied_failure; [|exact Hp]. discriminate.
    + destruct (MarshalAny r) as [br|e] eqn:Hr; simpl.
      * destruct (Marshal _) as [p|e'] eqn:Hp; simpl; [|constructor].
        by eapply replied_result.
      * destruct (Marshal _) as [p|e'] eqn:Hp; simpl; [|constructor].
        eapply replied_failure; [|exact Hp]. discriminate.
    + constructor.
  - destruct (Marshal _) as [p|e'] eqn:Hp; simpl; [|constructor].
    eapply replied_failure; [|exact Hp]. discriminate.
Qed.

Lemma rpcMsgReader_line (handlers : gmap string (rpcHandler V)) (peer : PeerID)
    (b : bytes) :
  newline ∉ b →
  concat (rpcMsgReader handlers peer ((b ++ [newline]) ++ []))
  = msgProcessor handlers peer (b ++ [newline]).
Proof.
  intros Hb. unfold rpcMsgReader. rewrite app_nil_r, dispatched_line by done.
  simpl. by rewrite app_nil_r.
Qed.

Lemma responded_one (peer : PeerID) (r : rpcPayloadResponse) :
  responded (V := V) id [Respond id peer r] = [(peer, r)].
Proof. unfold responded. simpl. by rewrite decide_True. Qed.

Lemma reply_none (enc : result rpcMsg) (atB : list (action V)) (y : V) :
  enqueued atB = [] → replyPath A B handlersA enc atB id method y = None.
Proof. intros Hq. unfold replyPath. rewrite Hq. reflexivity. Qed.

(** The response [B] enqueued, once [A] has decoded it to [r'], is what
    [responseHandler] answers the call with. *)
Lemma reply_some (msg : rpcMsg) (atB : list (action V)) (y : V)
    (resp r' : rpcPayloadResponse) (p b : bytes) :
  enqueued atB = [{| msgID := id; msgType := rpcResponse; msgPayload := p |}] →
  Marshal resp = Ok p →
  Unmarshal p = Ok r' →
  Marshal {| msgID := id; msgType := rpcResponse; msgPayload := p |} = Ok b →
  replyPath A B handlersA (Ok msg) atB id method y
  = Some (sendRequest_return
            (Tracker.Late
               (if decide (respError r' = "") then Tracker.FromResp (respData r')
                else Tracker.FromErr
                       (Some ("error returned by '" +:+ PeerID_String B +:+ "': " +:+
                              respError r'))))
            y).
Proof.
  intros Hq Hp Hr' Hm. unfold replyPath. rewrite Hq.
  cbn [rpcMsgWriter]. rewrite Hm.
  destruct (response_frame _ _ laws resp p b Hp Hm) as [Hnl Hun].
  cbn [fst]. rewrite rpcMsgReader_line by exact Hnl.
  unfold msgProcessor. rewrite Hun. cbn [msgType msgPayload msgID].
  rewrite decide_False by discriminate. rewrite decide_True by done.
  rewrite Hr'. cbn [emit recovering]. rewrite responded_one.
  destruct (run_inTime
    {| Tracker.id := id; Tracker.peerID := B; Tracker.method := method;
       Tracker.encoded := Ok msg; Tracker.tracker := 0;
       Tracker.response := r'; Tracker.responder := B |} msg eq_refl)
    as (s & -> & ->).
  reflexivity.
Qed.

Lemma reply_via (msg : rpcMsg) (atB : list (action V)) (y : V)
    (resp r' : rpcPayloadResponse) (p : bytes) :
  enqueued atB = [{| msgID := id; msgType := rpcResponse; msgPayload := p |}] →
  Marshal resp = Ok p →
  Unmarshal p = Ok r' →
  replyPath A B handlersA (Ok msg) atB id method y = None ∨
  replyPath A B handlersA (Ok msg) atB id method y
  = Some (sendRequest_return
            (Tracker.Late
               (if decide (respError r' = "") then Tracker.FromResp (respData r')
                else Tracker.FromErr
                       (Some ("error returned by '" +:+ PeerID_String B +:+ "': " +:+
                              respError r'))))
            y).
Proof.
  intros Hq Hp Hr'.
  destruct (Marshal {| msgID := id; msgType := rpcResponse; msgPayload := p |})
    as [b|e] eqn:Hm.
  - right. by eapply reply_some.
  - left. unfold replyPath. rewrite Hq. cbn [rpcMsgWriter]. by rewrite Hm.
Qed.

(** X18: the exchange does complete: when the request value and the
    handler's result encode, the four envelopes encode, the handler
    returns no error for the decoded request and its encoded result
    decodes into [y] as [y'], [sendRequest] returns no error and
    leaves [y'] in [y]. *)
Lemma rpc_round_trip_completes (x x' r y y' : V) (h : rpcHandler V)
    (bx breq b1 br p b2 : bytes) :
  handlersB !! method = Some h →
  MarshalAny x = Ok bx →
  Marshal {| reqType := method; reqData := bx |} = Ok breq →
  Marshal {| msgID := id; msgType := rpcRequest; msgPayload := breq |} = Ok b1 →
  UnmarshalInto bx (reflectNew (RequestStruct h)) = Ok x' →
  Func h A x' = Return (r, None) →
  MarshalAny r = Ok br →
  Marshal {| respError := ""; respData := br |} = Ok p →
  Marshal {| msgID := id; msgType := rpcResponse; msgPayload := p |} = Ok b2 →
  UnmarshalInto br y = Ok y' →
  exchange A B handlersA handlersB id method x y = Some (None, y').
Proof.
  intros Hh Hx Hreq Hmsg Hx' Hf Hr Hp Hm Hy.
  unfold exchange, sendRequest_encode. rewrite Hx, Hreq.
  cbn [rpcMsgWriter]. rewrite Hmsg.
  destruct (request_frame _ _ laws _ _ _ Hreq Hmsg) as [Hnl Hun].
  cbn [fst]. rewrite rpcMsgReader_line by exact Hnl.
  unfold msgProcessor at 1. rewrite Hun. cbn [msgType msgPayload msgID].
  rewrite decide_True by done.
  rewrite (request_round_trip _ _ laws x bx breq Hx Hreq).
  erewrite (reply_some _ _ y {| respError := ""; respData := br |}
              {| respError := ""; respData := br |} p b2); try done.
  - cbn [respError respData]. rewrite decide_True by done.
    cbn [sendRequest_return]. by rewrite Hy.
  - unfold requestHandler, getRPCHandler, sendResponse.
    cbn [reqType reqData]. rewrite Hh, Hx'.
    unfold bind, emit, invoke, ret. rewrite Hf. simpl. rewrite Hr. simpl.
    by rewrite Hp.
  - by eapply response_round_trip.
Qed.

(** C3: let [h] be the handler registered at [B] under [method]. When
    [A]'s [sendRequest(B, method, x, y)] completes with no error and
    leaves [y'] in [y], then [y'] is the handler's result for [x] up to
    the codec: [x] encodes, the bytes decode into a fresh value of the
    handler's request type, the handler returns a result and no error
    for it, the result encodes, and these bytes decode into [y] as
    [y']. The envelopes around the two payloads take no part. *)
Theorem rpc_round_trip (x y y' : V) (h : rpcHandler V) :
  handlersB !! method = Some h →
  exchange A B handlersA handlersB id method x y = Some (None, y') →
  ∃ bx x' r br,
    MarshalAny x = Ok bx ∧
    UnmarshalInto bx (reflectNew (RequestStruct h)) = Ok x' ∧
    Func h A x' = Return (r, None) ∧
    MarshalAny r = Ok br ∧
    UnmarshalInto br y = Ok y'.
Proof.
  intros Hh. unfold exchange, sendRequest_encode.
  destruct (MarshalAny x) as [bx|e] eqn:Hx; [|by rewrite reply_none].
  destruct (Marshal {| reqType := method; reqData := bx |}) as [breq|e] eqn:Hreq;
    [|by rewrite reply_none].
  cbn [rpcMsgWriter].
  destruct (Marshal {| msgID := id; msgType := rpcRequest; msgPayload := breq |})
    as [b|e] eqn:Hmsg; [|by rewrite reply_none].
  destruct (request_frame _ _ laws _ _ _ Hreq Hmsg) as [Hnl Hun].
  cbn [fst]. rewrite rpcMsgReader_line by exact Hnl.
  unfold msgProcessor at 1. rewrite Hun. cbn [msgType msgPayload msgID].
  rewrite decide_True by done.
  rewrite (request_round_trip _ _ laws x bx breq Hx Hreq).
  pose proof (requestHandler_replied h {| reqType := method; reqData := bx |} Hh)
    as Hrep.
  set (atB := recovering _ _) in *.
  inversion Hrep as [Hq | e p He Hp Hq | x' r br p Hx' Hf Hr Hp Hq].
  - by rewrite reply_none.
  - destruct (failure_round_trip _ _ laws e p He Hp) as (r' & Hr' & Herr).
    destruct (reply_via {| msgID := id; msgType := rpcRequest; msgPayload := breq |}
                atB y _ r' p (eq_sym Hq) Hp Hr') as [-> | ->]; [done|].
    rewrite decide_False by done. done.
  - pose proof (response_round_trip _ _ laws r br p Hr Hp) as Hr'.
    destruct (reply_via {| msgID := id; msgType := rpcRequest; msgPayload := breq |}
                atB y _ _ p (eq_sym Hq) Hp Hr') as [-> | ->]; [done|].
    cbn [respError respData]. rewrite decide_True by done.
    cbn [sendRequest_return]. destruct (UnmarshalInto br y) as [v|e] eqn:Hy; [|done].
    intros [= <-]. by exists bx, x', r, br.
Qed.
End Exchange.

Import Plain.

Lemma free_spec (c : byte) (b : bytes) : free c b = true ↔ c ∉ b.
Proof.
  unfold free. induction b as [|x b IH]; simpl.
  - split; [intros _; apply not_elem_of_nil | done].
  - rewrite andb_true_iff, IH, not_elem_of_cons, negb_true_iff.
    split; intros [Hx Hb]; (split; [|done]).
    + intros ->. by rewrite (proj2 (FramerFacts.byte_eqb_eq x x) eq_refl) in Hx.
    + destruct (Byte.eqb x c) eqn:Hxc; [|done].
      apply FramerFacts.byte_eqb_eq in Hxc. congruence.
Qed.

Lemma cut_app (l p : bytes) : free sep l = true → cut (l ++ sep :: p) = Some (l, p).
Proof.
  induction l as [|x l IH]; simpl; [done|].
  rewrite andb_true_iff, negb_true_iff. intros [-> Hl]. by rewrite IH.
Qed.

Lemma chomp_app (b : bytes) : chomp (b ++ [newline]) = b.
Proof.
  induction b as [|x b IH]; [done|].
  simpl. rewrite IH. by destruct b.
Qed.

Lemma split_join (a : string) (p b : bytes) :
  join a p = Ok b → split b = Ok (a, p) ∧ newline ∉ b.
Proof.
  unfold join, clean. destruct (_ && _) eqn:Hc; [|done]. intros [= <-].
  apply andb_true_iff in Hc as [Ha Hp]. apply andb_true_iff in Ha as [Hsep Hnl].
  split.
  - unfold split. rewrite cut_app by done. unfold ofBytes, toBytes.
    by rewrite String.string_of_list_byte_of_string.
  - rewrite not_elem_of_app, not_elem_of_cons. by rewrite <- !free_spec.
Qed.

Lemma split3_join3 (a t : string) (p b : bytes) :
  join3 a t p = Ok b → split3 (b ++ [newline]) = Ok (a, t, p) ∧ newline ∉ b.
Proof.
  unfold join3, split3. destruct (join t p) as [inner|e] eqn:Hin; [|done].
  intros Hb. destruct (split_join _ _ _ Hb) as [Hsb Hnl].
  destruct (split_join _ _ _ Hin) as [Hs _].
  by rewrite chomp_app, Hsb, Hs.
Qed.

(** The line codec keeps the laws, whatever the id and the method. *)
Lemma plain_laws (id method : string) : CodecLaws (V := string) id method.
Proof.
  split.
  - intros _ data b _ Hb. simpl in *. by destruct (split_join _ _ _ Hb) as [-> _].
  - intros _ data b _ Hb. simpl in *. by destruct (split_join _ _ _ Hb) as [-> _].
  - intros e b He Hb. simpl in *. destruct (split_join _ _ _ Hb) as [-> _]. eauto.
  - intros _ p b _ Hb. simpl in *. destruct (split3_join3 _ _ _ _ Hb) as [-> Hnl]. done.
  - intros _ p b _ Hb. simpl in *. destruct (split3_join3 _ _ _ _ Hb) as [-> Hnl]. done.
Qed.

(** C3 at the first end-to-end scenario: [A] sends [hello] to the ping
    handler of [B] and finds [Ping: hello!] in its response value. *)
Lemma rpc_round_trip_ping :
  ∃ bx x' r br,
    MarshalAny "hello" = Ok bx ∧
    UnmarshalInto bx (reflectNew (RequestStruct ping)) = Ok x' ∧
    Func ping "A" x' = Return (r, None) ∧
    MarshalAny r = Ok br ∧
    UnmarshalInto br "" = Ok "Ping: hello!".
Proof.
  refine (rpc_round_trip "A" "B" ∅ handlers anID "ping" (plain_laws anID "ping")
            "hello" "" "Ping: hello!" ping _ _).
  - reflexivity.
  - vm_compute. reflexivity.
Defined.

(** The exchange itself, evaluated. *)
Example exchange_ping :
  exchange "A" "B" ∅ handlers anID "ping" "hello" "" = Some (None, "Ping: hello!").
Proof. vm_compute. reflexivity. Qed.

End NetworkFacts.

(** ** The client bring-up *)

Module ClientFacts.
Import Client.

Lemma Contains_append (p s sub : string) :
  Contains s sub = true → Contains (p +:+ s) sub = true.
Proof.
  intros Hs. induction p as [|a p IH]; simpl; [exact Hs|].
  rewrite IH. apply orb_true_r.
Qed.

Section Build.
Variable Ping : nat → call (option error).

(** The loop stops at the first call that returns no error or panics,
    and at call number [retries] whatever it does. *)
Lemma pingLoop_stops (k fuel tries : nat) :
  (∀ j, tries ≤ j → j < k → ∃ e, Ping j = Return (Some e)) →
  tries ≤ k → k ≤ retries → k - tries < fuel →
  (k = retries ∨ ∀ e, Ping k ≠ Return (Some e)) →
  pingLoop Ping fuel tries = Some (leaves (Ping k), k).
Proof.
  revert tries. induction fuel as [|fuel IH]; intros tries Hf Hle Hk Hfuel Hlast; [lia|].
  destruct (decide (tries = k)) as [->|Hne].
  - simpl. destruct (Ping k) as [[e|]|r]; try done.
    destruct Hlast as [->|Hlast]; [|by destruct (Hlast e)].
    by rewrite Nat.ltb_irrefl.
  - simpl. destruct (Hf tries) as [e He]; [lia..|]. rewrite He.
    replace (tries <? retries) with true by (symmetry; apply Nat.ltb_lt; lia).
    apply IH; [intros j ? ?; apply Hf; lia|lia..|done].
Qed.

Lemma pingLoop_total (fuel tries : nat) :
  tries ≤ retries → retries - tries < fuel →
  ∃ x k, pingLoop Ping fuel tries = Some (x, k) ∧ tries ≤ k ∧ k ≤ retries.
Proof.
  revert tries. induction fuel as [|fuel IH]; intros tries Hle Hfuel; [lia|].
  simpl. destruct (Ping tries) as [[e|]|r].
  - destruct (tries <? retries) eqn:Hlt.
    + apply Nat.ltb_lt in Hlt. destruct (IH (S tries)) as (x & k & -> & ? & ?); [lia..|].
      exists x, k. split; [done|lia].
    + eexists _, _. split; [done|lia].
  - eexists _, _. split; [done|lia].
  - eexists _, _. split; [done|lia].
Qed.

(** The calls beyond number [retries] have no part in the loop. *)
Lemma pingLoop_ext (Ping' : nat → call (option error)) (fuel tries : nat) :
  (∀ j, j ≤ retries → Ping j = Ping' j) → tries ≤ retries →
  pingLoop Ping fuel tries = pingLoop Ping' fuel tries.
Proof.
  intros Hext. revert tries. induction fuel as [|fuel IH]; intros tries Hle; [done|].
  simpl. rewrite <- Hext by done. destruct (Ping tries) as [[e|]|r]; try done.
  destruct (tries <? retries) eqn:Hlt; [|done].
  apply Nat.ltb_lt in Hlt. apply IH. lia.
Qed.

End Build.

(** X1: [createClientForPeer] always returns, after at most 20 calls of
    [client.Ping] and a sleep of 200 ms after each call but the last,
    3800 ms at most; what a 21st call or a later one would do has no
    part in its result. *)
Theorem client_at_most_20_pings :
  (∀ (Ping : nat → call (option error)) (peerID : PeerID),
     ∃ b, createClientForPeer Ping peerID = Some b ∧
          pings b ≤ 20 ∧
          slept b = (200 * N.of_nat (pings b - 1))%N ∧
          (slept b ≤ 3800)%N) ∧
  (∀ (Ping Ping' : nat → call (option error)) (peerID : PeerID),
     (∀ j, j < 20 → Ping j = Ping' j) →
     createClientForPeer Ping peerID = createClientForPeer Ping' peerID).
Proof.
  split.
  - intros Ping peerID. unfold createClientForPeer.
    destruct (pingLoop_total Ping (S retries) 0) as (x & k & -> & _ & Hk);
      [unfold retries; lia..|].
    unfold retries in Hk.
    destruct x; eexists; (split; [reflexivity|]); simpl;
      rewrite Nat.sub_0_r; unfold pause; (split; [lia|split; lia]).
  - intros Ping Ping' peerID Hext. unfold createClientForPeer.
    rewrite (pingLoop_ext Ping Ping'); [done| |lia].
    intros j Hj. apply Hext. unfold retries in Hj. lia.
Qed.

(** X1 at two peers that differ from the 21st call on. *)
Lemma client_at_most_20_pings_same :
  createClientForPeer (readyAt 20 "busy") "B" = createClientForPeer (readyAt 30 "busy") "B".
Proof.
  apply (proj2 client_at_most_20_pings). intros j Hj. unfold readyAt.
  replace (j <? 20) with true by (symmetry; apply Nat.ltb_lt; lia).
  replace (j <? 30) with true by (symmetry; apply Nat.ltb_lt; lia).
  reflexivity.
Defined.

(** X2: when the calls of [client.Ping] before number [k], [k] at most
    19, return errors and call number [k] returns none,
    [createClientForPeer] returns the client and no error, having made
    [k + 1] calls and slept [200 * k] milliseconds. *)
Theorem client_first_success (Ping : nat → call (option error)) (peerID : PeerID)
    (k : nat) :
  k ≤ 19 →
  (∀ j, j < k → ∃ e, Ping j = Return (Some e)) →
  Ping k = Return None →
  createClientForPeer Ping peerID
  = Some {| client := Some {| peer := peerID |}; err := None;
            pings := S k; slept := 200 * N.of_nat k |}.
Proof.
  intros Hk Hfail Hok. unfold createClientForPeer.
  rewrite (pingLoop_stops Ping k);
    [|intros j _ ?; by apply Hfail|unfold retries; lia..|right; congruence].
  by rewrite Hok.
Qed.

(** X2 at a peer that answers its fourth ping. *)
Lemma client_first_success_fourth :
  createClientForPeer (readyAt 3 "busy") "B"
  = Some {| client := Some {| peer := "B" |}; err := None; pings := 4; slept := 600 |}.
Proof.
  refine (client_first_success (readyAt 3 "busy") "B" 3 _ _ _).
  - lia.
  - intros j Hj. exists "busy". unfold readyAt.
    by replace (j <? 3) with true by (symmetry; apply Nat.ltb_lt; lia).
  - reflexivity.
Defined.

(** X3: when the first 20 calls of [client.Ping] all return errors,
    [createClientForPeer] gives up: it returns a nil client and the
    error of the 20th call, the last one alone, having slept 3800
    milliseconds. *)
Theorem client_gives_up (Ping : nat → call (option error)) (peerID : PeerID)
    (e : error) :
  (∀ j, j < 19 → ∃ e', Ping j = Return (Some e')) →
  Ping 19 = Return (Some e) →
  createClientForPeer Ping peerID
  = Some {| client := None; err := Some e; pings := 20; slept := 3800 |}.
Proof.
  intros Hfail Hlast. unfold createClientForPeer.
  rewrite (pingLoop_stops Ping 19);
    [|intros j _ ?; by apply Hfail|unfold retries; lia..|by left].
  rewrite Hlast. reflexivity.
Qed.

(** X3 at a peer that would answer its 21st ping. *)
Lemma client_gives_up_before_21st :
  createClientForPeer (readyAt 20 "busy") "B"
  = Some {| client := None; err := Some "busy"; pings := 20; slept := 3800 |}.
Proof.
  refine (client_gives_up (readyAt 20 "busy") "B" "busy" _ _).
  - intros j Hj. exists "busy". unfold readyAt.
    by replace (j <? 20) with true by (symmetry; apply Nat.ltb_lt; lia).
  - reflexivity.
Defined.

(** X4: when a call of [client.Ping] panics, the calls before it having
    returned errors, the deferred function recovers: the error returned
    is "exception whie building p2p client: " followed by the panic
    value, or "timeout waiting for p2p client" when the panic value
    contains "timeout waiting for request"; the client returned with
    it is not nil. *)
Theorem client_panic_recovered (Ping : nat → call (option error)) (peerID : PeerID)
    (k : nat) (r : string) :
  k ≤ 19 →
  (∀ j, j < k → ∃ e, Ping j = Return (Some e)) →
  Ping k = Panic r →
  createClientForPeer Ping peerID
  = Some {| client := Some {| peer := peerID |}; err := Some (recovered r);
            pings := S k; slept := 200 * N.of_nat k |} ∧
  (Contains r "timeout waiting for request" = true →
     recovered r = "timeout waiting for p2p client") ∧
  (Contains ("exception whie building p2p client: " +:+ r)
            "timeout waiting for request" = false →
     recovered r = "exception whie building p2p client: " +:+ r).
Proof.
  intros Hk Hfail Hp. split; [|split].
  - unfold createClientForPeer.
    rewrite (pingLoop_stops Ping k);
      [|intros j _ ?; by apply Hfail|unfold retries; lia..|right; congruence].
    by rewrite Hp.
  - intros Hc. unfold recovered.
    by rewrite (Contains_append "exception whie building p2p client: " _ _ Hc).
  - intros Hc. unfold recovered. by rewrite Hc.
Qed.

(** X4 at a peer whose second ping panics with the timeout of
    [sendRequest]. *)
Lemma client_panic_recovered_timeout :
  createClientForPeer (timesOutAt 1 "busy") "B"
  = Some {| client := Some {| peer := "B" |};
            err := Some "timeout waiting for p2p client";
            pings := 2; slept := 200 |}.
Proof.
  destruct (client_panic_recovered (timesOutAt 1 "busy") "B" 1
              "timeout waiting for request 'x'(ping) to peer 'B'") as (Hrun & Ht & _).
  - lia.
  - intros j Hj. exists "busy". unfold timesOutAt.
    by replace (j <? 1) with true by (symmetry; apply Nat.ltb_lt; lia).
  - reflexivity.
  - rewrite Hrun, Ht; reflexivity.
Defined.

End ClientFacts.

(** ** Workers as pairs *)

Module PairsFacts.
Import Workers Pairs.

Lemma NoDup_fmap_eq {A B : Type} (f : A → B) (l : list A) (x y : A) :
  NoDup (f <$> l) → x ∈ l → y ∈ l → f x = f y → x = y.
Proof.
  induction l as [|a l IH]; intros Hnd Hx Hy Hf; [by apply elem_of_nil in Hx|].
  simpl in Hnd. apply NoDup_cons in Hnd as [Ha Hnd].
  apply elem_of_cons in Hx as [->|Hx]; apply elem_of_cons in Hy as [->|Hy]; try done.
  - exfalso. apply Ha. rewrite Hf. by apply list_elem_of_fmap_2.
  - exfalso. apply Ha. rewrite <- Hf. by apply list_elem_of_fmap_2.
  - by apply IH.
Qed.

(** Two registered processors never hold the same context. *)
Lemma contexts_differ (st : state) (k1 k2 : string) (w1 w2 : rpcMsgProcessor) :
  inv st → paired st →
  rpcMsgProcessors st !! k1 = Some w1 → rpcMsgProcessors st !! k2 = Some w2 →
  Stop w1 = Stop w2 → k1 = k2.
Proof.
  intros Hinv Hp H1 H2 Heq.
  destruct (pair_tasks _ Hp _ _ H1) as (_ & s1 & <- & Hr1 & _).
  destruct (pair_tasks _ Hp _ _ H2) as (_ & s2 & <- & Hr2 & _).
  assert (rpcMsgReader s1 (WriteQueue w1) (Stop w1)
          = rpcMsgReader s2 (WriteQueue w2) (Stop w2)) as Ht.
  { eapply (NoDup_fmap_eq taskCtx); [exact (inv_readers _ Hinv)| | |done].
    - by apply list_elem_of_filter.
    - by apply list_elem_of_filter. }
  by injection Ht as ->.
Qed.

Lemma paired_NewManager : paired NewManager.
Proof.
  split; simpl.
  - intros key w Hw. by rewrite lookup_empty in Hw.
  - intros key w Hw. by rewrite lookup_empty in Hw.
  - intros c Hc. by apply not_elem_of_empty in Hc.
  - intros c Hc. by apply elem_of_nil in Hc.
  - intros key w c Hw. by rewrite lookup_empty in Hw.
Qed.

Lemma paired_insertWorker (s : Stream) (st : state) :
  paired st → paired (insertWorker s st).
Proof.
  intros [Ht Hm Hc Hcl Hap]. unfold insertWorker, SetIfAbsent.
  destruct (rpcMsgProcessors st !! PeerID_String (RemotePeer s)) as [w0|] eqn:Hs.
  { (* the insertion fails *)
    split; simpl; rewrite ?app_nil_r; try done.
    - intros key w Hw. specialize (Hm _ _ Hw). lia.
    - intros c Hin. specialize (Hc _ Hin). lia.
    - intros c Hin. specialize (Hcl _ Hin). lia. }
  split; simpl.
  - intros key w Hw. destruct (decide (PeerID_String (RemotePeer s) = key)) as [<-|Hne].
    + rewrite lookup_insert_eq in Hw. injection Hw as <-. simpl. split.
      { intros Hin. specialize (Hc _ Hin). lia. }
      exists s. split; [done|]. split; apply elem_of_app; right.
      * by left.
      * right. by left.
    + rewrite lookup_insert_ne in Hw by done.
      destruct (Ht _ _ Hw) as (Hnc & s' & Hk & Hr & Hwr). split; [done|].
      exists s'. split; [done|]. split; apply elem_of_app; by left.
  - intros key w Hw. destruct (decide (PeerID_String (RemotePeer s) = key)) as [<-|Hne].
    + rewrite lookup_insert_eq in Hw. injection Hw as <-. simpl. lia.
    + rewrite lookup_insert_ne in Hw by done. specialize (Hm _ _ Hw). lia.
  - intros c Hin. specialize (Hc _ Hin). lia.
  - intros c Hin. specialize (Hcl _ Hin). lia.
  - intros key w c Hw Hin.
    destruct (decide (PeerID_String (RemotePeer s) = key)) as [<-|Hne].
    + rewrite lookup_insert_eq in Hw. injection Hw as <-. simpl.
      specialize (Hcl _ Hin). lia.
    + rewrite lookup_insert_ne in Hw by done. by eapply Hap.
Qed.

Lemma paired_handle (st : state) (e : event) :
  inv st → paired st → paired (handle st e).
Proof.
  intros Hinv Hp. destruct e as [s|s|peer|i]; simpl.
  - unfold newRPCStreamHandler.
    destruct (rpcMsgProcessors st !! PeerID_String (RemotePeer s)) eqn:Hs; [done|].
    by apply paired_insertWorker.
  - by apply paired_insertWorker.
  - unfold closeConnectionHandler_Pop, Pop.
    destruct (rpcMsgProcessors st !! PeerID_String peer) as [w0|] eqn:Hw0; [|done].
    pose proof Hp as [Ht Hm Hc Hcl Hap]. split; simpl.
    + intros key w Hw. apply lookup_delete_Some in Hw as [Hne Hw]. by apply Ht.
    + intros key w Hw. apply lookup_delete_Some in Hw as [_ Hw]. by eapply Hm.
    + done.
    + intros c Hin. apply elem_of_app in Hin as [Hin|Hin]; [by apply Hcl|].
      apply list_elem_of_singleton in Hin as ->. simpl. by eapply Hm.
    + intros key w c Hw Hin. apply lookup_delete_Some in Hw as [Hne Hw].
      apply elem_of_app in Hin as [Hin|Hin]; [by eapply Hap|].
      apply list_elem_of_singleton in Hin as ->. simpl. intros Heq.
      apply Hne. symmetry. by eapply (contexts_differ st).
  - unfold closeConnectionHandler_Stop.
    destruct (closing st !! i) as [[k w0]|] eqn:Hi; [|done].
    pose proof Hp as [Ht Hm Hc Hcl Hap].
    assert ((k, w0) ∈ closing st) as Hin0 by (by eapply list_elem_of_lookup_2).
    split; simpl.
    + intros key w Hw. destruct (Ht _ _ Hw) as (Hnc & Hs). split; [|done].
      apply not_elem_of_union. split; [|done]. intros Hin.
      apply elem_of_singleton in Hin. by apply (Hap _ _ _ Hw Hin0).
    + done.
    + intros c Hin. apply elem_of_union in Hin as [Hin|Hin]; [|by apply Hc].
      apply elem_of_singleton in Hin as ->. by apply (Hcl _ Hin0).
    + intros c Hin. apply Hcl. by eapply list_elem_of_delete_inv.
    + intros key w c Hw Hin. eapply Hap; [done|]. by eapply list_elem_of_delete_inv.
Qed.

Lemma reachable (events : list event) : inv (after events) ∧ paired (after events).
Proof.
  unfold after.
  assert (∀ st, inv st → paired st →
                inv (foldl handle st events) ∧ paired (foldl handle st events)) as Hgen.
  { induction events as [|e events IH]; intros st Hi Hp; [done|].
    simpl. apply IH; [by apply WorkersFacts.inv_handle | by apply paired_handle]. }
  apply Hgen; [apply WorkersFacts.inv_NewManager | apply paired_NewManager].
Qed.

(** A list of at most one element that holds [x] is [[x]]. *)
Lemma only_one {A : Type} (l : list A) (x : A) : x ∈ l → length l ≤ 1 → l = [x].
Proof.
  destruct l as [|a [|b l]]; simpl; intros Hx Hlen; try lia.
  - by apply elem_of_nil in Hx.
  - by apply list_elem_of_singleton in Hx as ->.
Qed.

(** The reader and the writer of a registered processor are among
    the goroutines of its peer that are not cancelled. *)
Lemma pair_live (st : state) (peer : PeerID) (w : rpcMsgProcessor) :
  paired st → rpcMsgProcessors st !! PeerID_String peer = Some w →
  ∃ s, RemotePeer s = peer ∧
       rpcMsgReader s (WriteQueue w) (Stop w) ∈ liveReaders peer st ∧
       rpcMsgWriter s (WriteQueue w) (Stop w) ∈ liveWriters peer st.
Proof.
  intros Hp Hw. destruct (pair_tasks _ Hp _ _ Hw) as (Hnc & s & Hk & Hr & Hwr).
  exists s. split; [exact Hk|].
  split; apply list_elem_of_filter; by repeat split.
Qed.

(** With no close handler of the peer waiting, the goroutines of a
    registered peer that are not cancelled are one reader and one
    writer, on one stream, with the queue and the context of the
    processor. *)
Lemma pair_of (st : state) (peer : PeerID) (w : rpcMsgProcessor) :
  inv st → paired st → settled peer st →
  rpcMsgProcessors st !! PeerID_String peer = Some w →
  ∃ s, RemotePeer s = peer ∧
       liveReaders peer st = [rpcMsgReader s (WriteQueue w) (Stop w)] ∧
       liveWriters peer st = [rpcMsgWriter s (WriteQueue w) (Stop w)].
Proof.
  intros Hinv Hp Hset Hw.
  destruct (pair_live st peer w Hp Hw) as (s & Hs & Hr & Hwr).
  assert (length (unstopped peer st) = 1) as Hone.
  { unfold unstopped. unfold settled in Hset. by rewrite Hw, Hset. }
  exists s. split; [exact Hs|]. split; apply only_one; try done.
  - rewrite <- Hone. apply (WorkersFacts.live_bound true peer st Hinv).
  - rewrite <- Hone. apply (WorkersFacts.live_bound false peer st Hinv).
Qed.

(** With no close handler of the peer waiting, a peer without
    processor has no goroutine that is not cancelled. *)
Lemma none_live (st : state) (peer : PeerID) :
  inv st → settled peer st → rpcMsgProcessors st !! PeerID_String peer = None →
  liveReaders peer st = [] ∧ liveWriters peer st = [].
Proof.
  intros Hinv Hset Hnone.
  assert (length (unstopped peer st) = 0) as Hzero.
  { unfold unstopped. unfold settled in Hset. by rewrite Hnone, Hset. }
  pose proof (WorkersFacts.live_bound true peer st Hinv) as Hr.
  pose proof (WorkersFacts.live_bound false peer st Hinv) as Hw.
  rewrite Hzero in Hr, Hw. split; apply length_zero_iff_nil.
  - unfold liveReaders. lia.
  - unfold liveWriters. lia.
Qed.

(** X5: a worker is one reader and one writer on one stream. However
    the stream handlers and the close handlers have interleaved, the
    reader and the writer started for the processor a peer has
    registered are among the goroutines of the peer that are not
    cancelled, on one stream and with the queue and the context the
    processor holds; every goroutine of the peer that is not cancelled
    holds the context of a processor of the peer that is registered or
    in the hands of a close handler that waits; and with no close
    handler of the peer waiting between its [Pop] and its [Stop], the
    peer has an entry exactly when it has such goroutines, which are
    then that one reader and that one writer. *)
Theorem worker_is_one_pair (events : list event) (peer : PeerID) :
  let st := after events in
  (∀ w, rpcMsgProcessors st !! PeerID_String peer = Some w →
     ∃ s, RemotePeer s = peer ∧
          rpcMsgReader s (WriteQueue w) (Stop w) ∈ liveReaders peer st ∧
          rpcMsgWriter s (WriteQueue w) (Stop w) ∈ liveWriters peer st) ∧
  (∀ t, t ∈ liveReaders peer st ++ liveWriters peer st →
     ∃ w, w ∈ unstopped peer st ∧ Stop w = taskCtx t) ∧
  (settled peer st →
     match rpcMsgProcessors st !! PeerID_String peer with
     | Some w =>
         ∃ s, RemotePeer s = peer ∧
              liveReaders peer st = [rpcMsgReader s (WriteQueue w) (Stop w)] ∧
              liveWriters peer st = [rpcMsgWriter s (WriteQueue w) (Stop w)]
     | None => liveReaders peer st = [] ∧ liveWriters peer st = []
     end).
Proof.
  intros st. destruct (reachable events) as [Hinv Hp]. fold st in Hinv, Hp.
  split; [|split].
  - intros w Hw. by apply pair_live.
  - intros t Ht.
    assert (t ∈ started st ∧ taskPeer t = peer ∧ taskCtx t ∉ cancelled st)
      as (Hin & Hpeer & Hc).
    { apply elem_of_app in Ht as [Ht|Ht];
        apply list_elem_of_filter in Ht as [(_ & ? & ?) ?]; done. }
    destruct (inv_live _ Hinv t Hin Hc) as (w & Hw & Hs). rewrite Hpeer in Hw. eauto.
  - intros Hset.
    destruct (rpcMsgProcessors st !! PeerID_String peer) as [w|] eqn:Hw.
    + by apply pair_of.
    + by apply none_live.
Qed.

(** X5 at a stream of [B] and nothing else. *)
Lemma worker_is_one_pair_first :
  ∃ s, RemotePeer s = "B" ∧
       liveReaders "B" (after [StreamOpened stream1]) = [rpcMsgReader s 0 1] ∧
       liveWriters "B" (after [StreamOpened stream1]) = [rpcMsgWriter s 0 1].
Proof.
  exact (proj2 (proj2 (worker_is_one_pair [StreamOpened stream1] "B")) eq_refl).
Defined.

(** [closeConnectionHandler] run without interruption: the entry is
    popped and its context cancelled, and no handler is left waiting
    that did not wait before. *)
Lemma closeConnectionHandler_found (peer : PeerID) (st : state) (w0 : rpcMsgProcessor) :
  rpcMsgProcessors st !! PeerID_String peer = Some w0 →
  closeConnectionHandler peer st
  = {| rpcMsgProcessors := delete (PeerID_String peer) (rpcMsgProcessors st);
       started := started st; cancelled := {[Stop w0]} ∪ cancelled st;
       made := made st; closing := closing st |}.
Proof.
  intros Hw0. unfold closeConnectionHandler, closeConnectionHandler_Pop, Pop.
  rewrite Hw0. unfold closeConnectionHandler_Stop. cbn [closing].
  rewrite list_lookup_middle by done. cbn [rpcMsgProcessors started cancelled made].
  by rewrite delete_middle, app_nil_r.
Qed.

Lemma closeConnectionHandler_absent (peer : PeerID) (st : state) :
  rpcMsgProcessors st !! PeerID_String peer = None → closeConnectionHandler peer st = st.
Proof.
  intros Hnone. unfold closeConnectionHandler, closeConnectionHandler_Pop, Pop.
  rewrite Hnone. unfold closeConnectionHandler_Stop.
  by rewrite lookup_ge_None_2.
Qed.

(** Filters that agree on the elements of a list give the same list. *)
Lemma filter_agree {A : Type} (P Q : A → Prop) `{!∀ x, Decision (P x)}
    `{!∀ x, Decision (Q x)} (l : list A) :
  (∀ x, x ∈ l → P x ↔ Q x) → filter P l = filter Q l.
Proof.
  induction l as [|a l IH]; intros Hpq; [done|].
  rewrite !filter_cons.
  assert (filter P l = filter Q l) as ->.
  { apply IH. intros x Hx. apply Hpq. by right. }
  assert (P a ↔ Q a) as Ha by (apply Hpq; by left).
  destruct (decide (P a)), (decide (Q a)); tauto.
Qed.

(** Cancelling the context of the processor of one peer leaves the
    goroutines of the other peers as they are. *)
Lemma others_live (st : state) (peer other : PeerID) (b : bool) :
  inv st → paired st → other ≠ peer →
  filter (λ t, isReader t = b ∧ taskPeer t = other ∧
               taskCtx t ∉ cancelled (closeConnectionHandler peer st))
         (started (closeConnectionHandler peer st))
  = filter (λ t, isReader t = b ∧ taskPeer t = other ∧ taskCtx t ∉ cancelled st)
           (started st).
Proof.
  intros Hinv Hp Hne.
  destruct (rpcMsgProcessors st !! PeerID_String peer) as [w0|] eqn:Hw0;
    [|by rewrite closeConnectionHandler_absent].
  rewrite (closeConnectionHandler_found peer st w0 Hw0). simpl.
  destruct (pair_tasks _ Hp _ _ Hw0) as (_ & s0 & Hk0 & Hr0 & Hwr0).
  apply filter_agree. intros t Ht. split.
  - intros (Hb & Hpeer & Hc). apply not_elem_of_union in Hc as [_ Hc]. done.
  - intros (Hb & Hpeer & Hc). split; [done|]. split; [done|].
    apply not_elem_of_union. split; [|done]. intros Hin.
    apply elem_of_singleton in Hin. apply Hne.
    destruct t as [s q c|s q c]; simpl in *; subst.
    + assert (rpcMsgReader s q (Stop w0) = rpcMsgReader s0 (WriteQueue w0) (Stop w0))
        as Heq.
      { eapply (NoDup_fmap_eq taskCtx); [exact (inv_readers _ Hinv)| | |done];
          by apply list_elem_of_filter. }
      injection Heq as -> _. by unfold PeerID_String in Hk0.
    + assert (rpcMsgWriter s q (Stop w0) = rpcMsgWriter s0 (WriteQueue w0) (Stop w0))
        as Heq.
      { eapply (NoDup_fmap_eq taskCtx); [exact (inv_writers _ Hinv)| | |done];
          by apply list_elem_of_filter. }
      injection Heq as -> _. by unfold PeerID_String in Hk0.
Qed.

(** X6: the two halves of [closeConnectionHandler]. Its [Pop] takes
    the entry of the peer away and cancels nothing: the goroutines of
    every peer that were not cancelled still are not, while the
    handler waits for its send on [peerListChan]. When the handler
    runs from its [Pop] to its [Stop] with no other handler in
    between, and no earlier close handler of the peer is still
    waiting, the peer is left with no entry and no goroutine that is
    not cancelled; and the entries and the goroutines of every other
    peer are as before. *)
Theorem disconnect_stops_the_worker (events : list event) (peer : PeerID) :
  let st := after events in
  let popped := closeConnectionHandler_Pop peer st in
  let st' := closeConnectionHandler peer st in
  (rpcMsgProcessors popped !! PeerID_String peer = None ∧
   ∀ p, liveReaders p popped = liveReaders p st ∧
        liveWriters p popped = liveWriters p st) ∧
  (settled peer st →
     rpcMsgProcessors st' !! PeerID_String peer = None ∧
     liveReaders peer st' = [] ∧ liveWriters peer st' = []) ∧
  (∀ other, other ≠ peer →
     rpcMsgProcessors st' !! PeerID_String other
     = rpcMsgProcessors st !! PeerID_String other ∧
     liveReaders other st' = liveReaders other st ∧
     liveWriters other st' = liveWriters other st).
Proof.
  intros st popped st'.
  destruct (reachable events) as [Hinv Hp]. fold st in Hinv, Hp.
  assert (inv st') as Hinv'.
  { apply (WorkersFacts.inv_handle _ (PeersSent (length (closing st)))).
    by apply (WorkersFacts.inv_handle st (Disconnected peer)). }
  assert (rpcMsgProcessors st' !! PeerID_String peer = None ∧ closing st' = closing st)
    as [Hgone Hcl].
  { unfold st'. destruct (rpcMsgProcessors st !! PeerID_String peer) as [w0|] eqn:Hw0.
    - rewrite (closeConnectionHandler_found peer st w0 Hw0). simpl.
      by rewrite lookup_delete_eq.
    - by rewrite closeConnectionHandler_absent. }
  split; [|split].
  - unfold popped, closeConnectionHandler_Pop, Pop.
    destruct (rpcMsgProcessors st !! PeerID_String peer) as [w0|] eqn:Hw0; simpl.
    + split; [apply lookup_delete_eq|]. done.
    + done.
  - intros Hset. split; [exact Hgone|]. apply none_live; [exact Hinv'| |exact Hgone].
    unfold settled, waiting in *. by rewrite Hcl.
  - intros other Hne. split; [|split].
    + unfold st'. destruct (rpcMsgProcessors st !! PeerID_String peer) as [w0|] eqn:Hw0.
      * rewrite (closeConnectionHandler_found peer st w0 Hw0). simpl.
        apply lookup_delete_ne. unfold PeerID_String. congruence.
      * by rewrite closeConnectionHandler_absent.
    + by apply others_live.
    + by apply others_live.
Qed.

(** X6 at the close of the connection to [B], its one stream handled
    before. *)
Lemma disconnect_stops_the_worker_first :
  rpcMsgProcessors (closeConnectionHandler "B" (after [StreamOpened stream1])) !! "B"
  = None ∧
  liveReaders "B" (closeConnectionHandler "B" (after [StreamOpened stream1])) = [] ∧
  liveWriters "B" (closeConnectionHandler "B" (after [StreamOpened stream1])) = [].
Proof.
  exact (proj1 (proj2 (disconnect_stops_the_worker [StreamOpened stream1] "B")) eq_refl).
Defined.

(** The sends of close handlers going through leave the entries as
    they are. *)
Lemma stops_keep_entries (stops : list nat) (st : state) :
  rpcMsgProcessors (foldl handle st (PeersSent <$> stops)) = rpcMsgProcessors st.
Proof.
  revert st. induction stops as [|i stops IH]; intros st; [done|].
  simpl. rewrite IH. unfold closeConnectionHandler_Stop.
  by destruct (closing st !! i) as [[k w]|].
Qed.

(** X7: a stream the peer opens after the close handler has popped
    its worker is served. Whatever happened before, once the [Pop] of
    a close handler for the peer has run, and whether or not that
    handler or others have got to their [Stop], [newRPCStreamHandler]
    on a stream of the peer registers a processor whose context is not
    cancelled and starts a reader and a writer on that stream, which
    are among the goroutines of the peer that are not cancelled; they
    are the only ones when no close handler of the peer is waiting any
    more. *)
Theorem reconnect_is_served (events : list event) (s : Stream) (stops : list nat) :
  let st := after (events ++ [Disconnected (RemotePeer s)] ++
                   (PeersSent <$> stops) ++ [StreamOpened s]) in
  ∃ w, rpcMsgProcessors st !! PeerID_String (RemotePeer s) = Some w ∧
       (Stop w ∉ cancelled st) ∧
       rpcMsgReader s (WriteQueue w) (Stop w) ∈ liveReaders (RemotePeer s) st ∧
       rpcMsgWriter s (WriteQueue w) (Stop w) ∈ liveWriters (RemotePeer s) st ∧
       (settled (RemotePeer s) st →
          liveReaders (RemotePeer s) st = [rpcMsgReader s (WriteQueue w) (Stop w)] ∧
          liveWriters (RemotePeer s) st = [rpcMsgWriter s (WriteQueue w) (Stop w)]).
Proof.
  intros st.
  destruct (reachable (events ++ [Disconnected (RemotePeer s)] ++
                       (PeersSent <$> stops) ++ [StreamOpened s])) as [Hinv Hp].
  fold st in Hinv, Hp.
  set (st0 := foldl handle (closeConnectionHandler_Pop (RemotePeer s) (after events))
                (PeersSent <$> stops)).
  assert (st = newRPCStreamHandler s st0) as Hst.
  { unfold st, after. rewrite !foldl_app. reflexivity. }
  assert (rpcMsgProcessors st0 !! PeerID_String (RemotePeer s) = None) as Hgone.
  { unfold st0. rewrite stops_keep_entries.
    unfold closeConnectionHandler_Pop, Pop.
    destruct (rpcMsgProcessors (after events) !! PeerID_String (RemotePeer s)) eqn:Hw;
      simpl; [apply lookup_delete_eq|done]. }
  assert (st = insertWorker s st0) as Hins.
  { rewrite Hst. unfold newRPCStreamHandler. by rewrite Hgone. }
  set (w := {| WriteQueue := made st0; Stop := S (made st0) |}).
  assert (rpcMsgProcessors st !! PeerID_String (RemotePeer s) = Some w) as Hw.
  { rewrite Hins. unfold insertWorker, SetIfAbsent. rewrite Hgone. simpl.
    apply lookup_insert_eq. }
  assert (rpcMsgReader s (WriteQueue w) (Stop w) ∈ started st ∧
          rpcMsgWriter s (WriteQueue w) (Stop w) ∈ started st) as [Hr Hwr].
  { rewrite Hins. unfold insertWorker, SetIfAbsent. rewrite Hgone. simpl.
    split; apply elem_of_app; right; [by left|right; by left]. }
  destruct (pair_tasks _ Hp _ _ Hw) as (Hnc & _).
  assert (rpcMsgReader s (WriteQueue w) (Stop w) ∈ liveReaders (RemotePeer s) st) as Hin1.
  { apply list_elem_of_filter. by repeat split. }
  assert (rpcMsgWriter s (WriteQueue w) (Stop w) ∈ liveWriters (RemotePeer s) st) as Hin2.
  { apply list_elem_of_filter. by repeat split. }
  exists w. split; [exact Hw|]. split; [exact Hnc|]. split; [exact Hin1|].
  split; [exact Hin2|]. intros Hset.
  assert (length (unstopped (RemotePeer s) st) = 1) as Hone.
  { unfold unstopped. unfold settled in Hset. by rewrite Hw, Hset. }
  split; apply only_one; try done.
  - rewrite <- Hone. apply (WorkersFacts.live_bound true _ st Hinv).
  - rewrite <- Hone. apply (WorkersFacts.live_bound false _ st Hinv).
Qed.

(** X7 at a second stream of [B], handled once the close handler has
    stopped the worker of the first. *)
Lemma reconnect_is_served_second :
  liveReaders "B" (after [StreamOpened stream1; Disconnected "B"; PeersSent 0;
                          StreamOpened stream2])
  = [rpcMsgReader stream2 2 3].
Proof.
  destruct (reconnect_is_served [StreamOpened stream1] stream2 [0])
    as (w & Hw & _ & _ & _ & Hone).
  injection Hw as <-. exact (proj1 (Hone eq_refl)).
Defined.

End PairsFacts.

(** ** Frames, the writer and the dispatcher *)

Module ManagerFacts.
Import P2P Network Trace.

(** A stream without newline is read to its end in one call. *)
Lemma ReadBytes_tail (d : byte) (b : list byte) :
  d ∉ b → Framer.ReadBytes d b = (b, true, []).
Proof.
  induction b as [|x b IH]; intros Hd; simpl; [done|].
  apply not_elem_of_cons in Hd as [Hx Hd].
  destruct (Byte.eqb x d) eqn:Hxd.
  - apply FramerFacts.byte_eqb_eq in Hxd. congruence.
  - by rewrite IH.
Qed.

(** The first line of a stream is its first frame. *)
Lemma delimReader_cons (line rest : list byte) (delim : byte) :
  newline ∉ line →
  Framer.delimReader ((line ++ [newline]) ++ rest) delim
  = (line ++ [newline]) :: Framer.delimReader rest delim.
Proof.
  intros Hnl. unfold Framer.delimReader.
  set (frames := Framer.readLoop (S (length rest)) rest).
  cbn [Framer.readLoop]. rewrite <- app_assoc. cbn [app].
  rewrite (NetworkFacts.ReadBytes_line _ _ rest Hnl).
  rewrite (length_app line [newline]). cbn [length].
  replace (length line + 1 =? 0) with false by (symmetry; apply Nat.eqb_neq; lia).
  cbn [app]. f_equal.
  apply FramerFacts.readLoop_enough; rewrite ?length_app; simpl; lia.
Qed.

(** What is left after the last newline is the last frame, if any. *)
Lemma delimReader_tail (tail : list byte) (delim : byte) :
  newline ∉ tail →
  Framer.delimReader tail delim = if decide (tail = []) then [] else [tail].
Proof.
  intros Hnl. unfold Framer.delimReader. cbn [Framer.readLoop].
  rewrite (ReadBytes_tail _ _ Hnl). rewrite app_nil_r.
  destruct tail as [|b tail]; [done|].
  rewrite decide_False by done. reflexivity.
Qed.

Lemma delimReader_lines (lines : list bytes) (tail : bytes) (delim : byte) :
  Forall (λ l, newline ∉ l) lines → newline ∉ tail →
  Framer.delimReader (concat ((λ l, l ++ [newline]) <$> lines) ++ tail) delim
  = ((λ l, l ++ [newline]) <$> lines) ++ (if decide (tail = []) then [] else [tail]).
Proof.
  intros Hlines Htail. induction Hlines as [|l lines Hl _ IH].
  - by apply delimReader_tail.
  - cbn [fmap list_fmap concat]. rewrite <- (app_assoc (l ++ [newline])).
    rewrite delimReader_cons by exact Hl. cbn [app]. f_equal. exact IH.
Qed.

(** X8: the framer undoes the joining of lines. For lines that hold no
    newline, each written with a newline after it, and a rest without
    newline after them, [delimReader] yields the lines in order, each
    with its newline, and then the rest if it is not empty; the reader
    dispatches every one of them. *)
Theorem delimReader_undoes_join (lines : list bytes) (tail : bytes) (delim : byte) :
  Forall (λ l, newline ∉ l) lines → newline ∉ tail →
  let s := concat ((λ l, l ++ [newline]) <$> lines) ++ tail in
  Framer.delimReader s delim
  = ((λ l, l ++ [newline]) <$> lines) ++ (if decide (tail = []) then [] else [tail]) ∧
  Framer.dispatched s = Framer.delimReader s delim ∧
  length (Framer.dispatched s) = length lines + (if decide (tail = []) then 0 else 1).
Proof.
  intros Hlines Htail s.
  pose proof (delimReader_lines lines tail delim Hlines Htail) as Hd. fold s in Hd.
  assert (Framer.dispatched s = Framer.delimReader s delim) as Hall.
  { rewrite FramerFacts.dispatched_all. unfold Framer.delimReader. reflexivity. }
  split; [exact Hd|]. split; [exact Hall|].
  rewrite Hall, Hd, length_app, length_fmap. by destruct (decide (tail = [])).
Qed.

(** X8 at two lines and an unterminated rest. *)
Lemma delimReader_undoes_join_ab :
  Framer.delimReader [x61; x0a; x62; x63; x0a; x64] newline
  = [[x61; x0a]; [x62; x63; x0a]; [x64]].
Proof.
  refine (proj1 (delimReader_undoes_join [[x61]; [x62; x63]] [x64] newline _ _)).
  - repeat constructor; by apply NetworkFacts.free_spec.
  - by apply NetworkFacts.free_spec.
Defined.

Section Manager.
Context {V : Type} `{GoValue V}.
Context `{JSON rpcMsg, JSON rpcPayloadRequest, JSON rpcPayloadResponse}.
Variable handlers : gmap string (rpcHandler V).

(** The frames [rpcMsgWriter] writes: the encoding of each message
    that can be encoded, a newline after it. *)
Lemma rpcMsgWriter_out (peer : PeerID) (queue : list rpcMsg) :
  (rpcMsgWriter (V := V) peer queue).1
  = concat ((λ b, b ++ [newline]) <$>
            omap (λ m, match Marshal m with Ok b => Some b | Err _ => None end) queue).
Proof.
  induction queue as [|m queue IH]; [done|].
  cbn [rpcMsgWriter omap list_omap]. destruct (rpcMsgWriter peer queue) as [out logs].
  cbn [fst] in IH. destruct (Marshal m) as [b|e]; cbn [fst]; [|exact IH].
  cbn [fmap list_fmap concat]. by rewrite IH.
Qed.

Lemma rpcMsgWriter_logs (peer : PeerID) (queue : list rpcMsg) :
  length (rpcMsgWriter (V := V) peer queue).2
  + length (omap (λ m, match Marshal m with Ok b => Some b | Err _ => None end) queue)
  = length queue.
Proof.
  induction queue as [|m queue IH]; [done|].
  cbn [rpcMsgWriter omap list_omap]. destruct (rpcMsgWriter peer queue) as [out logs].
  cbn [snd] in IH. destruct (Marshal m) as [b|e]; cbn [snd length]; lia.
Qed.

(** X9: what [rpcMsgWriter] writes, the reader at the other end of the
    stream frames back: when the encodings of the messages hold no
    newline, the frames dispatched there are the encodings of the
    messages of the queue that can be encoded, in the order of the
    queue, each with its newline; every message is either written or
    logged as a failure, never both and never dropped silently. *)
Theorem writer_then_reader (peer : PeerID) (queue : list rpcMsg) :
  (∀ m b, m ∈ queue → Marshal m = Ok b → newline ∉ b) →
  Framer.dispatched (rpcMsgWriter (V := V) peer queue).1
  = omap (λ m, match Marshal m with
               | Ok b => Some (b ++ [newline])
               | Err _ => None
               end) queue ∧
  length (Framer.dispatched (rpcMsgWriter (V := V) peer queue).1)
  + length (rpcMsgWriter (V := V) peer queue).2 = length queue.
Proof.
  intros Hnl.
  assert (Framer.dispatched (rpcMsgWriter (V := V) peer queue).1
          = (λ b, b ++ [newline]) <$>
            omap (λ m, match Marshal m with Ok b => Some b | Err _ => None end) queue)
    as Hframes.
  { rewrite rpcMsgWriter_out, FramerFacts.dispatched_all.
    rewrite <- (app_nil_r (concat _)).
    rewrite (delimReader_lines _ [] newline); [by rewrite app_nil_r| |apply not_elem_of_nil].
    apply Forall_forall. intros b Hb.
    apply list_elem_of_omap in Hb as (m & Hm & Hb).
    destruct (Marshal m) as [b'|e] eqn:Hmar; [|done]. injection Hb as ->.
    by eapply Hnl. }
  split.
  - rewrite Hframes. clear. induction queue as [|m queue IH]; [done|].
    cbn [omap list_omap]. destruct (Marshal m) as [b|e]; [|exact IH].
    cbn [fmap list_fmap]. f_equal. exact IH.
  - rewrite Hframes, length_fmap, Nat.add_comm. apply rpcMsgWriter_logs.
Qed.

(** Unfold a dispatching goroutine down to its list of actions. *)
Ltac paths :=
  unfold msgProcessor, requestHandler, getRPCHandler, sendResponse,
         bind, emit, invoke, ret, recovering;
  repeat case_match; simplify_eq/=.

(** X10: for one frame a dispatching goroutine sends at most one
    message on the write queue, enters at most one handler and passes
    at most one response to [responseHandler], and never both sends
    and passes on; what it sends is a response that carries the id of
    the request the frame decodes to, and what it passes on is the
    payload of the response the frame decodes to, with the id of the
    frame and the peer of the stream. *)
Theorem one_frame_one_effect (peer : PeerID) (frame : bytes) :
  let acts := msgProcessor handlers peer frame in
  length (enqueued acts) ≤ 1 ∧ length (invoked acts) ≤ 1 ∧ length (answers acts) ≤ 1 ∧
  (enqueued acts = [] ∨ answers acts = []) ∧
  (∀ m, m ∈ enqueued acts →
     msgType m = rpcResponse ∧
     ∃ msg, Unmarshal frame = Ok msg ∧ msgType msg = rpcRequest ∧ msgID m = msgID msg) ∧
  (∀ id p r, (id, p, r) ∈ answers acts →
     p = peer ∧
     ∃ msg, Unmarshal frame = Ok msg ∧ msgType msg = rpcResponse ∧ id = msgID msg ∧
            Unmarshal (msgPayload msg) = Ok r).
Proof.
  intros acts. subst acts. unfold enqueued, invoked, answers.
  paths;
    (split; [lia|]); (split; [lia|]); (split; [lia|]);
    (split; [by (left + right)|]);
    (split; [intros m Hm | intros id p r Hm]);
    try (by apply elem_of_nil in Hm);
    apply list_elem_of_singleton in Hm; simplify_eq; eauto 10.
Qed.

(** X11: a dispatching goroutine enters a handler exactly when the
    frame decodes to a request whose method is registered and whose
    data decodes into a fresh value of the handler's request type; it
    enters the handler of that method, with that value and the peer of
    the stream. *)
Theorem handler_entered_iff (peer : PeerID) (frame : bytes)
    (name : string) (p : PeerID) (arg : V) :
  (name, p, arg) ∈ invoked (msgProcessor handlers peer frame) ↔
  p = peer ∧
  ∃ msg req h,
    Unmarshal frame = Ok msg ∧ msgType msg = rpcRequest ∧
    Unmarshal (msgPayload msg) = Ok req ∧ reqType req = name ∧
    handlers !! name = Some h ∧
    UnmarshalInto (reqData req) (reflectNew (RequestStruct h)) = Ok arg.
Proof.
  split.
  - unfold invoked. paths; intros Hin;
      try (by apply elem_of_nil in Hin);
      apply list_elem_of_singleton in Hin; simplify_eq; eauto 10.
  - intros (-> & msg & req & h & Hmsg & Hty & Hreq & <- & Hh & Harg).
    unfold invoked, msgProcessor. rewrite Hmsg, decide_True by exact Hty.
    rewrite Hreq. unfold requestHandler, getRPCHandler. rewrite Hh, Harg.
    unfold bind, emit, invoke, ret, recovering, sendResponse.
    repeat case_match; simplify_eq/=; by left.
Qed.

(** X12: a request is never left unanswered in silence. For a frame
    that decodes to a request, the goroutine either sends exactly one
    response with the id of the request, or sends none and ends on an
    error line that says why: the response could not be encoded, or a
    panic was recovered. *)
Theorem request_answered_or_logged (peer : PeerID) (frame : bytes)
    (msg : rpcMsg) (req : rpcPayloadRequest) :
  Unmarshal frame = Ok msg → msgType msg = rpcRequest →
  Unmarshal (msgPayload msg) = Ok req →
  let acts := msgProcessor handlers peer frame in
  (∃ payload, enqueued acts = [{| msgID := msgID msg; msgType := rpcResponse;
                                  msgPayload := payload |}]) ∨
  (enqueued acts = [] ∧
   ∃ text, last (logged acts) = Some text ∧
           (String.prefix "Failed to encode response for request '" text = true ∨
            String.prefix "Exception whie processing incoming p2p RPC msg from '" text
            = true)).
Proof.
  intros Hmsg Hty Hreq acts. subst acts.
  unfold msgProcessor. rewrite Hmsg, decide_True by exact Hty. rewrite Hreq.
  unfold enqueued, logged.
  unfold requestHandler, getRPCHandler, sendResponse, bind, emit, invoke, ret, recovering.
  repeat case_match; simplify_eq/=;
    first [ left; eexists; reflexivity
          | right; split; [reflexivity|]; eexists; split; [reflexivity|];
            first [ left; apply prefix_append | right; apply prefix_append ] ].
Qed.

End Manager.

Import Plain.

(** X9 at a queue of two messages of which the line codec encodes the
    second only: one frame, one line in the log. *)
Lemma writer_then_reader_mixed :
  length (Framer.dispatched (rpcMsgWriter (V := string) "B" Samples.mixedQueue).1)
  + length (rpcMsgWriter (V := string) "B" Samples.mixedQueue).2 = 2.
Proof.
  refine (proj2 (writer_then_reader (V := string) "B" Samples.mixedQueue _)).
  intros m b _ Hb. exact (proj2 (NetworkFacts.split3_join3 _ _ _ _ Hb)).
Defined.

(** X12 at the ping request of the first scenario: one response. *)
Lemma request_answered_or_logged_ping :
  ∃ payload,
    enqueued (msgProcessor Plain.handlers "A" (Plain.requestFrame "ping" "hello"))
    = [{| msgID := Plain.anID; msgType := rpcResponse; msgPayload := payload |}].
Proof.
  destruct (request_answered_or_logged Plain.handlers "A"
              (Plain.requestFrame "ping" "hello")
              {| msgID := Plain.anID; msgType := rpcRequest;
                 msgPayload := Plain.toBytes "ping" ++ Plain.sep :: Plain.toBytes "hello" |}
              {| reqType := "ping"; reqData := Plain.toBytes "hello" |})
    as [Hone|[Hnone _]].
  - vm_compute. reflexivity.
  - reflexivity.
  - vm_compute. reflexivity.
  - exact Hone.
  - vm_compute in Hnone. discriminate Hnone.
Defined.

End ManagerFacts.

(** ** Failures at the remote peer *)

Module ExchangeFacts.
Import P2P Network Trace.

Section Exchange.
Context {V : Type} `{GoValue V}.
Context `{JSON rpcMsg, JSON rpcPayloadRequest, JSON rpcPayloadResponse}.
Variables (A B : PeerID).
Variables (handlersA handlersB : gmap string (rpcHandler V)).
Variables (id method : string).
Hypothesis laws : CodecLaws (V := V) id method.

(** What [B]'s goroutine does for the request of [A], the frame read
    and decoded. *)
Lemma request_arrives (x : V) (bx breq b1 : bytes) :
  MarshalAny x = Ok bx →
  Marshal {| reqType := method; reqData := bx |} = Ok breq →
  Marshal {| msgID := id; msgType := rpcRequest; msgPayload := breq |} = Ok b1 →
  ∀ y, exchange A B handlersA handlersB id method x y
       = replyPath A B handlersA
           (Ok {| msgID := id; msgType := rpcRequest; msgPayload := breq |})
           (recovering
              (λ r, "Exception whie processing incoming p2p RPC msg from '" +:+
                    PeerID_String A +:+ "': " +:+ r)
              (requestHandler handlersB id A {| reqType := method; reqData := bx |}))
           id method y.
Proof.
  intros Hx Hreq Hmsg y.
  unfold exchange, sendRequest_encode. rewrite Hx, Hreq.
  cbn [rpcMsgWriter]. rewrite Hmsg.
  destruct (request_frame _ _ laws _ _ _ Hreq Hmsg) as [Hnl Hun].
  cbn [fst]. rewrite NetworkFacts.rpcMsgReader_line by exact Hnl.
  unfold msgProcessor at 1. rewrite Hun. cbn [msgType msgPayload msgID].
  rewrite decide_True by done.
  by rewrite (request_round_trip _ _ laws x bx breq Hx Hreq).
Qed.

(** An error response that [B] sends reaches the caller as an error
    that names [B]. *)
Lemma failure_arrives (msg : rpcMsg) (atB : list (action V)) (y : V) (e : string)
    (d p b2 : bytes) :
  e ≠ "" →
  enqueued atB = [{| msgID := id; msgType := rpcResponse; msgPayload := p |}] →
  Marshal {| respError := e; respData := [] |} = Ok p →
  Unmarshal p = Ok {| respError := e; respData := d |} →
  Marshal {| msgID := id; msgType := rpcResponse; msgPayload := p |} = Ok b2 →
  replyPath A B handlersA (Ok msg) atB id method y
  = Some (Some ("error returned by '" +:+ PeerID_String B +:+ "': " +:+ e), y).
Proof.
  intros He Hq Hp Hun Hm.
  erewrite (NetworkFacts.reply_some A B handlersA id method laws msg atB y
              {| respError := e; respData := [] |} {| respError := e; respData := d |}
              p b2); try done.
  cbn [respError respData]. by rewrite decide_False by done.
Qed.

(** X13: a request for a method that [B] has not registered comes back
    as an error. When the request and the error response encode, and
    the response decodes to the error it carries, [sendRequest] at [A]
    returns "error returned by 'B': RPC handler for method 'm' not
    found" and leaves the response value as it was; [B] enters no
    handler. *)
Theorem unknown_method_reaches_caller (x y : V) (bx breq b1 d p b2 : bytes) :
  handlersB !! method = None →
  MarshalAny x = Ok bx →
  Marshal {| reqType := method; reqData := bx |} = Ok breq →
  Marshal {| msgID := id; msgType := rpcRequest; msgPayload := breq |} = Ok b1 →
  Marshal {| respError := "RPC handler for method '" +:+ method +:+ "' not found";
             respData := [] |} = Ok p →
  Unmarshal p = Ok {| respError := "RPC handler for method '" +:+ method +:+ "' not found";
                      respData := d |} →
  Marshal {| msgID := id; msgType := rpcResponse; msgPayload := p |} = Ok b2 →
  exchange A B handlersA handlersB id method x y
  = Some (Some ("error returned by '" +:+ PeerID_String B +:+
                "': RPC handler for method '" +:+ method +:+ "' not found"), y) ∧
  invoked (msgProcessor handlersB A (b1 ++ [newline])) = [].
Proof.
  intros Hh Hx Hreq Hmsg Hp Hun Hm. split.
  - rewrite (request_arrives x bx breq b1 Hx Hreq Hmsg).
    eapply failure_arrives; [|
      |exact Hp|exact Hun|exact Hm].
    + by destruct method.
    + unfold requestHandler, getRPCHandler, sendResponse. cbn [reqType]. rewrite Hh.
      unfold bind, emit. rewrite Hp. reflexivity.
  - destruct (request_frame _ _ laws _ _ _ Hreq Hmsg) as [_ Hun1].
    unfold msgProcessor. rewrite Hun1. cbn [msgType msgPayload msgID].
    rewrite decide_True by done.
    rewrite (request_round_trip _ _ laws x bx breq Hx Hreq).
    unfold requestHandler, getRPCHandler, sendResponse. cbn [reqType]. rewrite Hh.
    unfold bind, emit. rewrite Hp. reflexivity.
Qed.

(** X14: a failure of the handler at [B] comes back as an error. When
    the handler registered under the method returns an error [e] for
    the decoded request, or returns a result that cannot be encoded,
    with error [e], the response and its envelope encoding and the
    response decoding to the error it carries, [sendRequest] at [A]
    returns "error returned by 'B': Internal error: " followed by [e],
    and leaves the response value as it was. *)
Theorem handler_error_reaches_caller (x x' r y : V) (h : rpcHandler V) (e : error)
    (bx breq b1 d p b2 : bytes) :
  handlersB !! method = Some h →
  MarshalAny x = Ok bx →
  Marshal {| reqType := method; reqData := bx |} = Ok breq →
  Marshal {| msgID := id; msgType := rpcRequest; msgPayload := breq |} = Ok b1 →
  UnmarshalInto bx (reflectNew (RequestStruct h)) = Ok x' →
  Func h A x' = Return (r, Some e) ∨
  (Func h A x' = Return (r, None) ∧ MarshalAny r = Err e) →
  Marshal {| respError := "Internal error: " +:+ e; respData := [] |} = Ok p →
  Unmarshal p = Ok {| respError := "Internal error: " +:+ e; respData := d |} →
  Marshal {| msgID := id; msgType := rpcResponse; msgPayload := p |} = Ok b2 →
  exchange A B handlersA handlersB id method x y
  = Some (Some ("error returned by '" +:+ PeerID_String B +:+
                "': Internal error: " +:+ e), y).
Proof.
  intros Hh Hx Hreq Hmsg Hx' Hf Hp Hun Hm.
  rewrite (request_arrives x bx breq b1 Hx Hreq Hmsg).
  eapply failure_arrives; [done| |exact Hp|exact Hun|exact Hm].
  unfold requestHandler, getRPCHandler, sendResponse. cbn [reqType reqData].
  rewrite Hh, Hx'. unfold bind, emit, invoke, ret.
  destruct Hf as [Hf|[Hf Hr]]; rewrite Hf; simpl.
  - by rewrite Hp.
  - rewrite Hr. simpl. by rewrite Hp.
Qed.

(** X15: a request whose data the handler's request type cannot take
    comes back as an error, and the handler is not entered:
    [sendRequest] at [A] returns "error returned by 'B': failed to
    decode data struct: " followed by the decoder's error. *)
Theorem undecodable_request_reaches_caller (x y : V) (h : rpcHandler V) (e : error)
    (bx breq b1 d p b2 : bytes) :
  handlersB !! method = Some h →
  MarshalAny x = Ok bx →
  Marshal {| reqType := method; reqData := bx |} = Ok breq →
  Marshal {| msgID := id; msgType := rpcRequest; msgPayload := breq |} = Ok b1 →
  UnmarshalInto bx (reflectNew (RequestStruct h)) = Err e →
  Marshal {| respError := "failed to decode data struct: " +:+ e; respData := [] |} = Ok p →
  Unmarshal p = Ok {| respError := "failed to decode data struct: " +:+ e;
                      respData := d |} →
  Marshal {| msgID := id; msgType := rpcResponse; msgPayload := p |} = Ok b2 →
  exchange A B handlersA handlersB id method x y
  = Some (Some ("error returned by '" +:+ PeerID_String B +:+
                "': failed to decode data struct: " +:+ e), y) ∧
  invoked (requestHandler handlersB id A {| reqType := method; reqData := bx |}).1 = [].
Proof.
  intros Hh Hx Hreq Hmsg Hx' Hp Hun Hm.
  assert (requestHandler handlersB id A {| reqType := method; reqData := bx |}
          = ([Enqueue {| msgID := id; msgType := rpcResponse; msgPayload := p |}],
             Return tt)) as Hrh.
  { unfold requestHandler, getRPCHandler, sendResponse. cbn [reqType reqData].
    rewrite Hh, Hx'. unfold emit. by rewrite Hp. }
  split.
  - rewrite (request_arrives x bx breq b1 Hx Hreq Hmsg).
    eapply failure_arrives; [done| |exact Hp|exact Hun|exact Hm].
    by rewrite Hrh.
  - by rewrite Hrh.
Qed.

(** X16: when the handler at [B] panics, nothing comes back to [A]:
    no response reaches [responseHandler] there, and [sendRequest] is
    left to its timer. *)
Theorem handler_panic_gets_no_reply (x x' y : V) (h : rpcHandler V) (r : string)
    (bx breq b1 : bytes) :
  handlersB !! method = Some h →
  MarshalAny x = Ok bx →
  Marshal {| reqType := method; reqData := bx |} = Ok breq →
  Marshal {| msgID := id; msgType := rpcRequest; msgPayload := breq |} = Ok b1 →
  UnmarshalInto bx (reflectNew (RequestStruct h)) = Ok x' →
  Func h A x' = Panic r →
  exchange A B handlersA handlersB id method x y = None.
Proof.
  intros Hh Hx Hreq Hmsg Hx' Hf.
  assert (requestHandler handlersB id A {| reqType := method; reqData := bx |}
          = ([Invoke method A x'], Panic r)) as Hrh.
  { unfold requestHandler, getRPCHandler. cbn [reqType reqData].
    rewrite Hh, Hx'. unfold bind, emit, invoke. by rewrite Hf. }
  rewrite (request_arrives x bx breq b1 Hx Hreq Hmsg).
  apply NetworkFacts.reply_none. by rewrite Hrh.
Qed.

(** X17: a response that does not decode into the caller's response
    value is an error of the call. When the handler at [B] returns a
    result and no error, and the encoded result does not decode into
    [y], with error [e], [sendRequest] at [A] returns "failed to
    decode response payload: " followed by [e], and not an error of
    [B]. *)
Theorem undecodable_response_is_an_error (x x' r y : V) (h : rpcHandler V) (e : error)
    (bx breq b1 br p b2 : bytes) :
  handlersB !! method = Some h →
  MarshalAny x = Ok bx →
  Marshal {| reqType := method; reqData := bx |} = Ok breq →
  Marshal {| msgID := id; msgType := rpcRequest; msgPayload := breq |} = Ok b1 →
  UnmarshalInto bx (reflectNew (RequestStruct h)) = Ok x' →
  Func h A x' = Return (r, None) →
  MarshalAny r = Ok br →
  Marshal {| respError := ""; respData := br |} = Ok p →
  Marshal {| msgID := id; msgType := rpcResponse; msgPayload := p |} = Ok b2 →
  UnmarshalInto br y = Err e →
  fst <$> exchange A B handlersA handlersB id method x y
  = Some (Some ("failed to decode response payload: " +:+ e)).
Proof.
  intros Hh Hx Hreq Hmsg Hx' Hf Hr Hp Hm Hy.
  rewrite (request_arrives x bx breq b1 Hx Hreq Hmsg).
  erewrite (NetworkFacts.reply_some A B handlersA id method laws _ _ y
              {| respError := ""; respData := br |}
              {| respError := ""; respData := br |} p b2); try done.
  - cbn [respError respData]. rewrite decide_True by done.
    cbn [sendRequest_return]. by rewrite Hy.
  - unfold requestHandler, getRPCHandler, sendResponse.
    cbn [reqType reqData]. rewrite Hh, Hx'.
    unfold bind, emit, invoke, ret. rewrite Hf. simpl. rewrite Hr. simpl.
    by rewrite Hp.
  - by eapply response_round_trip.
Qed.

End Exchange.

Import Plain.

(** X18 at the first end-to-end scenario. *)
Lemma rpc_round_trip_completes_ping :
  exchange "A" "B" ∅ handlers anID "ping" "hello" "" = Some (None, "Ping: hello!").
Proof.
  refine (NetworkFacts.rpc_round_trip_completes "A" "B" ∅ handlers anID "ping"
            (NetworkFacts.plain_laws anID "ping") "hello" "hello" "Ping: hello!" ""
            "Ping: hello!" ping _ _ _ _ _ _ _ _ _ _ _ _ _ _ _ _).
  - reflexivity.
  - reflexivity.
  - reflexivity.
  - reflexivity.
  - reflexivity.
  - reflexivity.
  - reflexivity.
  - reflexivity.
  - reflexivity.
  - reflexivity.
Defined.

(** X13 at a method the table of the examples does not hold. *)
Lemma unknown_method_reaches_caller_nope :
  exchange "A" "B" ∅ handlers anID "nope" "hello" ""
  = Some (Some "error returned by 'B': RPC handler for method 'nope' not found", "").
Proof.
  refine (proj1 (unknown_method_reaches_caller "A" "B" ∅ handlers anID "nope"
                   (NetworkFacts.plain_laws anID "nope") "hello" "" _ _ _ _ _ _
                   _ _ _ _ _ _ _)).
  - reflexivity.
  - reflexivity.
  - reflexivity.
  - reflexivity.
  - reflexivity.
  - vm_compute. reflexivity.
  - reflexivity.
Defined.

(** X14 at the handler that refuses every request. *)
Lemma handler_error_reaches_caller_refuse :
  exchange "A" "B" ∅ Samples.handlers' anID "refuse" "hello" ""
  = Some (Some "error returned by 'B': Internal error: not allowed", "").
Proof.
  refine (handler_error_reaches_caller "A" "B" ∅ Samples.handlers' anID "refuse"
            (NetworkFacts.plain_laws anID "refuse") "hello" "hello" "" ""
            Samples.refusing "not allowed" _ _ _ _ _ _ _ _ _ _ _ _ _ _ _).
  - reflexivity.
  - reflexivity.
  - reflexivity.
  - reflexivity.
  - reflexivity.
  - left. reflexivity.
  - reflexivity.
  - vm_compute. reflexivity.
  - reflexivity.
Defined.

(** The laws of the line codec do not depend on the values carried. *)
Lemma strict_laws (id method : string) :
  CodecLaws (V := string) (H := Samples.strict) id method.
Proof.
  split.
  - intros _ data b _ Hb. simpl in *.
    by destruct (NetworkFacts.split_join _ _ _ Hb) as [-> _].
  - intros _ data b _ Hb. simpl in *.
    by destruct (NetworkFacts.split_join _ _ _ Hb) as [-> _].
  - intros e b He Hb. simpl in *.
    destruct (NetworkFacts.split_join _ _ _ Hb) as [-> _]. eauto.
  - intros _ p b _ Hb. simpl in *.
    by destruct (NetworkFacts.split3_join3 _ _ _ _ Hb) as [-> Hnl].
  - intros _ p b _ Hb. simpl in *.
    by destruct (NetworkFacts.split3_join3 _ _ _ _ Hb) as [-> Hnl].
Qed.

(** X15 at an empty request value, which the strict decoder refuses. *)
Lemma undecodable_request_reaches_caller_empty :
  exchange (H := Samples.strict) "A" "B" ∅ handlers anID "ping" "" "before"
  = Some (Some ("error returned by 'B': failed to decode data struct: " +:+
                "unexpected end of JSON input"), "before").
Proof.
  refine (proj1 (undecodable_request_reaches_caller (H := Samples.strict)
                   "A" "B" ∅ handlers anID "ping" (strict_laws anID "ping")
                   "" "before" ping "unexpected end of JSON input"
                   _ _ _ _ _ _ _ _ _ _ _ _ _ _)).
  - reflexivity.
  - reflexivity.
  - reflexivity.
  - reflexivity.
  - reflexivity.
  - reflexivity.
  - vm_compute. reflexivity.
  - reflexivity.
Defined.

(** X16 at the handler that panics. *)
Lemma handler_panic_gets_no_reply_faulty :
  exchange "A" "B" ∅ handlers anID "faulty" "hello" "" = None.
Proof.
  refine (handler_panic_gets_no_reply "A" "B" ∅ handlers anID "faulty"
            (NetworkFacts.plain_laws anID "faulty") "hello" "hello" "" faulty
            _ _ _ _ _ _ _ _ _ _).
  - reflexivity.
  - reflexivity.
  - reflexivity.
  - reflexivity.
  - reflexivity.
  - reflexivity.
Defined.

(** X17 at the handler that answers with the empty value, which the
    strict decoder refuses. *)
Lemma undecodable_response_is_an_error_blank :
  fst <$> exchange (H := Samples.strict) "A" "B" ∅ Samples.handlers' anID "blank"
            "hello" "before"
  = Some (Some ("failed to decode response payload: " +:+
                "unexpected end of JSON input")).
Proof.
  refine (undecodable_response_is_an_error (H := Samples.strict) "A" "B" ∅
            Samples.handlers' anID "blank" (strict_laws anID "blank")
            "hello" "hello" "" "before" Samples.blank "unexpected end of JSON input"
            _ _ _ _ _ _ _ _ _ _ _ _ _ _ _ _).
  - reflexivity.
  - reflexivity.
  - reflexivity.
  - reflexivity.
  - reflexivity.
  - reflexivity.
  - reflexivity.
  - reflexivity.
  - reflexivity.
  - reflexivity.
Defined.

End ExchangeFacts.

(** ** More on the schedules of the request tracker *)

Module ScheduleFacts.
Import Tracker.

(** The state a schedule leads to keeps the invariant. *)
Lemma inv_reached (q : request) (t0 : N) (table : gmap string nat)
    (queue : option (list rpcMsg)) (ls : list label) (s : state) :
  run q ls (init t0 table queue) = Some s → inv q s.
Proof. apply TrackerFacts.inv_run, TrackerFacts.inv_init. Qed.

(** X21: what the [select] of [sendRequest] receives is a value that
    was sent, never the zero value of a closed channel: in every
    schedule, a late return is either the timeout error, sent by the
    timer goroutine no less than five seconds after it was started, or
    the answer of [responseHandler], and then the timer goroutine has
    sent nothing. *)
Theorem caller_receives_timeout_or_answer (q : request) (t0 : N)
    (table : gmap string nat) (queue : option (list rpcMsg))
    (ls : list label) (s : state) (d : delivery) :
  run q ls (init t0 table queue) = Some s →
  cpc s = CReturned (Late d) →
  (d = FromErr (Some (timeoutError q)) ∧ tSent (tpc s) = true ∧
   (armed s + timeout ≤ now s)%N) ∨
  (d = answer q ∧ rSent (rpc s) = true ∧ tSent (tpc s) = false).
Proof.
  intros Hrun Hc. pose proof (inv_reached _ _ _ _ _ _ Hrun) as Hinv.
  pose proof (inv_got _ _ Hinv) as Hg. rewrite Hc in Hg. simpl in Hg.
  destruct (tSent (tpc s)) eqn:Ht.
  - left. split; [congruence|]. split; [done|].
    apply (inv_slept _ _ Hinv). by destruct (tpc s).
  - right. destruct (rSent (rpc s)) eqn:Hr; [|done].
    split; [congruence|done].
Qed.

(** What an encoding error leaves of the state, step by step. *)
Lemma untouched_step (q : request) (e : error) (table : gmap string nat)
    (queue : option (list rpcMsg)) (l : label) (s s' : state) :
  encoded q = Err e →
  (cpc s = CStart ∨ cpc s = CReturned (Early e)) → reqs s = table → tpc s = TIdle →
  (∃ k, writeQueue s = drop k <$> queue) →
  step q l s = Some s' →
  (cpc s' = CStart ∨ cpc s' = CReturned (Early e)) ∧ reqs s' = table ∧
  tpc s' = TIdle ∧ (∃ k, writeQueue s' = drop k <$> queue).
Proof.
  intros Henc Hc Hr Ht [k Hq] Hstep. unfold step in Hstep.
  destruct (crashed s); [done|]. destruct l; simpl in Hstep.
  - simplify_eq. simpl. eauto.
  - destruct (writeQueue s) as [[|m rest]|] eqn:Hw; simplify_eq. simpl.
    repeat split; try done. exists (S k).
    destruct queue as [q0|]; [|done]. simpl in *. f_equal.
    injection Hq as Hq. replace (S k) with (k + 1) by lia.
    by rewrite <- drop_drop, <- Hq.
  - unfold stepCaller in Hstep. destruct Hc as [Hc|Hc]; rewrite Hc in Hstep; [|done].
    rewrite Henc in Hstep. simplify_eq. simpl. eauto 10.
  - unfold stepTimer in Hstep. by rewrite Ht in Hstep.
  - unfold stepResponder, recover in Hstep.
    destruct Hc as [Hc|Hc]; rewrite Hc in Hstep;
      repeat case_match; simplify_eq; simpl; eauto 10.
Qed.

(** X22: when the request cannot be encoded, [sendRequest] returns the
    encoding error at its first step and nothing else of it ever
    happens: in every schedule it stands at its start or has returned
    that error, [reqs] is as it was, no timer has been started, and
    the write queue has received nothing (the writer may have taken
    messages from it). *)
Theorem encode_error_returns_at_once (q : request) (e : error) (t0 : N)
    (table : gmap string nat) (queue : option (list rpcMsg))
    (ls : list label) (s : state) :
  encoded q = Err e →
  run q ls (init t0 table queue) = Some s →
  (cpc s = CStart ∨ cpc s = CReturned (Early e)) ∧ reqs s = table ∧
  tpc s = TIdle ∧ (∃ k, writeQueue s = drop k <$> queue).
Proof.
  intros Henc.
  assert (∀ s0, (cpc s0 = CStart ∨ cpc s0 = CReturned (Early e)) → reqs s0 = table →
                tpc s0 = TIdle → (∃ k, writeQueue s0 = drop k <$> queue) →
                run q ls s0 = Some s →
                (cpc s = CStart ∨ cpc s = CReturned (Early e)) ∧ reqs s = table ∧
                tpc s = TIdle ∧ (∃ k, writeQueue s = drop k <$> queue)) as Hgen.
  { induction ls as [|l ls IH]; intros s0 Hc Hr Ht Hq; simpl.
    - by intros [= <-].
    - destruct (step q l s0) as [s1|] eqn:Hstep; [|done].
      destruct (untouched_step q e table queue l s0 s1 Henc Hc Hr Ht Hq Hstep)
        as (Hc1 & Hr1 & Ht1 & Hq1).
      by apply IH. }
  apply Hgen; simpl; try done; [by left|].
  exists 0. by destruct queue.
Qed.

(** Once [responseHandler] holds the latch and the timer still sleeps
    or has found the latch closed, it stays so, without a panic. *)
Lemma answered_step (q : request) (l : label) (s s' : state) :
  inv q s → rWon (rpc s) = true →
  (tpc s = TSleep ∨ tpc s = TCheck ∨ tpc s = TExit) → crashed s = None →
  step q l s = Some s' →
  rWon (rpc s') = true ∧ (tpc s' = TSleep ∨ tpc s' = TCheck ∨ tpc s' = TExit) ∧
  crashed s' = None.
Proof.
  intros Hinv Hw Ht Hcr Hstep.
  pose proof (inv_latch _ _ Hinv) as Hl. pose proof (inv_resp _ _ Hinv) as Hre.
  pose proof (inv_err _ _ Hinv) as Her. pose proof (inv_spawned _ _ Hinv) as Hsp.
  rewrite Hw, orb_true_r in Hl.
  unfold step in Hstep. rewrite Hcr in Hstep. destruct l; simpl in Hstep.
  - by simplify_eq.
  - destruct (writeQueue s) as [[|? ?]|]; by simplify_eq.
  - unfold stepCaller in Hstep.
    destruct (cpc s) eqn:Hc; repeat case_match; simplify_eq; simpl; try done;
      destruct Ht as [Ht|[Ht|Ht]]; rewrite Ht in Hsp; done.
  - unfold stepTimer in Hstep.
    destruct Ht as [Ht|[Ht|Ht]]; rewrite Ht in Hstep; [| |done].
    + case_match; simplify_eq. simpl. eauto.
    + rewrite Hl in Hstep. simplify_eq. simpl. eauto.
  - unfold stepResponder, recover in Hstep.
    assert (tClosedResp (tpc s) = false ∧ tClosedErr (tpc s) = false) as [Htr Hte].
    { by destruct Ht as [Ht|[Ht|Ht]]; rewrite Ht. }
    rewrite Htr in Hre. rewrite Hte in Her. simpl in Hre, Her.
    destruct (rpc s) eqn:Hr; try done; simpl in *;
      rewrite ?Hl, ?Hre, ?Her in Hstep;
      repeat case_match; simplify_eq; simpl; eauto.
Qed.

Lemma answered_run (q : request) (ls : list label) (s s' : state) :
  inv q s → rWon (rpc s) = true →
  (tpc s = TSleep ∨ tpc s = TCheck ∨ tpc s = TExit) → crashed s = None →
  run q ls s = Some s' →
  rWon (rpc s') = true ∧ (tpc s' = TSleep ∨ tpc s' = TCheck ∨ tpc s' = TExit) ∧
  crashed s' = None.
Proof.
  revert s. induction ls as [|l ls IH]; intros s Hinv Hw Ht Hcr; simpl.
  - by intros [= <-].
  - destruct (step q l s) as [s1|] eqn:Hstep; [|done].
    destruct (answered_step q l s s1 Hinv Hw Ht Hcr Hstep) as (Hw1 & Ht1 & Hcr1).
    apply IH; try done. by eapply TrackerFacts.inv_step.
Qed.

(** X23: a response handled before the timer wakes is safe. In every
    schedule, once [responseHandler] has closed the latch while the
    timer goroutine still sleeps, whatever follows brings no panic:
    the process does not crash, [responseHandler] goes on to its end
    without a recovered panic, the timer goroutine closes nothing, and
    what the caller receives, if anything, is the answer. *)
Theorem answer_before_timer_wakes (q : request) (t0 : N) (table : gmap string nat)
    (queue : option (list rpcMsg)) (ls ls' : list label) (s s' : state) :
  run q ls (init t0 table queue) = Some s →
  rWon (rpc s) = true → tpc s = TSleep →
  run q ls' s = Some s' →
  crashed s' = None ∧ rWon (rpc s') = true ∧ tWon (tpc s') = false ∧
  (∀ d, cGot (cpc s') = Some d → d = answer q).
Proof.
  intros Hrun Hw Ht Hrun'.
  pose proof (inv_reached _ _ _ _ _ _ Hrun) as Hinv.
  pose proof (TrackerFacts.inv_run _ _ _ _ Hinv Hrun') as Hinv'.
  assert (crashed s = None) as Hcr.
  { destruct (crashed s) eqn:Hc; [|done].
    assert (tpc s = TClose) as Hcl by (apply (inv_crashed _ _ Hinv); eauto).
    congruence. }
  destruct (answered_run q ls' s s' Hinv Hw (or_introl Ht) Hcr Hrun')
    as (Hw' & Ht' & Hcr').
  assert (tWon (tpc s') = false) as Hnt.
  { by destruct Ht' as [Ht'|[Ht'|Ht']]; rewrite Ht'. }
  split; [exact Hcr'|]. split; [exact Hw'|]. split; [exact Hnt|].
  intros d Hd. pose proof (inv_got _ _ Hinv') as Hg. rewrite Hd in Hg.
  assert (tSent (tpc s') = false) as Hns.
  { by destruct Ht' as [Ht'|[Ht'|Ht']]; rewrite Ht'. }
  rewrite Hns in Hg. destruct (rSent (rpc s')); congruence.
Qed.

(** Time does not go back, and the timer is armed at the time of the
    [go] statement. *)
Lemma clock_step (q : request) (t0 : N) (l : label) (s s' : state) :
  (t0 ≤ now s)%N → (tStarted (tpc s) = true → (t0 ≤ armed s)%N) →
  step q l s = Some s' →
  (t0 ≤ now s')%N ∧ (tStarted (tpc s') = true → (t0 ≤ armed s')%N).
Proof.
  intros Hn Ha Hstep. unfold step in Hstep. destruct (crashed s); [done|].
  destruct l; simpl in Hstep.
  - simplify_eq. simpl. split; [lia|done].
  - destruct (writeQueue s) as [[|? ?]|]; by simplify_eq.
  - unfold stepCaller in Hstep.
    destruct (cpc s); repeat case_match; simplify_eq; simpl; try done.
  - unfold stepTimer in Hstep.
    destruct (tpc s) eqn:Ht; repeat case_match; simplify_eq; simpl in *;
      split; try done; intros _; by apply Ha.
  - unfold stepResponder, recover in Hstep.
    destruct (rpc s); repeat case_match; simplify_eq; simpl; try done.
Qed.

Lemma clock_run (q : request) (t0 : N) (ls : list label) (s s' : state) :
  (t0 ≤ now s)%N → (tStarted (tpc s) = true → (t0 ≤ armed s)%N) →
  run q ls s = Some s' →
  (t0 ≤ now s')%N ∧ (tStarted (tpc s') = true → (t0 ≤ armed s')%N).
Proof.
  revert s. induction ls as [|l ls IH]; intros s Hn Ha; simpl.
  - by intros [= <-].
  - destruct (step q l s) as [s1|] eqn:Hstep; [|done].
    destruct (clock_step q t0 l s s1 Hn Ha Hstep) as [Hn1 Ha1]. by apply IH.
Qed.

(** Without a step of [responseHandler] it stays where it is. *)
Lemma silent_run (q : request) (ls : list label) (s s' : state) :
  Responder ∉ ls → run q ls s = Some s' → rpc s' = rpc s.
Proof.
  revert s. induction ls as [|l ls IH]; intros s Hno; simpl.
  - by intros [= <-].
  - apply not_elem_of_cons in Hno as [Hl Hno].
    destruct (step q l s) as [s1|] eqn:Hstep; [|done].
    intros Hrun. rewrite (IH s1 Hno Hrun).
    unfold step in Hstep. destruct (crashed s); [done|].
    destruct l; simpl in Hstep; try done.
    + by simplify_eq.
    + destruct (writeQueue s) as [[|? ?]|]; by simplify_eq.
    + unfold stepCaller in Hstep.
      destruct (cpc s); repeat case_match; by simplify_eq.
    + unfold stepTimer in Hstep.
      destruct (tpc s); repeat case_match; by simplify_eq.
Qed.

(** With the request encoded and a write queue for the peer,
    [sendRequest] takes none of its early returns. *)
Lemma sent_step (q : request) (msg : rpcMsg) (l : label) (s s' : state) :
  encoded q = Ok msg → is_Some (writeQueue s) → (∀ e, cpc s ≠ CReturned (Early e)) →
  step q l s = Some s' →
  is_Some (writeQueue s') ∧ (∀ e, cpc s' ≠ CReturned (Early e)).
Proof.
  intros Henc [queue Hq] Hne Hstep. unfold step in Hstep.
  destruct (crashed s); [done|]. destruct l; simpl in Hstep.
  - simplify_eq. simpl. eauto.
  - rewrite Hq in Hstep. destruct queue; simplify_eq. simpl. eauto.
  - unfold stepCaller in Hstep. rewrite Henc, Hq in Hstep.
    destruct (cpc s) eqn:Hc; repeat case_match; simplify_eq; simpl; eauto.
  - unfold stepTimer in Hstep.
    destruct (tpc s); repeat case_match; simplify_eq; simpl; eauto.
  - unfold stepResponder, recover in Hstep.
    destruct (rpc s); repeat case_match; simplify_eq; simpl; eauto.
Qed.

Lemma sent_run (q : request) (msg : rpcMsg) (ls : list label) (s s' : state) :
  encoded q = Ok msg → is_Some (writeQueue s) → (∀ e, cpc s ≠ CReturned (Early e)) →
  run q ls s = Some s' → ∀ e, cpc s' ≠ CReturned (Early e).
Proof.
  intros Henc. revert s. induction ls as [|l ls IH]; intros s Hq Hne; simpl.
  - by intros [= <-].
  - destruct (step q l s) as [s1|] eqn:Hstep; [|done].
    destruct (sent_step q msg l s s1 Henc Hq Hne Hstep) as [Hq1 Hne1]. by apply IH.
Qed.

(** The schedule without response, step by step. *)
Lemma run_unanswered (q : request) (msg : rpcMsg) (t0 : N)
    (table : gmap string nat) (queue : list rpcMsg) :
  encoded q = Ok msg → length queue < queueCap →
  ∃ s, run q Samples.unanswered (init t0 table (Some queue)) = Some s ∧
       cpc s = CReturned (Late (FromErr (Some (timeoutError q)))) ∧
       reqs s = delete (id q) (<[id q := tracker q]> table) ∧
       now s = (t0 + 5000)%N ∧ crashed s = None.
Proof.
  intros Henc Hlen. unfold Samples.unanswered.
  erewrite NetworkFacts.run_cons;
    [|by unfold step, stepCaller; NetworkFacts.tr; rewrite Henc].
  erewrite NetworkFacts.run_cons; [|by unfold step, stepCaller; NetworkFacts.tr].
  erewrite NetworkFacts.run_cons;
    [|unfold step, stepCaller; NetworkFacts.tr; rewrite Henc;
      by rewrite decide_True by exact Hlen].
  erewrite NetworkFacts.run_cons; [|by unfold step, stepCaller; NetworkFacts.tr].
  erewrite NetworkFacts.run_cons; [|by unfold step; NetworkFacts.tr].
  erewrite NetworkFacts.run_cons;
    [|unfold step, stepTimer; NetworkFacts.tr;
      by rewrite decide_True by (unfold timeout; lia)].
  erewrite NetworkFacts.run_cons; [|by unfold step, stepTimer; NetworkFacts.tr].
  erewrite NetworkFacts.run_cons; [|by unfold step, stepTimer; NetworkFacts.tr].
  erewrite NetworkFacts.run_cons; [|by unfold step, stepTimer; NetworkFacts.tr].
  erewrite NetworkFacts.run_cons; [|by unfold step, stepCaller; NetworkFacts.tr].
  eexists. split; [reflexivity|]. by NetworkFacts.tr.
Qed.

(** X29: a request that gets no response times out, and not before
    five seconds. With the request encoded and room in the write
    queue, in every schedule in which no response is handled
    [sendRequest], called at [t0], returns nothing but the timeout
    error, and no earlier than [t0] + 5000 ms; and it does return it,
    with its tracker removed from [reqs] and no panic, in the schedule
    in which the timer runs when the five seconds have passed. *)
Theorem no_response_means_timeout (q : request) (msg : rpcMsg) (t0 : N)
    (table : gmap string nat) (queue : list rpcMsg) :
  encoded q = Ok msg → length queue < queueCap →
  (∀ ls s r, Responder ∉ ls → run q ls (init t0 table (Some queue)) = Some s →
             cpc s = CReturned r →
             r = Late (FromErr (Some (timeoutError q))) ∧ (t0 + timeout ≤ now s)%N) ∧
  (∃ s, run q Samples.unanswered (init t0 table (Some queue)) = Some s ∧
        cpc s = CReturned (Late (FromErr (Some (timeoutError q)))) ∧
        reqs s !! id q = None ∧ now s = (t0 + timeout)%N ∧ crashed s = None).
Proof.
  intros Henc Hlen. split.
  - intros ls s r Hno Hrun Hc.
    pose proof (TrackerFacts.inv_run _ _ _ _ (TrackerFacts.inv_init q t0 table (Some queue))
                  Hrun) as Hinv.
    pose proof (silent_run q ls _ s Hno Hrun) as Hr. simpl in Hr.
    destruct (clock_run q t0 ls (init t0 table (Some queue)) s) as [_ Harm];
      [simpl; lia | done | exact Hrun |].
    destruct r as [e|d].
    + exfalso.
      refine (sent_run q msg ls (init t0 table (Some queue)) s Henc _ _ Hrun e Hc).
      * simpl. eauto.
      * done.
    + pose proof (inv_got _ _ Hinv) as Hg. rewrite Hc, Hr in Hg. simpl in Hg.
      destruct (tSent (tpc s)) eqn:Ht; [|done].
      split; [congruence|].
      assert (tAwake (tpc s) = true) as Hawake by (by destruct (tpc s)).
      assert (tStarted (tpc s) = true) as Hstarted by (by destruct (tpc s)).
      pose proof (inv_slept _ _ Hinv Hawake). specialize (Harm Hstarted). lia.
  - destruct (run_unanswered q msg t0 table queue Henc Hlen)
      as (s & Hrun & Hc & Hr & Hn & Hcr).
    exists s. split; [exact Hrun|]. split; [exact Hc|].
    split; [by rewrite Hr, lookup_delete_eq|]. by split.
Qed.

Import Plain.

(** X19 at the schedule [race]. *)
Lemma latch_in_every_schedule_race :
  ∃ s, run pingCall race (init 0 ∅ (Some [])) = Some s ∧
       tSent (tpc s) && rSent (rpc s) = false.
Proof.
  eexists. split; [vm_compute; reflexivity|].
  refine (proj1 (proj2
    (TrackerFacts.latch_in_every_schedule pingCall 0 ∅ (Some []) race _ _))).
  vm_compute. reflexivity.
Defined.


(** X21 at the schedule [late]: the timeout error, after five seconds. *)
Lemma caller_receives_timeout_or_answer_late :
  ∃ s, run pingCall late (init 0 ∅ (Some [])) = Some s ∧
       ((FromErr (Some (timeoutError pingCall)) = FromErr (Some (timeoutError pingCall)) ∧
         tSent (tpc s) = true ∧ (armed s + timeout ≤ now s)%N) ∨
        (FromErr (Some (timeoutError pingCall)) = answer pingCall ∧
         rSent (rpc s) = true ∧ tSent (tpc s) = false)).
Proof.
  eexists. split; [vm_compute; reflexivity|].
  refine (caller_receives_timeout_or_answer pingCall 0 ∅ (Some []) late _
            (FromErr (Some (timeoutError pingCall))) _ _).
  - vm_compute. reflexivity.
  - vm_compute. reflexivity.
Defined.

(** X22 at a request value that holds a newline. *)
Lemma encode_error_returns_at_once_bad :
  ∃ s, run Samples.badCall [Caller; Tick 6000; Responder] (init 0 ∅ (Some [])) = Some s ∧
       reqs s = ∅ ∧ tpc s = TIdle.
Proof.
  eexists. split; [vm_compute; reflexivity|].
  destruct (encode_error_returns_at_once Samples.badCall
              "failed to encode data for request '2QnJeDZkWbE3XGIqrW1mbUkZRke' for peer 'B': plain: text cannot be encoded"
              0 ∅ (Some []) [Caller; Tick 6000; Responder] _ eq_refl
              ltac:(vm_compute; reflexivity)) as (_ & Hr & Ht & _).
  split; [exact Hr | exact Ht].
Defined.

(** X23 at the schedule in which the answer comes in time. *)
Lemma answer_before_timer_wakes_inTime :
  ∃ s, run pingCall Network.inTime (init 0 ∅ (Some [])) = Some s ∧
       ∀ ls' s', run pingCall ls' s = Some s' → crashed s' = None.
Proof.
  eexists. split; [vm_compute; reflexivity|].
  intros ls' s' Hrun'.
  refine (proj1 (answer_before_timer_wakes pingCall 0 ∅ (Some []) Network.inTime ls'
                   _ s' _ _ _ Hrun')).
  - vm_compute. reflexivity.
  - reflexivity.
  - reflexivity.
Defined.

(** X29 at the ping of the first scenario, left without response. *)
Lemma no_response_means_timeout_ping :
  ∃ s, run pingCall Samples.unanswered (init 0 ∅ (Some [])) = Some s ∧
       cpc s = CReturned (Late (FromErr (Some (timeoutError pingCall)))) ∧
       reqs s !! anID = None ∧ now s = 5000%N ∧ crashed s = None.
Proof.
  refine (proj2 (no_response_means_timeout pingCall _ 0 ∅ [] _ _)).
  - reflexivity.
  - unfold queueCap. simpl. lia.
Defined.

End ScheduleFacts.

(** ** Broadcasts and the handler tables *)

Module PubSubFacts.
Import P2P Network Trace Broadcast Registry.

Section PubSub.
Context {V : Type} `{GoValue V} `{JSON pubsubMsg}.
Variable topics : gmap string (pubsubHandler V).

(** X24: what the goroutine of a pubsub message does and does not do.
    It sends nothing on a write queue and passes nothing to
    [responseHandler]; it enters at most one handler and logs at most
    one line; it enters a handler only when the message decodes, its
    type is registered and its payload decodes into a fresh value of
    the handler's payload type, and then with the sender and that
    value; and when it logs nothing, it has entered a handler that
    returned no error. *)
Theorem pubsub_effects (msg : Message) :
  let acts := pubsubDispatch topics msg in
  enqueued acts = [] ∧ answers acts = [] ∧
  length (invoked acts) ≤ 1 ∧ length (logged acts) ≤ 1 ∧
  (∀ name p arg, (name, p, arg) ∈ invoked acts →
     p = ReceivedFrom msg ∧
     ∃ m h, Unmarshal (Data msg) = Ok m ∧ psType m = name ∧
            topics !! name = Some h ∧
            UnmarshalInto (psPayload m) (reflectNew (PayloadStruct h)) = Ok arg) ∧
  (logged acts = [] →
     ∃ name arg h, invoked acts = [(name, ReceivedFrom msg, arg)] ∧
                   topics !! name = Some h ∧
                   psFunc h (ReceivedFrom msg) arg = Return None).
Proof.
  intros acts. subst acts. unfold enqueued, answers, invoked, logged.
  unfold pubsubDispatch, getPubSubHandler, bind, emit, invoke, ret, recovering.
  repeat case_match; simplify_eq/=;
    (split; [done|]); (split; [done|]); (split; [lia|]); (split; [lia|]);
    (split; [intros name p arg Hin | intros Hlog]);
    try (by apply elem_of_nil in Hin); try done;
    try (apply list_elem_of_singleton in Hin; simplify_eq); eauto 10.
Qed.

(** X25: a broadcast reaches the handlers of the other peers, and not
    the sender's. When the payload and the message encode,
    [BroadcastMsg] hands the encoded message to [Publish] once and
    returns what [Publish] returns; a peer other than the sender that
    receives these bytes, decodes them to the message and has a
    handler for its type enters that handler with the sender and the
    decoded payload; the sender, receiving its own message, starts
    nothing. *)
Theorem broadcast_reaches_handler (Publish : bytes → option error)
    (sender receiver : PeerID) (own : gmap string (pubsubHandler V))
    (id kind : string) (data payload : V) (h : pubsubHandler V)
    (dataBytes msgBytes : bytes) :
  receiver ≠ sender →
  MarshalAny data = Ok dataBytes →
  Marshal {| psID := id; psType := kind; psPayload := dataBytes |} = Ok msgBytes →
  Unmarshal msgBytes = Ok {| psID := id; psType := kind; psPayload := dataBytes |} →
  topics !! kind = Some h →
  UnmarshalInto dataBytes (reflectNew (PayloadStruct h)) = Ok payload →
  BroadcastMsg Publish id kind data = ([msgBytes], Publish msgBytes) ∧
  invoked <$> pubsubMsgProcessor receiver topics
                ((λ b, {| ReceivedFrom := sender; Data := b |}) <$>
                 (BroadcastMsg Publish id kind data).1)
  = [[(kind, sender, payload)]] ∧
  pubsubMsgProcessor sender own
    ((λ b, {| ReceivedFrom := sender; Data := b |}) <$>
     (BroadcastMsg Publish id kind data).1)
  = [[]].
Proof.
  intros Hne Hdata Hmsg Hun Hh Hpay.
  assert (BroadcastMsg Publish id kind data = ([msgBytes], Publish msgBytes)) as Hb.
  { unfold BroadcastMsg. by rewrite Hdata, Hmsg. }
  split; [exact Hb|]. rewrite Hb. cbn [fst fmap list_fmap].
  unfold pubsubMsgProcessor. cbn [fmap list_fmap ReceivedFrom]. split.
  - rewrite decide_False by (intros Heq; by apply Hne).
    unfold pubsubDispatch, getPubSubHandler. cbn [Data ReceivedFrom].
    rewrite Hun. cbn [psType psPayload]. rewrite Hh, Hpay.
    unfold bind, emit, invoke, ret, recovering, invoked.
    by destruct (psFunc h sender payload) as [[e|]|r].
  - by rewrite decide_True.
Qed.

(** X26: the handler tables. A handler is found under the name it was
    added under, the last one added when there were several, and the
    other names are as before; in the empty tables of [NewManager]
    every lookup fails, with an error that names what was asked for. *)
Theorem registry_round_trip (rpcHandlers : gmap string (rpcHandler V))
    (name other : string) (h h' : rpcHandler V) (ps ps' : pubsubHandler V) :
  getRPCHandler (addRPCHandler name h rpcHandlers) name = Ok h ∧
  getRPCHandler (addRPCHandler name h' (addRPCHandler name h rpcHandlers)) name = Ok h' ∧
  (other ≠ name →
     getRPCHandler (addRPCHandler name h rpcHandlers) other
     = getRPCHandler rpcHandlers other) ∧
  getRPCHandler (V := V) ∅ other
  = Err ("RPC handler for method '" +:+ other +:+ "' not found") ∧
  getPubSubHandler (addPubSubHandler name ps topics) name = Ok ps ∧
  getPubSubHandler (addPubSubHandler name ps' (addPubSubHandler name ps topics)) name
  = Ok ps' ∧
  (other ≠ name →
     getPubSubHandler (addPubSubHandler name ps topics) other
     = getPubSubHandler topics other) ∧
  getPubSubHandler (V := V) ∅ other
  = Err ("PubSub handler for msg type '" +:+ other +:+ "' not found").
Proof.
  unfold getRPCHandler, getPubSubHandler, addRPCHandler, addPubSubHandler.
  rewrite !lookup_insert_eq, !lookup_empty.
  repeat split; intros Hne; by rewrite lookup_insert_ne.
Qed.

End PubSub.

Import Plain.

(** X25 at an echo broadcast of [A] received by [B]. *)
Lemma broadcast_reaches_handler_echo :
  invoked <$> pubsubMsgProcessor "B" topics
                ((λ b, {| ReceivedFrom := "A"; Data := b |}) <$>
                 (BroadcastMsg (λ _, None) anID "echo" "hi").1)
  = [[("echo", "A", "hi")]].
Proof.
  refine (proj1 (proj2 (broadcast_reaches_handler topics (λ _, None) "A" "B" ∅
                          anID "echo" "hi" "hi" echo _ _ _ _ _ _ _ _))).
  - discriminate.
  - reflexivity.
  - reflexivity.
  - vm_compute. reflexivity.
  - reflexivity.
  - reflexivity.
Defined.

End PubSubFacts.

(** ** The methods of the gRPC server *)

Module MethodsFacts.
Import Server Outcomes.

Section Methods.
Context {Ctx D : Type} (RemotePeerFromContext : Ctx → option PeerID).

(** X27: the four methods of the server keep Go's convention, and
    three of them need the DB. [Ping] always returns, with exactly one
    of a response and an error. [ExecSQL], [GetAllCommits] and
    [GetHead] do so when the [DB] field is set, and panic when it is
    nil, before anything else is done; none of the three looks at the
    context, so that a request without a peer identity is served as
    any other. *)
Theorem response_or_error (s : Server D) (ctx ctx' : Ctx) (w : world D)
    (ping : PingRequest) (exec : ExecSQLRequest) :
  oneOf (Ping RemotePeerFromContext s ctx ping w).1 ∧
  match DB s with
  | Some _ =>
      oneOf (ExecSQL s ctx exec w).1 ∧ oneOf (GetAllCommits_ s ctx w).1 ∧
      oneOf (GetHead s ctx w).1
  | None =>
      ExecSQL s ctx exec w = (Panics, w) ∧ GetAllCommits_ s ctx w = (Panics, w) ∧
      GetHead s ctx w = (Panics, w)
  end ∧
  ExecSQL s ctx exec w = ExecSQL s ctx' exec w ∧
  GetAllCommits_ s ctx w = GetAllCommits_ s ctx' w ∧
  GetHead s ctx w = GetHead s ctx' w.
Proof.
  assert (∀ A (r : A), is_Some (Some r) ↔ (None : option error) = None) as Hyes.
  { intros A r. split; eauto. }
  assert (∀ A (e : error), is_Some (None : option A) ↔ Some e = None) as Hno.
  { intros A e. split; [by intros [? ?] | done]. }
  split; [|split].
  - unfold Ping. destruct (RemotePeerFromContext ctx); simpl; [apply Hyes | apply Hno].
  - unfold ExecSQL, GetAllCommits_, GetHead. destruct (DB s) as [db|]; [|done].
    destruct (db_ExecAndCommit db (Statement exec) (Msg exec) (store w)) as [[?|?] ?];
      destruct (db_GetAllCommits db (store w)) as [[?|?] ?];
      destruct (db_GetLastCommit db "main" (store w)) as [[?|?] ?];
      simpl; repeat split; first [apply Hyes | apply Hno].
  - done.
Qed.

End Methods.

End MethodsFacts.

(** ** Peer discovery *)

Module DiscoveryFacts.
Import Workers Pairs Discovery.

Section Host.
Variable Connect : nat → AddrInfo → option error.
Variable NewStream : nat → PeerID → result Stream.

(** [NewStream(ctx, id, ...)] gives a stream to the peer [id]. *)
Hypothesis stream_to : ∀ n p s, NewStream n p = Ok s → RemotePeer s = p.

(** A stream handled leaves its peer with a processor, and takes none
    away. *)
Lemma stream_registers (s : Stream) (st : state) :
  is_Some (rpcMsgProcessors (newRPCStreamHandler s st) !! PeerID_String (RemotePeer s)).
Proof.
  unfold newRPCStreamHandler.
  destruct (rpcMsgProcessors st !! PeerID_String (RemotePeer s)) eqn:Hs; [by rewrite Hs|].
  unfold insertWorker, SetIfAbsent. rewrite Hs. simpl. rewrite lookup_insert_eq. eauto.
Qed.

Lemma stream_keeps (s : Stream) (st : state) (key : string) :
  PeerID_String (RemotePeer s) ≠ key ∨ is_Some (rpcMsgProcessors st !! key) →
  rpcMsgProcessors (newRPCStreamHandler s st) !! key = rpcMsgProcessors st !! key.
Proof.
  intros Hkey. unfold newRPCStreamHandler.
  destruct (rpcMsgProcessors st !! PeerID_String (RemotePeer s)) eqn:Hs; [done|].
  unfold insertWorker, SetIfAbsent. rewrite Hs. simpl.
  apply lookup_insert_ne. destruct Hkey as [Hne|[w Hw]]; [done|]. congruence.
Qed.

(** The workers after the loop are those after the streams it opened. *)
Lemma loop_events (peers : list AddrInfo) (n : nat) (l : loop) :
  ∃ streams, workers (peerDiscoveryProcessor Connect NewStream n peers l)
             = foldl handle (workers l) (StreamOpened <$> streams).
Proof.
  revert n l. induction peers as [|peer peers IH]; intros n l; simpl.
  - by exists [].
  - destruct (IH (S n) (found Connect NewStream n peer l)) as [streams ->].
    unfold found. destruct (Connect n peer); [by exists streams|].
    destruct (NewStream n (ID peer)) as [s|e]; [|by exists streams].
    by exists (s :: streams).
Qed.

Lemma loop_keeps (peers : list AddrInfo) (n : nat) (l : loop) (key : string) :
  is_Some (rpcMsgProcessors (workers l) !! key) →
  rpcMsgProcessors (workers (peerDiscoveryProcessor Connect NewStream n peers l)) !! key
  = rpcMsgProcessors (workers l) !! key.
Proof.
  revert n l. induction peers as [|peer peers IH]; intros n l Hkey; simpl; [done|].
  assert (rpcMsgProcessors (workers (found Connect NewStream n peer l)) !! key
          = rpcMsgProcessors (workers l) !! key) as Hstep.
  { unfold found. destruct (Connect n peer); [done|].
    destruct (NewStream n (ID peer)) as [s|e]; [|done].
    simpl. apply stream_keeps. by right. }
  rewrite IH; [done|]. by rewrite Hstep.
Qed.

Lemma loop_others (peers : list AddrInfo) (n : nat) (l : loop) (p : PeerID) :
  (∀ peer, peer ∈ peers → ID peer ≠ p) →
  rpcMsgProcessors (workers (peerDiscoveryProcessor Connect NewStream n peers l))
    !! PeerID_String p
  = rpcMsgProcessors (workers l) !! PeerID_String p.
Proof.
  revert n l. induction peers as [|peer peers IH]; intros n l Hno; simpl; [done|].
  rewrite IH by (intros peer' Hin; apply Hno; by right).
  unfold found. destruct (Connect n peer); [done|].
  destruct (NewStream n (ID peer)) as [s|e] eqn:Hs; [|done].
  simpl. apply stream_keeps. left. rewrite (stream_to _ _ _ Hs).
  unfold PeerID_String. apply Hno. by left.
Qed.

Lemma loop_served (peers : list AddrInfo) (n : nat) (l : loop) (i : nat)
    (peer : AddrInfo) (s : Stream) :
  peers !! i = Some peer → Connect (n + i) peer = None →
  NewStream (n + i) (ID peer) = Ok s →
  is_Some (rpcMsgProcessors (workers (peerDiscoveryProcessor Connect NewStream n peers l))
             !! PeerID_String (ID peer)).
Proof.
  revert n l i. induction peers as [|peer' peers IH]; intros n l i Hi Hc Hs; [done|].
  destruct i as [|i]; simpl in Hi.
  - injection Hi as ->. rewrite Nat.add_0_r in Hc, Hs. simpl.
    assert (is_Some (rpcMsgProcessors (workers (found Connect NewStream n peer l))
                       !! PeerID_String (ID peer))) as Hnow.
    { unfold found. rewrite Hc, Hs. simpl. rewrite <- (stream_to _ _ _ Hs).
      apply stream_registers. }
    by rewrite loop_keeps.
  - simpl. apply (IH (S n) _ i Hi).
    + by replace (S n + i) with (n + S i) by lia.
    + by replace (S n + i) with (n + S i) by lia.
Qed.

Lemma loop_counts (peers : list AddrInfo) (n : nat) (l : loop) :
  sent (peerDiscoveryProcessor Connect NewStream n peers l)
  + length (logs (peerDiscoveryProcessor Connect NewStream n peers l))
  = sent l + length (logs l) + length peers.
Proof.
  revert n l. induction peers as [|peer peers IH]; intros n l; simpl; [lia|].
  rewrite IH. unfold found. destruct (Connect n peer); simpl.
  - rewrite length_app. simpl. lia.
  - destruct (NewStream n (ID peer)); simpl; [lia|]. rewrite length_app. simpl. lia.
Qed.

(** X28: the discovery loop serves the peers it reaches. Whatever
    stream handlers and close handlers ran before it, after the loop
    has handled the peers received on [PeerChan], nothing else being
    handled meanwhile, every one of them to which the connection
    succeeded and a stream opened has a message processor whose reader
    and writer are among the goroutines of the peer that are not
    cancelled, and these are the only ones when no close handler of
    the peer is waiting between its [Pop] and its [Stop]; a peer that
    was not among them has the processor it had before, or none; and
    for each peer received the loop has either sent the peer list on
    [peerListChan] or logged an error, never both. *)
Theorem discovery_serves_reached_peers (events : list event) (peers : list AddrInfo) :
  let l := peerDiscoveryProcessor Connect NewStream 0 peers
             {| workers := after events; sent := 0; logs := [] |} in
  (∀ i peer s, peers !! i = Some peer → Connect i peer = None →
     NewStream i (ID peer) = Ok s →
     ∃ w s', rpcMsgProcessors (workers l) !! PeerID_String (ID peer) = Some w ∧
             RemotePeer s' = ID peer ∧
             rpcMsgReader s' (WriteQueue w) (Stop w) ∈ liveReaders (ID peer) (workers l) ∧
             rpcMsgWriter s' (WriteQueue w) (Stop w) ∈ liveWriters (ID peer) (workers l) ∧
             (settled (ID peer) (workers l) →
                liveReaders (ID peer) (workers l)
                = [rpcMsgReader s' (WriteQueue w) (Stop w)] ∧
                liveWriters (ID peer) (workers l)
                = [rpcMsgWriter s' (WriteQueue w) (Stop w)])) ∧
  (∀ p, (∀ peer, peer ∈ peers → ID peer ≠ p) →
     rpcMsgProcessors (workers l) !! PeerID_String p
     = rpcMsgProcessors (after events) !! PeerID_String p) ∧
  sent l + length (logs l) = length peers.
Proof.
  intros l.
  destruct (loop_events peers 0 {| workers := after events; sent := 0; logs := [] |})
    as [streams Hw]. fold l in Hw. simpl in Hw.
  assert (workers l = after (events ++ (StreamOpened <$> streams))) as Hafter.
  { rewrite Hw. unfold after. by rewrite foldl_app. }
  destruct (PairsFacts.reachable (events ++ (StreamOpened <$> streams))) as [Hinv Hp].
  rewrite <- Hafter in Hinv, Hp.
  split; [|split].
  - intros i peer s Hi Hc Hs.
    destruct (loop_served peers 0 {| workers := after events; sent := 0; logs := [] |}
                i peer s Hi Hc Hs) as [w Hentry].
    fold l in Hentry. exists w.
    destruct (PairsFacts.pair_live (workers l) (ID peer) w Hp Hentry)
      as (s' & Hs' & Hr & Hwr).
    exists s'. split; [exact Hentry|]. split; [exact Hs'|]. split; [exact Hr|].
    split; [exact Hwr|]. intros Hset.
    assert (length (unstopped (ID peer) (workers l)) = 1) as Hone.
    { unfold unstopped. unfold settled in Hset. by rewrite Hentry, Hset. }
    split; apply PairsFacts.only_one; try done.
    + rewrite <- Hone. apply (WorkersFacts.live_bound true _ _ Hinv).
    + rewrite <- Hone. apply (WorkersFacts.live_bound false _ _ Hinv).
  - intros p Hno. subst l. by rewrite loop_others.
  - subst l. by rewrite loop_counts.
Qed.

End Host.

(** X28 at three peers found after nothing else, [C] out of reach. *)
Lemma discovery_serves_reached_peers_abc :
  sent (peerDiscoveryProcessor plainConnect plainNewStream 0
          [{| ID := "A" |}; {| ID := "C" |}; {| ID := "B" |}]
          {| workers := after []; sent := 0; logs := [] |})
  + length (logs (peerDiscoveryProcessor plainConnect plainNewStream 0
                    [{| ID := "A" |}; {| ID := "C" |}; {| ID := "B" |}]
                    {| workers := after []; sent := 0; logs := [] |}))
  = 3.
Proof.
  refine (proj2 (proj2 (discovery_serves_reached_peers plainConnect plainNewStream _ []
                          [{| ID := "A" |}; {| ID := "C" |}; {| ID := "B" |}]))).
  intros n p s Hs. unfold plainNewStream in Hs. by injection Hs as <-.
Defined.

End DiscoveryFacts.

(** ** The send on the write queue *)

Module SentFacts.
Import Tracker Sent.

(** The write queue is what was put on it, less what the writer took. *)
Lemma offered_step (q : request) (msg : rpcMsg) (queue : list rpcMsg)
    (l : label) (s s' : state) :
  encoded q = Ok msg →
  (∃ k, k ≤ length (offered queue msg (cpc s)) ∧
        writeQueue s = Some (drop k (offered queue msg (cpc s)))) →
  step q l s = Some s' →
  ∃ k, k ≤ length (offered queue msg (cpc s')) ∧
       writeQueue s' = Some (drop k (offered queue msg (cpc s'))).
Proof.
  intros Henc (k & Hk & Hq) Hstep. unfold step in Hstep.
  destruct (crashed s); [done|]. destruct l; simpl in Hstep.
  - simplify_eq. simpl. eauto.
  - rewrite Hq in Hstep.
    destruct (drop k (offered queue msg (cpc s))) as [|m rest] eqn:Hd; simplify_eq.
    simpl. exists (S k).
    assert (k < length (offered queue msg (cpc s))) as Hlt.
    { destruct (decide (k < length (offered queue msg (cpc s)))) as [|Hge]; [done|].
      rewrite drop_ge in Hd by lia. done. }
    split; [lia|]. f_equal. replace (S k) with (k + 1) by lia.
    by rewrite <- drop_drop, Hd.
  - unfold stepCaller in Hstep. rewrite Henc, Hq in Hstep.
    destruct (cpc s) eqn:Hc; repeat case_match; simplify_eq;
      unfold offered in *; simpl in *; eauto.
    (* the send itself *)
    exists k. rewrite length_app. split; [simpl; lia|].
    by rewrite drop_app_le.
  - unfold stepTimer in Hstep.
    destruct (tpc s); repeat case_match; simplify_eq;
      unfold offered in *; simpl in *; try rewrite H in *; eauto.
  - unfold stepResponder, recover in Hstep.
    destruct (rpc s); repeat case_match; simplify_eq;
      unfold offered in *; simpl in *; try rewrite H in *; eauto.
Qed.

(** X30: [sendRequest] puts its request on the write queue once, behind
    what the queue holds. With the request encoded as [msg] and the
    queue holding [queue] at the call, in every schedule the write
    queue is [queue], followed by [msg] once the caller is past its
    send, less the messages the writer has taken from its head: the
    request is never sent twice, and never overtakes a message that
    was queued before it. *)
Theorem request_enqueued_once (q : request) (msg : rpcMsg) (t0 : N)
    (table : gmap string nat) (queue : list rpcMsg) (ls : list label) (s : state) :
  encoded q = Ok msg →
  run q ls (init t0 table (Some queue)) = Some s →
  ∃ k, k ≤ length (offered queue msg (cpc s)) ∧
       writeQueue s = Some (drop k (offered queue msg (cpc s))).
Proof.
  intros Henc.
  assert (∀ s0, (∃ k, k ≤ length (offered queue msg (cpc s0)) ∧
                      writeQueue s0 = Some (drop k (offered queue msg (cpc s0)))) →
                run q ls s0 = Some s →
                ∃ k, k ≤ length (offered queue msg (cpc s)) ∧
                     writeQueue s = Some (drop k (offered queue msg (cpc s)))) as Hgen.
  { induction ls as [|l ls IH]; intros s0 Hq; simpl.
    - by intros [= <-].
    - destruct (step q l s0) as [s1|] eqn:Hstep; [|done].
      apply IH. by eapply offered_step. }
  apply Hgen. exists 0. split; [lia|]. reflexivity.
Qed.

Import Plain.

(** X30 at the ping of the first scenario, the writer having taken a
    message before the send and one after it. *)
Lemma request_enqueued_once_ping :
  ∃ s, run pingCall [Caller; Drain; Caller; Caller; Drain]
         (init 0 ∅ (Some (take 2 fullQueue))) = Some s ∧
       ∃ k, k ≤ length (offered (take 2 fullQueue)
                          {| msgID := anID; msgType := rpcRequest;
                             msgPayload := toBytes "ping" ++ sep :: toBytes "hello" |}
                          (cpc s)) ∧
            writeQueue s
            = Some (drop k (offered (take 2 fullQueue)
                              {| msgID := anID; msgType := rpcRequest;
                                 msgPayload := toBytes "ping" ++ sep :: toBytes "hello" |}
                              (cpc s))).
Proof.
  eexists. split; [vm_compute; reflexivity|].
  refine (request_enqueued_once pingCall _ 0 ∅ (take 2 fullQueue)
            [Caller; Drain; Caller; Caller; Drain] _ _ _).
  - reflexivity.
  - vm_compute. reflexivity.
Defined.

End SentFacts.
